(** * MiraSim: an FCFS batch-scheduler simulator for IBM Mira

    A shallow embedding of [MiraSim.py].  Python objects are shared and
    mutated in place, so the embedding keeps an object store: a [Job] is
    referred to by its position in [heap], a [MidPlane] by its position in
    [Mira.midplanes].  Every method is a computation in a state-and-exception
    monad over the whole program state; [logging] calls append to [log]. *)

From Stdlib Require Import ZArith Lia DecimalString.
From stdpp Require Import base tactics option list strings.

Local Open Scope Z_scope.

(** ** Data model *)

(** A reference to a [Job] object is its position in the object store, a
    reference to a [MidPlane] its position in [Mira.midplanes]. *)
Abbreviation jobref := nat.
Abbreviation mpref := nat.

Inductive JobStatus := CREATED | QUEUED | READY | RUNNING | ENDED.
Inductive MidPlaneStatus := VACANT | OCCUPIED.

#[global] Instance JobStatus_eq_dec : EqDecision JobStatus.
Proof. solve_decision. Defined.
#[global] Instance MidPlaneStatus_eq_dec : EqDecision MidPlaneStatus.
Proof. solve_decision. Defined.

Module Job.
Record t := mk {
  name : string;
  num_of_requested_nodes : Z;
  submitted_time : Z;
  start_time : option Z;
  end_time : option Z;
  duration : Z;
  exit_code : string;
  status : JobStatus;
  midplanes : list mpref
}.

(** [Job.__init__] *)
Definition init (name : string) (submitted_time duration num_of_requested_nodes : Z)
    (exit_code : string) : t :=
  mk name num_of_requested_nodes submitted_time None None duration exit_code CREATED [].

Definition set_submitted_time (v : Z) (j : t) : t :=
  mk (name j) (num_of_requested_nodes j) v (start_time j) (end_time j)
     (duration j) (exit_code j) (status j) (midplanes j).
Definition set_start_time (v : option Z) (j : t) : t :=
  mk (name j) (num_of_requested_nodes j) (submitted_time j) v (end_time j)
     (duration j) (exit_code j) (status j) (midplanes j).
Definition set_end_time (v : option Z) (j : t) : t :=
  mk (name j) (num_of_requested_nodes j) (submitted_time j) (start_time j) v
     (duration j) (exit_code j) (status j) (midplanes j).
Definition set_status (v : JobStatus) (j : t) : t :=
  mk (name j) (num_of_requested_nodes j) (submitted_time j) (start_time j) (end_time j)
     (duration j) (exit_code j) v (midplanes j).
Definition set_midplanes (v : list mpref) (j : t) : t :=
  mk (name j) (num_of_requested_nodes j) (submitted_time j) (start_time j) (end_time j)
     (duration j) (exit_code j) (status j) v.
End Job.

Module Node.
Record t := mk { job : option jobref }.
Definition init : t := mk None.
Definition assign_job (j : jobref) (_ : t) : t := mk (Some j).
Definition free_up (_ : t) : t := mk None.
End Node.

Module MidPlane.
Record t := mk {
  name : string;
  status : MidPlaneStatus;
  job : option jobref;
  nodes : list Node.t
}.

(** [MidPlane.__init__]: sixteen by thirty-two nodes *)
Definition init (name : string) : t :=
  mk name VACANT None (replicate (16 * 32)%nat Node.init).

Definition set_status (v : MidPlaneStatus) (m : t) : t := mk (name m) v (job m) (nodes m).
Definition set_job (v : option jobref) (m : t) : t := mk (name m) (status m) v (nodes m).
Definition set_nodes (v : list Node.t) (m : t) : t := mk (name m) (status m) (job m) v.

Definition is_vacant (m : t) : bool := bool_decide (status m = VACANT).
End MidPlane.

(** What the program writes through [logging] and [print]. *)
Inductive Event :=
| JobSubmitted (job : string) (wallclock : Z)
| JobStarted (job : string) (start_time end_time : Z)
| JobStopped (job : string) (wallclock : Z)
| JobAssigned (job : string) (mps : string)
| JobReady (job : string)
| MidplaneAssigned (mp job : string)
| MidplaneFreeAgain (mp : string)
| MidplaneFreed (mp job : string)
| MiraFound (job : string)
| MiraCleanUp (job : string)
| Printed (n : nat).

(** Python exceptions the modelled methods can raise.  [InvalidRef] and
    [OutOfFuel] have no Python counterpart: the first is a reference outside
    the object store, the second a bounded loop unrolled too few times. *)
Inductive Exn :=
| AttributeError | TypeError | IndexError | ValueError | KeyError | OverflowError
| InvalidRef | OutOfFuel.

(** The program state: the object store, the [mira] object, [trace.jobs] and
    the log. *)
Record World := mkWorld {
  heap : list Job.t;
  midplanes : list MidPlane.t;
  queue : list jobref;
  running_jobs : list jobref;
  simulated_wallclock : Z;
  trace_jobs : list jobref;
  log : list Event
}.

Definition set_heap (v : list Job.t) (w : World) : World :=
  mkWorld v (midplanes w) (queue w) (running_jobs w) (simulated_wallclock w)
          (trace_jobs w) (log w).
Definition set_midplanes (v : list MidPlane.t) (w : World) : World :=
  mkWorld (heap w) v (queue w) (running_jobs w) (simulated_wallclock w)
          (trace_jobs w) (log w).
Definition set_queue (v : list jobref) (w : World) : World :=
  mkWorld (heap w) (midplanes w) v (running_jobs w) (simulated_wallclock w)
          (trace_jobs w) (log w).
Definition set_running_jobs (v : list jobref) (w : World) : World :=
  mkWorld (heap w) (midplanes w) (queue w) v (simulated_wallclock w)
          (trace_jobs w) (log w).
Definition set_simulated_wallclock (v : Z) (w : World) : World :=
  mkWorld (heap w) (midplanes w) (queue w) (running_jobs w) v (trace_jobs w) (log w).
Definition set_trace_jobs (v : list jobref) (w : World) : World :=
  mkWorld (heap w) (midplanes w) (queue w) (running_jobs w) (simulated_wallclock w)
          v (log w).
Definition set_log (v : list Event) (w : World) : World :=
  mkWorld (heap w) (midplanes w) (queue w) (running_jobs w) (simulated_wallclock w)
          (trace_jobs w) v.

(** ** The monad *)

Inductive Outcome (A : Type) :=
| Ok (a : A) (w : World)
| Raise (e : Exn) (w : World).
Arguments Ok {A} a w.
Arguments Raise {A} e w.

Definition M (A : Type) := World -> Outcome A.

Definition ret {A} (a : A) : M A := fun w => Ok a w.
Definition bind {A B} (c : M A) (f : A -> M B) : M B :=
  fun w => match c w with
           | Ok a w' => f a w'
           | Raise e w' => Raise e w'
           end.
Definition raise {A} (e : Exn) : M A := fun w => Raise e w.
Definition gets {A} (f : World -> A) : M A := fun w => Ok (f w) w.
Definition modify (f : World -> World) : M unit := fun w => Ok tt (f w).

Notation "x <- c1 ;; c2" := (bind c1 (fun x => c2))
  (at level 100, c1 at next level, right associativity).
Notation "c1 ;; c2" := (bind c1 (fun _ => c2))
  (at level 100, right associativity).

Definition when (b : bool) (c : M unit) : M unit := if b then c else ret tt.

Fixpoint for_each {A} (f : A -> M unit) (l : list A) : M unit :=
  match l with
  | [] => ret tt
  | x :: l' => f x;; for_each f l'
  end.

Definition logging (ev : Event) : M unit :=
  modify (fun w => set_log (log w ++ [ev]) w).

Definition deref (r : jobref) : M Job.t :=
  fun w => match heap w !! r with
           | Some j => Ok j w
           | None => Raise InvalidRef w
           end.
Definition update_job (r : jobref) (f : Job.t -> Job.t) : M unit :=
  j <- deref r;; modify (fun w => set_heap (<[r := f j]> (heap w)) w).

Definition deref_mp (i : mpref) : M MidPlane.t :=
  fun w => match midplanes w !! i with
           | Some m => Ok m w
           | None => Raise InvalidRef w
           end.
Definition update_mp (i : mpref) (f : MidPlane.t -> MidPlane.t) : M unit :=
  m <- deref_mp i;; modify (fun w => set_midplanes (<[i := f m]> (midplanes w)) w).

(** ** class Job *)

Definition Job_submit (self : jobref) (curr_time : Z) : M unit :=
  update_job self (Job.set_submitted_time curr_time);;
  update_job self (Job.set_status QUEUED);;
  j <- deref self;;
  logging (JobSubmitted (Job.name j) (Job.submitted_time j)).

Definition Job_start (self : jobref) (curr_time : Z) : M unit :=
  update_job self (Job.set_start_time (Some curr_time));;
  update_job self (Job.set_status RUNNING);;
  update_job self (fun j => Job.set_end_time (Some (curr_time + Job.duration j)) j);;
  j <- deref self;;
  logging (JobStarted (Job.name j) curr_time (curr_time + Job.duration j)).

Definition Job_end (self : jobref) (curr_time : Z) : M unit :=
  update_job self (Job.set_end_time (Some curr_time));;
  update_job self (Job.set_status ENDED);;
  j <- deref self;;
  logging (JobStopped (Job.name j) curr_time).

Definition Job_tick (self : jobref) (curr_time : Z) : M unit :=
  j <- deref self;;
  when (bool_decide (Job.status j = READY)) (Job_start self curr_time);;
  j <- deref self;;
  if bool_decide (Job.status j = RUNNING) then
    match Job.end_time j with
    | Some e => when (e <=? curr_time) (Job_end self curr_time)
    | None => raise TypeError
    end
  else ret tt.

(** [','.join([md.name for md in midplanes])] *)
Definition joined_names (pool : list MidPlane.t) (mps : list mpref) : string :=
  String.concat "," (omap (fun i => MidPlane.name <$> pool !! i) mps).

Definition Job_assign_midplanes (self : jobref) (mps : list mpref) : M unit :=
  update_job self (Job.set_midplanes mps);;
  j <- deref self;;
  pool <- gets midplanes;;
  logging (JobAssigned (Job.name j) (joined_names pool (Job.midplanes j))).

Definition Job_ready (self : jobref) : M unit :=
  update_job self (Job.set_status READY);;
  j <- deref self;;
  logging (JobReady (Job.name j)).

Definition Job_is_ended (self : jobref) : M bool :=
  j <- deref self;; ret (bool_decide (Job.status j = ENDED)).

(** ** class MidPlane *)

Definition MidPlane_is_vacant (self : mpref) : M bool :=
  m <- deref_mp self;; ret (MidPlane.is_vacant m).

Definition MidPlane_assign_job (self : mpref) (job : jobref) : M unit :=
  update_mp self (fun m => MidPlane.set_nodes (Node.assign_job job <$> MidPlane.nodes m) m);;
  update_mp self (MidPlane.set_status OCCUPIED);;
  update_mp self (MidPlane.set_job (Some job));;
  m <- deref_mp self;;
  j <- deref job;;
  logging (MidplaneAssigned (MidPlane.name m) (Job.name j)).

Definition MidPlane_free_up (self : mpref) : M unit :=
  vacant <- MidPlane_is_vacant self;;
  m <- deref_mp self;;
  when vacant (logging (MidplaneFreeAgain (MidPlane.name m)));;
  update_mp self (fun m => MidPlane.set_nodes (Node.free_up <$> MidPlane.nodes m) m);;
  update_mp self (MidPlane.set_status VACANT);;
  m <- deref_mp self;;
  match MidPlane.job m with
  | None => raise AttributeError
  | Some r => j <- deref r;; logging (MidplaneFreed (MidPlane.name m) (Job.name j))
  end;;
  update_mp self (MidPlane.set_job None).

(** ** class Queue *)

Definition Queue_is_empty : M bool :=
  q <- gets queue;; ret (bool_decide (length q = 0%nat)).
Definition Queue_enqueue (obj : jobref) : M unit :=
  modify (fun w => set_queue (queue w ++ [obj]) w).
Definition Queue_dequeue : M jobref :=
  q <- gets queue;;
  match q with
  | [] => raise IndexError
  | x :: q' => modify (set_queue q');; ret x
  end.
Definition Queue_peek : M jobref :=
  q <- gets queue;;
  match q with
  | [] => raise IndexError
  | x :: _ => ret x
  end.

(** ** class Mira *)

(** [Mira.__init__] builds ninety-six midplanes named after their index. *)
Definition str (i : nat) : string := NilZero.string_of_uint (Nat.to_uint i).

Definition Mira_init_midplanes : list MidPlane.t :=
  (fun i => MidPlane.init (str i)) <$> seq 0 96.
Arguments Mira_init_midplanes : simpl never.

Definition Mira_submit_job (new_job : jobref) : M unit :=
  Queue_enqueue new_job;;
  t <- gets simulated_wallclock;;
  Job_submit new_job t.

(** The search loop of [schedule]: scan the midplanes in order and stop as
    soon as the collected list has the requested length. *)
Fixpoint find_vacant (wanted : Z) (i : mpref) (mps : list MidPlane.t)
    (vacant_midplanes : list mpref) : list mpref :=
  match mps with
  | [] => vacant_midplanes
  | mp :: rest =>
      if bool_decide (Z.of_nat (length vacant_midplanes) = wanted) then vacant_midplanes
      else if MidPlane.is_vacant mp
           then find_vacant wanted (S i) rest (vacant_midplanes ++ [i])
           else find_vacant wanted (S i) rest vacant_midplanes
  end.

Definition Mira_schedule : M unit :=
  empty <- Queue_is_empty;;
  if negb empty then
    next_job <- Queue_peek;;
    nj <- deref next_job;;
    let num_of_requested_nodes := Job.num_of_requested_nodes nj in
    let num_of_requested_midplanes := num_of_requested_nodes `div` 512 in
    pool <- gets midplanes;;
    let vacant_midplanes := find_vacant num_of_requested_midplanes 0%nat pool [] in
    if bool_decide (Z.of_nat (length vacant_midplanes) = num_of_requested_midplanes) then
      logging (MiraFound (Job.name nj));;
      job <- Queue_dequeue;;
      Job_assign_midplanes job vacant_midplanes;;
      for_each (fun mp => MidPlane_assign_job mp job) vacant_midplanes;;
      Job_ready job;;
      modify (fun w => set_running_jobs (running_jobs w ++ [job]) w)
    else ret tt
  else ret tt.

(** [list.remove]: drop the first occurrence, [None] when there is none. *)
Fixpoint remove_first (x : jobref) (l : list jobref) : option (list jobref) :=
  match l with
  | [] => None
  | y :: l' => if bool_decide (y = x) then Some l'
               else cons y <$> remove_first x l'
  end.

Definition running_jobs_remove (j : jobref) : M unit :=
  rj <- gets running_jobs;;
  match remove_first j rj with
  | Some rj' => modify (set_running_jobs rj')
  | None => raise ValueError
  end.

(** The [for j in self.running_jobs] loop.  Python's list iterator keeps an
    index into the live list: each round reads [running_jobs[i]] if there is
    one, runs the body on it, then moves to [i + 1], whatever the body did to
    the list. *)
Definition jobs_tick_body (j : jobref) (curr_wallclock : Z) : M unit :=
  Job_tick j curr_wallclock;;
  ended <- Job_is_ended j;;
  when ended (
    jo <- deref j;;
    logging (MiraCleanUp (Job.name jo));;
    for_each MidPlane_free_up (Job.midplanes jo);;
    running_jobs_remove j).

Fixpoint jobs_tick_loop (fuel : nat) (i : nat) (curr_wallclock : Z) : M unit :=
  rj <- gets running_jobs;;
  match rj !! i with
  | None => ret tt
  | Some j =>
      match fuel with
      | O => raise OutOfFuel
      | S fuel' =>
          jobs_tick_body j curr_wallclock;;
          jobs_tick_loop fuel' (S i) curr_wallclock
      end
  end.

Definition Mira_jobs_tick (curr_wallclock : Z) : M unit :=
  rj <- gets running_jobs;;
  jobs_tick_loop (length rj) 0%nat curr_wallclock.

Definition Mira_inc_wallclock : M unit :=
  modify (fun w => set_simulated_wallclock (simulated_wallclock w + 1) w).

(** ** class Trace *)

Definition Trace_get_job (curr_time : Z) : M (option jobref) :=
  tj <- gets trace_jobs;;
  match last tj with
  | None => ret None
  | Some r =>
      j <- deref r;;
      if bool_decide (Job.submitted_time j = curr_time) then
        modify (set_trace_jobs (removelast tj));; ret (Some r)
      else ret None
  end.

(** ** [Trace.parse_trace_file]

    A row of the trace file as the constructor call of [parse_trace_file]
    reads it: the three time stamps after
    [int(datetime.fromisoformat(...).timestamp())], the node count after
    [int(float(...))], the two other columns as the strings they are. *)
Module Row.
Record t := mk {
  JOB_NAME : string;
  QUEUED_TIMESTAMP : Z;
  START_TIMESTAMP : Z;
  END_TIMESTAMP : Z;
  NODES_REQUESTED : Z;
  EXIT_STATUS : string
}.
End Row.

(** The [Job(...)] call of the loop over the rows. *)
Definition Job_of_row (row : Row.t) : Job.t :=
  Job.init (Row.JOB_NAME row)
           (Row.QUEUED_TIMESTAMP row)
           (Row.END_TIMESTAMP row - Row.START_TIMESTAMP row)
           (Row.NODES_REQUESTED row)
           (Row.EXIT_STATUS row).

(** [self.jobs.sort(reverse=True, key=lambda x: x.submitted_time)]: Python's
    sort is stable, also with [reverse=True], so the jobs come out by
    decreasing submission time and jobs submitted at the same time keep the
    order of the file. *)
Fixpoint sort_insert (x : Job.t) (l : list Job.t) : list Job.t :=
  match l with
  | [] => [x]
  | y :: l' =>
      if Job.submitted_time y <=? Job.submitted_time x then x :: y :: l'
      else y :: sort_insert x l'
  end.

Definition sort_reverse_by_submitted_time (l : list Job.t) : list Job.t :=
  foldr sort_insert [] l.

(** [j.submitted_time -= earliest] *)
Definition Job_shifted (earliest : Z) (j : Job.t) : Job.t :=
  Job.set_submitted_time (Job.submitted_time j - earliest) j.

(** [parse_trace_file] once its rows are converted: the value of
    [trace.jobs] it leaves, or the exception it raises then; [self.jobs[-1]]
    is an [IndexError] on a file without rows. *)
Definition Trace_parse_trace_file (rows : list Row.t) : sum Exn (list Job.t) :=
  let jobs := sort_reverse_by_submitted_time (Job_of_row <$> rows) in
  match last jobs with
  | None => inl IndexError
  | Some j =>
      let earliest := Job.submitted_time j in
      inr (Job_shifted earliest <$> jobs)
  end.



(** ** The simulation *)

(** The inner [while new_job is not None] loop. *)
Fixpoint arrivals (fuel : nat) : M unit :=
  t <- gets simulated_wallclock;;
  new_job <- Trace_get_job t;;
  match new_job with
  | None => ret tt
  | Some r =>
      match fuel with
      | O => raise OutOfFuel
      | S fuel' =>
          tj <- gets trace_jobs;;
          logging (Printed (length tj));;
          Mira_submit_job r;;
          arrivals fuel'
      end
  end.

(** The last two statements of the outer [while]: the running jobs are
    ticked at the current wallclock, then the wallclock moves on. *)
Definition advance : M unit :=
  t <- gets simulated_wallclock;;
  Mira_jobs_tick t;;
  Mira_inc_wallclock.

(** One round of the outer [while]. *)
Definition tick : M unit :=
  tj <- gets trace_jobs;;
  arrivals (length tj);;
  Mira_schedule;;
  advance.

Definition loop_cond (w : World) : bool :=
  bool_decide (0 < length (trace_jobs w) ∨ 0 < length (queue w)
               ∨ 0 < length (running_jobs w))%nat.

(** The outer loop, run for at most [n] rounds: [true] when the loop
    condition became false within them, [false] when it still holds after
    [n] rounds. *)
Fixpoint simulation (n : nat) : M bool :=
  fun w =>
    if loop_cond w then
      match n with
      | O => Ok false w
      | S n' => (tick;; simulation n') w
      end
    else Ok true w.

(** Exactly [n] rounds of the loop body, the loop condition left aside. *)
Fixpoint ticks (n : nat) : M unit :=
  match n with
  | O => ret tt
  | S n' => tick;; ticks n'
  end.

(** The state right after initialisation: the jobs of the trace are the only
    objects of the store, [trace.jobs] lists them in the order the parser left
    them (latest submission first). *)
Definition initial (jobs : list Job.t) : World :=
  mkWorld jobs Mira_init_midplanes [] [] 0 (seq 0 (length jobs)) [].

(** ** What a method call leaves behind

    The objects a method writes to, as pure functions of the object before
    the call; the lemmas of the next section relate them to the methods. *)

Definition Job_submitted (t : Z) (j : Job.t) : Job.t :=
  Job.set_status QUEUED (Job.set_submitted_time t j).
Definition Job_started (t : Z) (j : Job.t) : Job.t :=
  Job.set_end_time (Some (t + Job.duration j))
    (Job.set_status RUNNING (Job.set_start_time (Some t) j)).
Definition Job_ended (t : Z) (j : Job.t) : Job.t :=
  Job.set_status ENDED (Job.set_end_time (Some t) j).
Definition Job_admitted (mps : list mpref) (j : Job.t) : Job.t :=
  Job.set_status READY (Job.set_midplanes mps j).

(** The object and the log lines after [tick]; [None] stands for the
    [TypeError] of comparing an unset [end_time]. *)
Definition Job_ticked (t : Z) (j : Job.t) : option (Job.t * list Event) :=
  let '(j1, ev1) :=
    if bool_decide (Job.status j = READY)
    then (Job_started t j, [JobStarted (Job.name j) t (t + Job.duration j)])
    else (j, []) in
  if bool_decide (Job.status j1 = RUNNING) then
    match Job.end_time j1 with
    | Some e =>
        if e <=? t then Some (Job_ended t j1, ev1 ++ [JobStopped (Job.name j1) t])
        else Some (j1, ev1)
    | None => None
    end
  else Some (j1, ev1).

Definition MidPlane_occupied (r : jobref) (m : MidPlane.t) : MidPlane.t :=
  MidPlane.set_job (Some r)
    (MidPlane.set_status OCCUPIED
       (MidPlane.set_nodes (Node.assign_job r <$> MidPlane.nodes m) m)).
Definition MidPlane_cleared (m : MidPlane.t) : MidPlane.t :=
  MidPlane.set_status VACANT
    (MidPlane.set_nodes (Node.free_up <$> MidPlane.nodes m) m).
Definition MidPlane_freed (m : MidPlane.t) : MidPlane.t :=
  MidPlane.set_job None (MidPlane_cleared m).

Definition with_job (r : jobref) (j : Job.t) (evs : list Event) (w : World) : World :=
  set_log (log w ++ evs) (set_heap (<[r := j]> (heap w)) w).
Definition with_mp (i : mpref) (m : MidPlane.t) (evs : list Event) (w : World) : World :=
  set_log (log w ++ evs) (set_midplanes (<[i := m]> (midplanes w)) w).

(** The final state of a computation, however it ended. *)
Definition state_of {A} (o : Outcome A) : World :=
  match o with Ok _ w => w | Raise _ w => w end.
Definition succeeds {A} (o : Outcome A) : bool :=
  match o with Ok _ _ => true | Raise _ _ => false end.

(** The vacant midplanes of a pool, by index, in pool order. *)
Fixpoint vacant_from (i : mpref) (mps : list MidPlane.t) : list mpref :=
  match mps with
  | [] => []
  | mp :: rest =>
      if MidPlane.is_vacant mp then i :: vacant_from (S i) rest
      else vacant_from (S i) rest
  end.
Definition vacant_indices (pool : list MidPlane.t) : list mpref := vacant_from 0%nat pool.

(** The number of midplanes [schedule] looks for, [num_of_requested_midplanes]. *)
Definition requested_midplanes (j : Job.t) : Z := Job.num_of_requested_nodes j `div` 512.

(** The pool after [assign_job] on each midplane of a list. *)
Definition occupy_all (r : jobref) (mps : list mpref) (pool : list MidPlane.t)
    : list MidPlane.t :=
  foldl (fun p i => alter (MidPlane_occupied r) i p) pool mps.

(** The state [schedule] leaves when it admits job [r], the head of the
    queue, onto the midplanes [mps]. *)
Definition admitted_world (r : jobref) (j : Job.t) (mps : list mpref)
    (evs : list Event) (w : World) : World :=
  mkWorld (<[r := Job_admitted mps j]> (heap w))
          (occupy_all r mps (midplanes w))
          (tail (queue w))
          (running_jobs w ++ [r])
          (simulated_wallclock w)
          (trace_jobs w)
          (log w ++ evs).

(** The pool after [free_up] on each midplane of a list. *)
Definition free_all (mps : list mpref) (pool : list MidPlane.t) : list MidPlane.t :=
  foldl (fun p i => alter MidPlane_freed i p) pool mps.

(** The state the loop body of [jobs_tick] leaves when the job it ticked has
    ended: its midplanes are free and it is gone from the running jobs. *)
Definition cleaned_world (r : jobref) (j : Job.t) (rj : list jobref)
    (evs : list Event) (w : World) : World :=
  mkWorld (<[r := j]> (heap w))
          (free_all (Job.midplanes j) (midplanes w))
          (queue w)
          rj
          (simulated_wallclock w)
          (trace_jobs w)
          (log w ++ evs).

(** ** Well-formed states

    What every state of a simulation satisfies between two statements of the
    main loop. *)

(** Midplane [i] is occupied by job [r]. *)
Definition owns (w : World) (r : jobref) (i : mpref) : Prop :=
  exists m, midplanes w !! i = Some m /\ MidPlane.status m = OCCUPIED
            /\ MidPlane.job m = Some r.

(** A job of the running list: admitted or started, not ended, and the owner
    of each of its midplanes. *)
Definition running_ok (w : World) (r : jobref) : Prop :=
  exists j, heap w !! r = Some j
    /\ (Job.status j = READY \/ (Job.status j = RUNNING /\ is_Some (Job.end_time j)))
    /\ NoDup (Job.midplanes j)
    /\ forall i, i ∈ Job.midplanes j -> owns w r i.

Record Inv (w : World) : Prop := mkInv {
  inv_pool : length (midplanes w) = 96%nat;
  inv_nodup : NoDup (trace_jobs w ++ queue w ++ running_jobs w);
  inv_refs : forall r, r ∈ trace_jobs w ++ queue w ++ running_jobs w ->
                       is_Some (heap w !! r);
  inv_running : forall r, r ∈ running_jobs w -> running_ok w r
}.

(** ** The steps of a round, as relations between states *)

(** What one round of the [jobs_tick] loop on job [x] does to a well-formed
    state [w] whose running jobs are [kept ++ x :: rest]. *)
Definition visited (t : Z) (x : jobref) (kept rest : list jobref) (w w' : World) : Prop :=
  exists j j' evs,
    heap w !! x = Some j /\
    Job_ticked t j = Some (j', evs) /\
    heap w' !! x = Some j' /\
    (forall r, r <> x -> heap w' !! r = heap w !! r) /\
    queue w' = queue w /\
    trace_jobs w' = trace_jobs w /\
    simulated_wallclock w' = simulated_wallclock w /\
    ((Job.status j' <> ENDED /\ running_jobs w' = kept ++ x :: rest
        /\ midplanes w' = midplanes w) \/
     (Job.status j' = ENDED /\ running_jobs w' = kept ++ rest
        /\ midplanes w' = free_all (Job.midplanes j) (midplanes w))).

(** The fields of a job that no statement of the main loop changes: what the
    job asks for, and when it arrives (which [submit] rewrites, but only with
    the value it already has). *)
Definition Job_request (j : Job.t) : string * Z * Z * Z :=
  (Job.name j, Job.num_of_requested_nodes j, Job.duration j, Job.submitted_time j).

Definition same_requests (w w' : World) : Prop :=
  forall r, Job_request <$> heap w' !! r = Job_request <$> heap w !! r.

(** What [jobs_tick] as a whole leaves alone. *)
Definition swept (w w' : World) : Prop :=
  queue w' = queue w /\
  trace_jobs w' = trace_jobs w /\
  simulated_wallclock w' = simulated_wallclock w /\
  running_jobs w' `sublist_of` running_jobs w /\
  (forall r, r ∉ running_jobs w -> heap w' !! r = heap w !! r) /\
  same_requests w w'.

(** The state after one round of the inner [while]: job [r], the last of
    [trace.jobs], has been popped, queued and submitted. *)
Definition arrived_world (r : jobref) (j : Job.t) (w : World) : World :=
  mkWorld (<[r := Job_submitted (simulated_wallclock w) j]> (heap w))
          (midplanes w)
          (queue w ++ [r])
          (running_jobs w)
          (simulated_wallclock w)
          (removelast (trace_jobs w))
          (log w ++ [Printed (length (removelast (trace_jobs w)));
                     JobSubmitted (Job.name j) (simulated_wallclock w)]).

(** When a job arrives, as the trace has it. *)
Definition arrival (w : World) (r : jobref) : option Z :=
  Job.submitted_time <$> heap w !! r.

(** The contract of the arrival feed ([parse_trace_file] sorts the jobs by
    decreasing submission time, and [get_job] pops from the end): a job
    further down [trace.jobs] does not arrive later, and no job of the trace
    arrives before the current wallclock. *)
Definition feed_ordered (w : World) : Prop :=
  forall l1 r l2 r' a a',
    trace_jobs w = l1 ++ r :: l2 -> r' ∈ l2 ->
    arrival w r = Some a -> arrival w r' = Some a' -> a' <= a.

Definition feed_in_time (w : World) : Prop :=
  forall r a, r ∈ trace_jobs w -> arrival w r = Some a -> simulated_wallclock w <= a.

(** What the inner [while] as a whole does: the jobs [pulled], in the order
    they were popped, left the end of [trace.jobs] for the end of the queue. *)
Definition drained (pulled : list jobref) (w w' : World) : Prop :=
  trace_jobs w = trace_jobs w' ++ reverse pulled /\
  queue w' = queue w ++ pulled /\
  running_jobs w' = running_jobs w /\
  midplanes w' = midplanes w /\
  simulated_wallclock w' = simulated_wallclock w /\
  same_requests w w' /\
  (forall r, r ∈ pulled -> arrival w r = Some (simulated_wallclock w)) /\
  (forall r, last (trace_jobs w') = Some r -> arrival w r <> Some (simulated_wallclock w)) /\
  (forall r, r ∉ pulled -> heap w' !! r = heap w !! r) /\
  (forall r, r ∈ pulled -> Job.status <$> heap w' !! r = Some QUEUED).

(** What [schedule] does: nothing, or the admission of the head of the
    queue onto the midplanes its search found. *)
Definition scheduled (w w' : World) : Prop :=
  w' = w \/
  exists r j evs,
    head (queue w) = Some r /\ heap w !! r = Some j /\
    Z.of_nat (length (find_vacant (requested_midplanes j) 0%nat (midplanes w) []))
      = requested_midplanes j /\
    w' = admitted_world r j
           (find_vacant (requested_midplanes j) 0%nat (midplanes w) []) evs w.

(** A job that asks for more midplanes than the pool has. *)
Definition oversized (w : World) (b : jobref) : Prop :=
  exists j, heap w !! b = Some j /\ 96 < requested_midplanes j.

(** A job still in the trace or in the queue. *)
Definition waiting (w : World) (b : jobref) : Prop :=
  b ∈ trace_jobs w \/ b ∈ queue w.

(** Job [p] is due to end at tick [t]: a tick brings it to [ENDED]. *)
Definition ends_at (t : Z) (w : World) (p : jobref) : Prop :=
  exists j j' evs, heap w !! p = Some j /\ Job_ticked t j = Some (j', evs)
                   /\ Job.status j' = ENDED.

(** The two things a sweep can do to the running job [r] that has the jobs
    [l1] ahead of it: tick it once, or step over it.  Either way [r] does not
    move back in the list. *)
Definition ticked_in (t : Z) (r : jobref) (l1 : list jobref) (w w' : World) : Prop :=
  exists j j' evs,
    heap w !! r = Some j /\ Job_ticked t j = Some (j', evs) /\ heap w' !! r = Some j' /\
    if decide (Job.status j' = ENDED) then r ∉ running_jobs w'
    else exists k1 k2, running_jobs w' = k1 ++ r :: k2 /\ (length k1 <= length l1)%nat.

Definition skipped_in (t : Z) (r : jobref) (l1 : list jobref) (w w' : World) : Prop :=
  heap w' !! r = heap w !! r /\
  (exists k1 k2, running_jobs w' = k1 ++ r :: k2 /\ (length k1 < length l1)%nat) /\
  (exists l0 p, l1 = l0 ++ [p] /\ ends_at t w p).

(** The state of a sweep with respect to the running job [r] that had the
    jobs [l1] ahead of it when the sweep began at state [w]: [r] has been
    ticked, or stepped over, or is still to come. *)
Definition tick_done (t : Z) (w : World) (l1 : list jobref) (r : jobref)
    (kept : list jobref) (w' : World) : Prop :=
  exists j j' evs,
    heap w !! r = Some j /\ Job_ticked t j = Some (j', evs) /\ heap w' !! r = Some j' /\
    if decide (Job.status j' = ENDED) then r ∉ kept
    else exists k1 k2, kept = k1 ++ r :: k2 /\ (length k1 <= length l1)%nat.

Definition skip_done (t : Z) (w : World) (l1 : list jobref) (r : jobref)
    (kept : list jobref) (w' : World) : Prop :=
  heap w' !! r = heap w !! r /\
  (exists k1 k2, kept = k1 ++ r :: k2 /\ (length k1 < length l1)%nat) /\
  (exists l0 p, l1 = l0 ++ [p] /\ ends_at t w p).

Definition progress_inv (t : Z) (w : World) (l1 : list jobref) (r : jobref)
    (kept rest : list jobref) (w' : World) : Prop :=
  running_jobs w' = kept ++ rest /\
  Inv w' /\
  (forall y, y ∈ rest -> heap w' !! y = heap w !! y) /\
  (exists pre, running_jobs w = pre ++ rest) /\
  ((exists r1 r2, rest = r1 ++ r :: r2 /\ (length kept + length r1 <= length l1)%nat) \/
   ((r ∉ rest) /\ (tick_done t w l1 r kept w' \/ skip_done t w l1 r kept w'))).

(** An upper bound on the sweeps that still have to tick a running job
    before it ends. *)
Definition remaining (now : Z) (j : Job.t) : nat :=
  match Job.status j with
  | READY => S (Z.to_nat (Job.duration j))
  | RUNNING =>
      match Job.end_time j with
      | Some e => Z.to_nat (e - now + 1)
      | None => O
      end
  | _ => O
  end.

(** ** Checking a given state

    Well-formedness as a test that can be run. *)
Definition owns_b (w : World) (r : jobref) (i : mpref) : bool :=
  match midplanes w !! i with
  | Some m => bool_decide (MidPlane.status m = OCCUPIED)
              && bool_decide (MidPlane.job m = Some r)
  | None => false
  end.

Definition running_ok_b (w : World) (r : jobref) : bool :=
  match heap w !! r with
  | Some j =>
      (bool_decide (Job.status j = READY)
       || (bool_decide (Job.status j = RUNNING) && bool_decide (is_Some (Job.end_time j))))
      && bool_decide (NoDup (Job.midplanes j))
      && forallb (owns_b w r) (Job.midplanes j)
  | None => false
  end.

Definition well_formed (w : World) : bool :=
  bool_decide (length (midplanes w) = 96%nat)
  && bool_decide (NoDup (trace_jobs w ++ queue w ++ running_jobs w))
  && forallb (fun r => bool_decide (is_Some (heap w !! r)))
       (trace_jobs w ++ queue w ++ running_jobs w)
  && forallb (running_ok_b w) (running_jobs w).

(** ** Sample runs *)

(** Scenario A on Mira's pool: one job, one midplane, three ticks. *)
Definition scenario_A : World := initial [Job.init "A" 0 3 512 "0"].

(** Two one-midplane jobs submitted together; [A], popped first, runs for two
    ticks and [B] for one. *)
Definition two_jobs : World :=
  initial [Job.init "B" 0 1 512 "0"; Job.init "A" 0 2 512 "0"].

(** One job that asks for one node more than the pool has. *)
Definition one_node_too_many : World := initial [Job.init "X" 0 0 49153 "0"].

(** One job with a negative node count. *)
Definition negative_request : World := initial [Job.init "N" 0 1 (-1) "0"].

(** A 513-node job at the head of the queue of the idle machine. *)
Definition one_node_over_a_midplane : World :=
  state_of (arrivals 1 (initial [Job.init "D" 0 2 513 "0"])).

(** Scenario A when the scheduler is called in the first round. *)
Definition scenario_A_arrived : World := state_of (arrivals 1 scenario_A).

(** A job holding all ninety-six midplanes, a five-node job that arrives one
    tick later, and the state in which the scheduler meets the second one. *)
Definition full_machine : World :=
  initial [Job.init "S" 1 2 5 "0"; Job.init "L" 0 10 49152 "0"].
Definition full_machine_arrived : World :=
  state_of ((tick;; arrivals 1) full_machine).

(** Two jobs that need more than half of the machine each, and a one-node
    job behind them: the state after the first round, with the first big job
    running and the second at the head of the queue. *)
Definition blocked_queue : World :=
  state_of (tick
    (initial [Job.init "small" 0 1 1 "0"; Job.init "big2" 0 5 25088 "0";
              Job.init "big1" 0 5 25088 "0"])).

(** ** The pool and the running jobs

    What a midplane looks like between two statements of the main loop:
    pristine, or held by a running job that lists it. *)

Definition MidPlane_clean (m : MidPlane.t) : Prop :=
  MidPlane.status m = VACANT /\ MidPlane.job m = None /\
  forall nd, nd ∈ MidPlane.nodes m -> Node.job nd = None.

Definition MidPlane_held (w : World) (i : mpref) (m : MidPlane.t) : Prop :=
  exists r j,
    MidPlane.status m = OCCUPIED /\ MidPlane.job m = Some r /\
    (forall nd, nd ∈ MidPlane.nodes m -> Node.job nd = Some r) /\
    r ∈ running_jobs w /\ heap w !! r = Some j /\ i ∈ Job.midplanes j.

Definition pool_ok (w : World) : Prop :=
  forall i m, midplanes w !! i = Some m ->
    MidPlane.name m = str i /\ length (MidPlane.nodes m) = 512%nat /\
    (MidPlane_clean m \/ MidPlane_held w i m).

(** ** The life of a job *)

(** Where a job is, by its status. *)
Definition Job_placed (w : World) (r : jobref) (j : Job.t) : Prop :=
  match Job.status j with
  | CREATED => r ∈ trace_jobs w
  | QUEUED => r ∈ queue w
  | READY | RUNNING => r ∈ running_jobs w
  | ENDED => r ∉ trace_jobs w ++ queue w ++ running_jobs w
  end.

(** What the time stamps of a job are, by its status, at wallclock [now]. *)
Definition Job_timed (now : Z) (j : Job.t) : Prop :=
  match Job.status j with
  | CREATED => True
  | QUEUED | READY => Job.submitted_time j <= now
  | RUNNING =>
      exists s, Job.start_time j = Some s /\
                Job.end_time j = Some (s + Job.duration j) /\
                Job.submitted_time j <= s /\ s <= now
  | ENDED =>
      exists s e, Job.start_time j = Some s /\ Job.end_time j = Some e /\
                  Job.submitted_time j <= s /\ s <= e /\
                  s + Job.duration j <= e /\ e <= now
  end.

(** The midplanes an admitted job has, and keeps when it has ended. *)
Definition Job_served (j : Job.t) : Prop :=
  match Job.status j with
  | READY | RUNNING | ENDED =>
      Z.of_nat (length (Job.midplanes j)) = requested_midplanes j
  | _ => True
  end.

Definition lifecycle (w : World) : Prop :=
  forall r j, heap w !! r = Some j ->
    Job_placed w r j /\ Job_timed (simulated_wallclock w) j /\ Job_served j.

(** ** Jobs on their way *)

(** The jobs the main loop still waits for. *)
Definition pending (w : World) : list jobref :=
  trace_jobs w ++ queue w ++ running_jobs w.

(** Jobs only move from the trace to the queue, from the queue to the
    running jobs, and from there out. *)
Definition flow (w w' : World) : Prop :=
  (forall r, r ∈ trace_jobs w' -> r ∈ trace_jobs w) /\
  (forall r, r ∈ queue w' -> r ∈ trace_jobs w \/ r ∈ queue w) /\
  (forall r, r ∈ running_jobs w' -> r ∈ pending w).

(** Every job asks for a number of midplanes the pool can ever give. *)
Definition fits (w : World) : Prop :=
  forall r j, heap w !! r = Some j -> 0 <= requested_midplanes j <= 96.

(** The states of a simulation that is fed a sorted trace of jobs that
    fit. *)
Definition good (w : World) : Prop :=
  Inv w /\ feed_ordered w /\ feed_in_time w /\ pool_ok w /\ fits w.

(** ** The midplanes of an admitted job *)

(** A job the scheduler has admitted: it is [READY], [RUNNING] or [ENDED]. *)
Definition Job_is_admitted (j : Job.t) : Prop :=
  Job.status j = READY \/ Job.status j = RUNNING \/ Job.status j = ENDED.

(** Job [r] has been admitted and lists the midplanes [mps]. *)
Definition holds (r : jobref) (mps : list mpref) (w : World) : Prop :=
  lifecycle w /\
  exists j, heap w !! r = Some j /\ Job_is_admitted j /\ Job.midplanes j = mps.

(** ** Sorted traces *)

(** Latest submission first. *)
Fixpoint latest_first (l : list Job.t) : Prop :=
  match l with
  | [] => True
  | x :: l' =>
      (forall y, y ∈ l' -> Job.submitted_time y <= Job.submitted_time x) /\
      latest_first l'
  end.

(** ** Jobs that never run *)

(** A job that is never admitted: it asks for a negative number of
    midplanes, or for more than the pool has. *)
Definition unfit (w : World) (b : jobref) : Prop :=
  exists j, heap w !! b = Some j /\
            (requested_midplanes j < 0 \/ 96 < requested_midplanes j).

(** The last job of the trace should have arrived already. *)
Definition overdue (w : World) (r : jobref) : Prop :=
  last (trace_jobs w) = Some r /\
  exists a, arrival w r = Some a /\ a < simulated_wallclock w.

(** ** A sample trace file *)

(** Two rows with the same submission time; the parser makes the jobs of
    [two_jobs] of them. *)
Definition two_rows : list Row.t :=
  [Row.mk "B" 1700000000 1700000060 1700000061 512 "0";
   Row.mk "A" 1700000000 1700000030 1700000032 512 "0"].

(** ** The fate of a running job in one sweep *)

(** A job is due at [t] when a tick at [t] ends it. *)
Definition due (t : Z) (w : World) (r : jobref) : bool :=
  match heap w !! r with
  | Some j =>
      match Job_ticked t j with
      | Some (j', _) => bool_decide (Job.status j' = ENDED)
      | None => false
      end
  | None => false
  end.

Inductive Fate := Ticked | Ended | SteppedOver.

(** What the [for] loop of [jobs_tick] does with the jobs of the list it
    starts with, in order: a job is ticked, and ends if it is due; the job
    right behind one that ended slides under the iterator's index and is
    stepped over ([skip] says whether the job before the list ended). *)
Fixpoint fates (due : jobref -> bool) (skip : bool) (l : list jobref)
    : list (jobref * Fate) :=
  match l with
  | [] => []
  | x :: rest =>
      if skip then (x, SteppedOver) :: fates due false rest
      else if due x then (x, Ended) :: fates due true rest
      else (x, Ticked) :: fates due false rest
  end.

(** Whether the job right behind the list [l] is stepped over. *)
Fixpoint skip_after (due : jobref -> bool) (skip : bool) (l : list jobref) : bool :=
  match l with
  | [] => skip
  | x :: rest => skip_after due (if skip then false else due x) rest
  end.

(** The jobs still in the list after the sweep, and the jobs that ended. *)
Definition survivors (F : list (jobref * Fate)) : list jobref :=
  omap (fun rf => match snd rf with Ended => None | _ => Some (fst rf) end) F.
Definition ended (F : list (jobref * Fate)) : list jobref :=
  omap (fun rf => match snd rf with Ended => Some (fst rf) | _ => None end) F.

(** The midplanes of a list of jobs, one job after the other. *)
Fixpoint released (w : World) (rs : list jobref) : list mpref :=
  match rs with
  | [] => []
  | r :: rs' =>
      match heap w !! r with Some j => Job.midplanes j | None => [] end
      ++ released w rs'
  end.

(** What the sweep at [t] from state [w] has done to job [r] when it is
    over, in state [w']. *)
Definition fate_done (t : Z) (w w' : World) (r : jobref) (f : Fate) : Prop :=
  match f with
  | SteppedOver => heap w' !! r = heap w !! r
  | _ => exists j j' evs,
           heap w !! r = Some j /\ Job_ticked t j = Some (j', evs) /\
           heap w' !! r = Some j' /\ (Job.status j' = ENDED <-> f = Ended)
  end.

(** The state of the sweep when the iterator stands between [kept] and
    [rest]: the fates of the jobs before [rest] are settled. *)
Definition fates_inv (t : Z) (w : World) (kept rest : list jobref) (w' : World)
    : Prop :=
  running_jobs w' = kept ++ rest /\ Inv w' /\
  exists F,
    fates (due t w) false (running_jobs w) = F ++ fates (due t w) false rest /\
    running_jobs w = (fst <$> F) ++ rest /\
    kept = survivors F /\
    midplanes w' = free_all (released w (ended F)) (midplanes w) /\
    (forall r f, (r, f) ∈ F -> fate_done t w w' r f) /\
    (forall r, r ∉ (fst <$> F) -> heap w' !! r = heap w !! r).

(** A job that arrives when the only running job ends: [A] runs from tick 0
    to tick 1, [B] arrives at tick 1. *)
Definition handover : World :=
  initial [Job.init "B" 1 5 512 "0"; Job.init "A" 0 1 512 "0"].

(** * Proofs *)

(** ** Running the monad *)

Lemma bind_Ok {A B} (c : M A) (f : A -> M B) w a w' :
  c w = Ok a w' -> bind c f w = f a w'.
Proof. unfold bind. by intros ->. Qed.

Lemma bind_Raise {A B} (c : M A) (f : A -> M B) w e w' :
  c w = Raise e w' -> bind c f w = Raise e w'.
Proof. unfold bind. by intros ->. Qed.

Lemma bind_Ok_inv {A B} (c : M A) (f : A -> M B) w b w'' :
  bind c f w = Ok b w'' -> exists a w', c w = Ok a w' /\ f a w' = Ok b w''.
Proof. unfold bind. destruct (c w) as [a w'|]; [eauto | done]. Qed.

Lemma bind_gets {A B} (f : World -> A) (k : A -> M B) w :
  bind (gets f) k w = k (f w) w.
Proof. done. Qed.

Lemma bind_ret {A B} (a : A) (k : A -> M B) w : bind (ret a) k w = k a w.
Proof. done. Qed.

Lemma bind_modify {B} (f : World -> World) (k : unit -> M B) w :
  bind (modify f) k w = k tt (f w).
Proof. done. Qed.

Lemma bind_assoc {A B C} (c : M A) (f : A -> M B) (g : B -> M C) w :
  bind (bind c f) g w = bind c (fun a => bind (f a) g) w.
Proof. unfold bind. by destruct (c w). Qed.

Lemma deref_Some w r j : heap w !! r = Some j -> deref r w = Ok j w.
Proof. unfold deref. by intros ->. Qed.

Lemma deref_mp_Some w i m : midplanes w !! i = Some m -> deref_mp i w = Ok m w.
Proof. unfold deref_mp. by intros ->. Qed.

Lemma update_job_Some w r f j :
  heap w !! r = Some j -> update_job r f w = Ok tt (with_job r (f j) [] w).
Proof.
  intros H. unfold update_job. rewrite (bind_Ok _ _ _ _ _ (deref_Some _ _ _ H)).
  unfold modify, with_job. by rewrite app_nil_r; destruct w.
Qed.

Lemma update_mp_Some w i f m :
  midplanes w !! i = Some m -> update_mp i f w = Ok tt (with_mp i (f m) [] w).
Proof.
  intros H. unfold update_mp. rewrite (bind_Ok _ _ _ _ _ (deref_mp_Some _ _ _ H)).
  unfold modify, with_mp. by rewrite app_nil_r; destruct w.
Qed.

Lemma heap_with_job w r j evs : heap (with_job r j evs w) = <[r := j]> (heap w).
Proof. done. Qed.

Lemma lookup_with_job w r j j0 evs :
  heap w !! r = Some j0 -> heap (with_job r j evs w) !! r = Some j.
Proof. intros H. apply list_lookup_insert_eq. by eapply lookup_lt_Some. Qed.

Lemma lookup_with_job_ne w r r' j evs :
  r <> r' -> heap (with_job r j evs w) !! r' = heap w !! r'.
Proof. intros H. by apply list_lookup_insert_ne. Qed.

Lemma with_job_with_job w r j1 j2 ev1 ev2 :
  with_job r j2 ev2 (with_job r j1 ev1 w) = with_job r j2 (ev1 ++ ev2) w.
Proof. unfold with_job; simpl. by rewrite list_insert_insert_eq, app_assoc. Qed.

Lemma with_job_id w r j : heap w !! r = Some j -> with_job r j [] w = w.
Proof.
  intros H. unfold with_job. rewrite app_nil_r, list_insert_id by done. by destruct w.
Qed.

Lemma logging_with_job w r j evs ev :
  logging ev (with_job r j evs w) = Ok tt (with_job r j (evs ++ [ev]) w).
Proof. unfold logging, modify, with_job; simpl. by rewrite app_assoc. Qed.

Lemma with_mp_id w i m evs :
  midplanes w !! i = Some m -> with_mp i m evs w = set_log (log w ++ evs) w.
Proof. intros H. unfold with_mp. rewrite list_insert_id by done. by destruct w. Qed.

Lemma when_logging_mp w i m (b : bool) ev :
  midplanes w !! i = Some m ->
  when b (logging ev) w = Ok tt (with_mp i m (if b then [ev] else []) w).
Proof.
  intros H. rewrite (with_mp_id _ _ _ _ H). destruct b; [done|].
  simpl. unfold ret. by rewrite app_nil_r; destruct w.
Qed.

Lemma lookup_with_mp w i m m0 evs :
  midplanes w !! i = Some m0 -> midplanes (with_mp i m evs w) !! i = Some m.
Proof. intros H. apply list_lookup_insert_eq. by eapply lookup_lt_Some. Qed.

Lemma lookup_with_mp_ne w i i' m evs :
  i <> i' -> midplanes (with_mp i m evs w) !! i' = midplanes w !! i'.
Proof. intros H. by apply list_lookup_insert_ne. Qed.

Lemma with_mp_with_mp w i m1 m2 ev1 ev2 :
  with_mp i m2 ev2 (with_mp i m1 ev1 w) = with_mp i m2 (ev1 ++ ev2) w.
Proof. unfold with_mp; simpl. by rewrite list_insert_insert_eq, app_assoc. Qed.

Lemma logging_with_mp w i m evs ev :
  logging ev (with_mp i m evs w) = Ok tt (with_mp i m (evs ++ [ev]) w).
Proof. unfold logging, modify, with_mp; simpl. by rewrite app_assoc. Qed.

(** Symbolic execution of a sequence of updates of one job, or of one
    midplane. *)
Ltac run_job H :=
  repeat first
    [ erewrite bind_Ok by (apply update_job_Some; first [exact H | eapply lookup_with_job, H])
    | erewrite bind_Ok by (apply deref_Some; first [exact H | eapply lookup_with_job, H])
    | rewrite bind_gets
    | rewrite bind_ret
    | erewrite bind_Ok by apply logging_with_job
    | erewrite update_job_Some by (first [exact H | eapply lookup_with_job, H])
    | rewrite with_job_with_job
    | rewrite logging_with_job ];
  simpl.

Ltac run_mp H :=
  repeat first
    [ erewrite bind_Ok by (apply update_mp_Some; first [exact H | eapply lookup_with_mp, H])
    | erewrite bind_Ok by (apply deref_mp_Some; first [exact H | eapply lookup_with_mp, H])
    | rewrite bind_gets
    | rewrite bind_ret
    | erewrite bind_Ok by apply logging_with_mp
    | erewrite update_mp_Some by (first [exact H | eapply lookup_with_mp, H])
    | rewrite with_mp_with_mp
    | rewrite logging_with_mp ];
  simpl.

(** ** class Job, method by method *)

Lemma Job_submit_spec w r j t :
  heap w !! r = Some j ->
  Job_submit r t w = Ok tt (with_job r (Job_submitted t j) [JobSubmitted (Job.name j) t] w).
Proof. intros H. unfold Job_submit. by run_job H. Qed.

Lemma Job_start_spec w r j t :
  heap w !! r = Some j ->
  Job_start r t w =
  Ok tt (with_job r (Job_started t j) [JobStarted (Job.name j) t (t + Job.duration j)] w).
Proof. intros H. unfold Job_start. by run_job H. Qed.

Lemma Job_end_spec w r j t :
  heap w !! r = Some j ->
  Job_end r t w = Ok tt (with_job r (Job_ended t j) [JobStopped (Job.name j) t] w).
Proof. intros H. unfold Job_end. by run_job H. Qed.

Lemma Job_ready_spec w r j :
  heap w !! r = Some j ->
  Job_ready r w = Ok tt (with_job r (Job.set_status READY j) [JobReady (Job.name j)] w).
Proof. intros H. unfold Job_ready. by run_job H. Qed.

Lemma Job_assign_midplanes_spec w r j mps :
  heap w !! r = Some j ->
  Job_assign_midplanes r mps w =
  Ok tt (with_job r (Job.set_midplanes mps j)
           [JobAssigned (Job.name j) (joined_names (midplanes w) mps)] w).
Proof. intros H. unfold Job_assign_midplanes. by run_job H. Qed.

Lemma Job_is_ended_spec w r j :
  heap w !! r = Some j ->
  Job_is_ended r w = Ok (bool_decide (Job.status j = ENDED)) w.
Proof. intros H. unfold Job_is_ended. by run_job H. Qed.

Lemma Job_tick_spec w r j t j' evs :
  heap w !! r = Some j ->
  Job_ticked t j = Some (j', evs) ->
  Job_tick r t w = Ok tt (with_job r j' evs w).
Proof.
  intros H Ht. unfold Job_tick, Job_ticked in *. run_job H.
  destruct (bool_decide (Job.status j = READY)); simpl in *.
  - rewrite (bind_Ok _ _ _ _ _ (Job_start_spec _ _ _ _ H)). run_job H.
    destruct (_ + _ <=? t); simplify_eq; simpl.
    + rewrite (Job_end_spec _ _ (Job_started t j)) by (eapply lookup_with_job, H).
      by rewrite with_job_with_job.
    + done.
  - unfold ret at 1. run_job H.
    destruct (bool_decide (Job.status j = RUNNING)); simpl in *.
    + destruct (Job.end_time j) as [e|]; [|done].
      destruct (e <=? t); simplify_eq; simpl.
      * by rewrite (Job_end_spec _ _ _ _ H).
      * unfold ret. by rewrite with_job_id.
    + simplify_eq. unfold ret. by rewrite with_job_id.
Qed.

Lemma Job_tick_TypeError w r j t :
  heap w !! r = Some j ->
  Job_ticked t j = None ->
  Job_tick r t w = Raise TypeError w.
Proof.
  intros H Ht. unfold Job_tick, Job_ticked in *. run_job H.
  destruct (bool_decide (Job.status j = READY)) eqn:E; simpl in *.
  - by destruct (_ + _ <=? t).
  - unfold ret at 1. run_job H.
    destruct (bool_decide (Job.status j = RUNNING)); simpl in *; [|done].
    destruct (Job.end_time j) as [e|]; [|done]. by destruct (e <=? t).
Qed.

(** ** class MidPlane, method by method *)

Lemma MidPlane_assign_job_spec w i m r j :
  midplanes w !! i = Some m ->
  heap w !! r = Some j ->
  MidPlane_assign_job i r w =
  Ok tt (with_mp i (MidPlane_occupied r m)
           [MidplaneAssigned (MidPlane.name m) (Job.name j)] w).
Proof.
  intros Hm Hj. unfold MidPlane_assign_job. run_mp Hm.
  erewrite bind_Ok by (apply deref_Some; exact Hj). run_mp Hm.
  by rewrite ?app_nil_r.
Qed.

Lemma MidPlane_free_up_spec w i m r j :
  midplanes w !! i = Some m ->
  MidPlane.job m = Some r ->
  heap w !! r = Some j ->
  MidPlane_free_up i w =
  Ok tt (with_mp i (MidPlane_freed m)
           ((if MidPlane.is_vacant m then [MidplaneFreeAgain (MidPlane.name m)] else [])
            ++ [MidplaneFreed (MidPlane.name m) (Job.name j)]) w).
Proof.
  intros Hm Hr Hj. unfold MidPlane_free_up, MidPlane_is_vacant.
  rewrite bind_assoc. run_mp Hm.
  erewrite bind_Ok by (apply when_logging_mp, Hm). run_mp Hm.
  rewrite Hr; simpl. rewrite bind_assoc.
  erewrite bind_Ok by (apply deref_Some; exact Hj). run_mp Hm.
  by rewrite ?app_nil_r.
Qed.

(** ** The allocation search *)

Lemma vacant_from_spec i mps e :
  e ∈ vacant_from i mps <->
  exists m, (i <= e)%nat /\ mps !! (e - i)%nat = Some m /\ MidPlane.status m = VACANT.
Proof.
  revert i. induction mps as [|mp rest IH]; intros i; simpl.
  - split; [by intros ?%elem_of_nil | by intros (m & _ & ? & _)].
  - assert (Hrest : e ∈ vacant_from (S i) rest <->
      exists m, (i < e)%nat /\ (mp :: rest) !! (e - i)%nat = Some m
                /\ MidPlane.status m = VACANT).
    { rewrite IH. split; intros (m & Hle & Hm & Hv); exists m; split_and!; try done; try lia.
      - by replace (e - i)%nat with (S (e - S i)) by lia.
      - by replace (e - i)%nat with (S (e - S i)) in Hm by lia. }
    unfold MidPlane.is_vacant. case_bool_decide as Hmp.
    + rewrite elem_of_cons, Hrest. split.
      * intros [->|(m & ? & ? & ?)]; [|exists m; split_and!; try done; lia].
        exists mp. by rewrite Nat.sub_diag.
      * intros (m & Hle & Hm & Hv). destruct (decide (e = i)) as [->|]; [by left|].
        right. exists m. split_and!; try done; lia.
    + rewrite Hrest. split; intros (m & Hle & Hm & Hv); exists m; split_and!; try done; try lia.
      destruct (decide (e = i)) as [->|]; [|lia].
      rewrite Nat.sub_diag in Hm. simpl in Hm. by simplify_eq.
Qed.

Lemma vacant_from_lower i mps e : e ∈ vacant_from i mps -> (i <= e)%nat.
Proof. rewrite vacant_from_spec. by intros (m & ? & _). Qed.

Lemma vacant_from_NoDup i mps : NoDup (vacant_from i mps).
Proof.
  revert i. induction mps as [|mp rest IH]; intros i; simpl; [constructor|].
  destruct (MidPlane.is_vacant mp); [|done].
  constructor; [|done]. intros H%vacant_from_lower. lia.
Qed.

Lemma vacant_from_length i mps : (length (vacant_from i mps) <= length mps)%nat.
Proof.
  revert i. induction mps as [|mp rest IH]; intros i; simpl; [done|].
  specialize (IH (S i)). destruct (MidPlane.is_vacant mp); simpl; lia.
Qed.

Lemma vacant_indices_spec pool e :
  e ∈ vacant_indices pool <->
  exists m, pool !! e = Some m /\ MidPlane.status m = VACANT.
Proof.
  unfold vacant_indices. rewrite vacant_from_spec, Nat.sub_0_r.
  split; intros (m & H); exists m; [tauto | split; [lia | tauto]].
Qed.

(** The search returns the first [wanted] vacant midplanes, or all of them
    when there are fewer or when [wanted] is negative. *)
Lemma find_vacant_spec wanted i mps acc :
  find_vacant wanted i mps acc =
  if bool_decide (Z.of_nat (length acc) <= wanted)
  then acc ++ take (Z.to_nat (wanted - Z.of_nat (length acc))) (vacant_from i mps)
  else acc ++ vacant_from i mps.
Proof.
  revert i acc. induction mps as [|mp rest IH]; intros i acc; simpl.
  - rewrite take_nil, app_nil_r. by case_bool_decide.
  - case_bool_decide as Heq.
    + rewrite bool_decide_true by lia.
      replace (wanted - Z.of_nat (length acc)) with 0 by lia.
      simpl. by rewrite app_nil_r.
    + destruct (MidPlane.is_vacant mp); rewrite IH; [|done].
      rewrite length_app; simpl. rewrite <- !app_assoc; simpl.
      case_bool_decide; case_bool_decide; try lia; [|done].
      replace (Z.to_nat (wanted - Z.of_nat (length acc)))
        with (S (Z.to_nat (wanted - Z.of_nat (length acc + 1)))) by lia.
      done.
Qed.

Lemma find_vacant_top wanted pool :
  find_vacant wanted 0%nat pool [] =
  if bool_decide (0 <= wanted) then take (Z.to_nat wanted) (vacant_indices pool)
  else vacant_indices pool.
Proof.
  rewrite find_vacant_spec; simpl. unfold vacant_indices.
  by rewrite Z.sub_0_r.
Qed.

(** The admission test of [schedule] succeeds exactly when the pool has at
    least the wanted number of vacant midplanes (and that number is not
    negative). *)
Lemma find_vacant_enough wanted pool :
  Z.of_nat (length (find_vacant wanted 0%nat pool [])) = wanted <->
  0 <= wanted <= Z.of_nat (length (vacant_indices pool)).
Proof.
  rewrite find_vacant_top. case_bool_decide.
  - rewrite length_take. lia.
  - lia.
Qed.

Lemma find_vacant_elem wanted pool e :
  e ∈ find_vacant wanted 0%nat pool [] ->
  exists m, pool !! e = Some m /\ MidPlane.status m = VACANT.
Proof.
  rewrite find_vacant_top, <- vacant_indices_spec.
  case_bool_decide; [|done]. apply (subseteq_take (Z.to_nat wanted)).
Qed.

Lemma find_vacant_NoDup wanted pool : NoDup (find_vacant wanted 0%nat pool []).
Proof.
  rewrite find_vacant_top. case_bool_decide.
  - eapply sublist_NoDup; [apply vacant_from_NoDup | apply sublist_take].
  - apply vacant_from_NoDup.
Qed.

Lemma find_vacant_length wanted pool :
  (length (find_vacant wanted 0%nat pool []) <= length pool)%nat.
Proof.
  rewrite find_vacant_top. pose proof (vacant_from_length 0%nat pool) as H.
  unfold vacant_indices. case_bool_decide; [rewrite length_take|]; lia.
Qed.

(** ** The scheduler *)

Lemma alter_lookup_insert {A} (f : A -> A) (l : list A) i x :
  l !! i = Some x -> alter f i l = <[i := f x]> l.
Proof.
  revert i. induction l as [|y l IH]; intros [|i] H; simplify_eq/=; [done|].
  f_equal. by apply IH.
Qed.

Lemma occupy_all_length r mps pool : length (occupy_all r mps pool) = length pool.
Proof.
  revert pool. induction mps as [|i mps IH]; intros pool; simpl; [done|].
  unfold occupy_all in *. simpl. by rewrite IH, length_alter.
Qed.

Lemma occupy_all_lookup_ne r mps pool i :
  i ∉ mps -> occupy_all r mps pool !! i = pool !! i.
Proof.
  revert pool. induction mps as [|i' mps IH]; intros pool Hi; [done|].
  apply not_elem_of_cons in Hi as [Hne Hi].
  unfold occupy_all in *; simpl. rewrite IH by done. by apply list_lookup_alter_ne.
Qed.

Lemma occupy_all_lookup r mps pool i m :
  i ∈ mps -> pool !! i = Some m ->
  exists m', occupy_all r mps pool !! i = Some m' /\
    MidPlane.status m' = OCCUPIED /\ MidPlane.job m' = Some r /\
    MidPlane.name m' = MidPlane.name m /\
    MidPlane.nodes m' = Node.assign_job r <$> MidPlane.nodes m.
Proof.
  revert pool m. induction mps as [|i' mps IH]; intros pool m Hi Hm.
  { by apply elem_of_nil in Hi. }
  unfold occupy_all in *; simpl.
  destruct (decide (i ∈ mps)) as [Hin|Hnin].
  - destruct (decide (i' = i)) as [->|Hne].
    + assert (Ha : alter (MidPlane_occupied r) i pool !! i = Some (MidPlane_occupied r m))
        by (by rewrite list_lookup_alter_eq, Hm).
      destruct (IH _ _ Hin Ha) as (m' & ? & ? & ? & ? & Hn).
      exists m'. split_and!; try done. rewrite Hn. simpl.
      rewrite <- list_fmap_compose. by apply list_fmap_ext.
    + apply IH; [done|]. by rewrite list_lookup_alter_ne.
  - apply elem_of_cons in Hi as [->|]; [|done].
    pose proof (occupy_all_lookup_ne r mps (alter (MidPlane_occupied r) i' pool) i' Hnin) as E.
    unfold occupy_all in E. rewrite E, list_lookup_alter_eq, Hm. simpl.
    by exists (MidPlane_occupied r m).
Qed.

Lemma assign_all_spec r j mps w :
  heap w !! r = Some j ->
  (forall i, i ∈ mps -> is_Some (midplanes w !! i)) ->
  exists evs,
    for_each (fun mp => MidPlane_assign_job mp r) mps w =
    Ok tt (set_log (log w ++ evs) (set_midplanes (occupy_all r mps (midplanes w)) w)).
Proof.
  revert w. induction mps as [|i mps IH]; intros w Hj Hmps; simpl.
  - exists []. unfold ret. by rewrite app_nil_r; destruct w.
  - destruct (Hmps i) as [m Hm]; [by left|].
    rewrite (bind_Ok _ _ _ _ _ (MidPlane_assign_job_spec _ _ _ _ _ Hm Hj)).
    destruct (IH (with_mp i (MidPlane_occupied r m)
                    [MidplaneAssigned (MidPlane.name m) (Job.name j)] w)) as [evs ->].
    + done.
    + intros i' Hi'. simpl. apply lookup_lt_is_Some. rewrite length_insert.
      apply lookup_lt_is_Some, Hmps. by right.
    + eexists. unfold occupy_all, with_mp; simpl.
      rewrite (alter_lookup_insert _ _ _ _ Hm). by rewrite <- app_assoc.
Qed.

Lemma Mira_schedule_empty w : queue w = [] -> Mira_schedule w = Ok tt w.
Proof. intros H. unfold Mira_schedule, Queue_is_empty. rewrite bind_assoc, bind_gets, H. done. Qed.

(** A head-of-queue job the pool cannot serve: nothing at all changes. *)
Lemma Mira_schedule_blocked w r q j :
  queue w = r :: q ->
  heap w !! r = Some j ->
  Z.of_nat (length (find_vacant (requested_midplanes j) 0%nat (midplanes w) []))
    <> requested_midplanes j ->
  Mira_schedule w = Ok tt w.
Proof.
  intros Hq Hj Hne. unfold Mira_schedule, Queue_is_empty, Queue_peek.
  rewrite bind_assoc, bind_gets, Hq, bind_ret. simpl.
  rewrite bind_assoc, bind_gets, Hq, bind_ret.
  rewrite (bind_Ok _ _ _ _ _ (deref_Some _ _ _ Hj)), bind_gets.
  fold (requested_midplanes j). by rewrite bool_decide_false.
Qed.

(** A head-of-queue job the pool can serve: it leaves the queue, gets the
    midplanes found, is made [READY] and joins the running jobs. *)
Lemma Mira_schedule_admits w r q j :
  queue w = r :: q ->
  heap w !! r = Some j ->
  Z.of_nat (length (find_vacant (requested_midplanes j) 0%nat (midplanes w) []))
    = requested_midplanes j ->
  exists evs,
    Mira_schedule w =
    Ok tt (admitted_world r j (find_vacant (requested_midplanes j) 0%nat (midplanes w) [])
             evs w).
Proof.
  intros Hq Hj Heq. unfold Mira_schedule, Queue_is_empty, Queue_peek, Queue_dequeue.
  rewrite bind_assoc, bind_gets, Hq, bind_ret. simpl.
  rewrite bind_assoc, bind_gets, Hq, bind_ret.
  rewrite (bind_Ok _ _ _ _ _ (deref_Some _ _ _ Hj)), bind_gets.
  fold (requested_midplanes j). rewrite bool_decide_true by done.
  set (vac := find_vacant _ _ _ _) in *.
  unfold logging at 1. rewrite bind_modify, bind_assoc, bind_gets. simpl.
  rewrite Hq, bind_assoc, bind_modify, bind_ret.
  set (w1 := set_queue q _).
  assert (Hj1 : heap w1 !! r = Some j) by done.
  rewrite (bind_Ok _ _ _ _ _ (Job_assign_midplanes_spec _ _ _ vac Hj1)).
  set (w2 := with_job r _ _ w1).
  assert (Hj2 : heap w2 !! r = Some (Job.set_midplanes vac j)).
  { by apply (lookup_with_job w1 r _ j). }
  destruct (assign_all_spec r _ vac w2 Hj2) as [evs Hall].
  { intros i Hi. destruct (find_vacant_elem _ _ _ Hi) as (m & Hm & _). by exists m. }
  rewrite (bind_Ok _ _ _ _ _ Hall).
  set (w3 := set_log _ _).
  assert (Hj3 : heap w3 !! r = Some (Job.set_midplanes vac j)) by done.
  rewrite (bind_Ok _ _ _ _ _ (Job_ready_spec _ _ _ Hj3)).
  eexists. unfold modify, admitted_world. f_equal.
  subst w3 w2 w1. unfold with_job; simpl.
  rewrite Hq, !list_insert_insert_eq; simpl. f_equal.
  rewrite <- !app_assoc. reflexivity.
Qed.

(** ** Releasing midplanes *)

Lemma free_all_length mps pool : length (free_all mps pool) = length pool.
Proof.
  revert pool. induction mps as [|i mps IH]; intros pool; [done|].
  unfold free_all in *; simpl. by rewrite IH, length_alter.
Qed.

Lemma free_all_lookup_ne mps pool i : i ∉ mps -> free_all mps pool !! i = pool !! i.
Proof.
  revert pool. induction mps as [|i' mps IH]; intros pool Hi; [done|].
  apply not_elem_of_cons in Hi as [Hne Hi].
  unfold free_all in *; simpl. rewrite IH by done. by apply list_lookup_alter_ne.
Qed.

Lemma free_all_lookup mps pool i m :
  i ∈ mps -> pool !! i = Some m ->
  exists m', free_all mps pool !! i = Some m' /\
    MidPlane.status m' = VACANT /\ MidPlane.job m' = None.
Proof.
  revert pool m. induction mps as [|i' mps IH]; intros pool m Hi Hm.
  { by apply elem_of_nil in Hi. }
  unfold free_all in *; simpl.
  destruct (decide (i ∈ mps)) as [Hin|Hnin].
  - destruct (decide (i' = i)) as [->|Hne].
    + assert (Ha : alter MidPlane_freed i pool !! i = Some (MidPlane_freed m))
        by (by rewrite list_lookup_alter_eq, Hm).
      apply (IH _ _ Hin Ha).
    + apply (IH _ m Hin). by rewrite list_lookup_alter_ne.
  - apply elem_of_cons in Hi as [->|]; [|done].
    pose proof (free_all_lookup_ne mps (alter MidPlane_freed i' pool) i' Hnin) as E.
    unfold free_all in E. rewrite E, list_lookup_alter_eq, Hm. simpl.
    by exists (MidPlane_freed m).
Qed.

(** Releasing a list of distinct midplanes, each of which has an owner, goes
    through without an exception. *)
Lemma release_all_spec mps w :
  NoDup mps ->
  (forall i, i ∈ mps -> exists m r,
      midplanes w !! i = Some m /\ MidPlane.job m = Some r /\ is_Some (heap w !! r)) ->
  exists evs,
    for_each MidPlane_free_up mps w =
    Ok tt (set_log (log w ++ evs) (set_midplanes (free_all mps (midplanes w)) w)).
Proof.
  revert w. induction mps as [|i mps IH]; intros w Hnd Hmps; simpl.
  - exists []. unfold ret. by rewrite app_nil_r; destruct w.
  - apply NoDup_cons in Hnd as [Hi Hnd].
    destruct (Hmps i) as (m & r & Hm & Hr & [j Hj]); [by left|].
    rewrite (bind_Ok _ _ _ _ _ (MidPlane_free_up_spec _ _ _ _ _ Hm Hr Hj)).
    set (evs0 := _ ++ [MidplaneFreed _ _]).
    destruct (IH (with_mp i (MidPlane_freed m) evs0 w) Hnd) as [evs ->].
    + intros i' Hi'. destruct (Hmps i') as (m' & r' & Hm' & Hr' & Hj'); [by right|].
      exists m', r'. split_and!; try done.
      rewrite lookup_with_mp_ne; [done|]. by intros ->.
    + eexists. unfold free_all, with_mp; simpl.
      rewrite (alter_lookup_insert _ _ _ _ Hm). by rewrite <- app_assoc.
Qed.

(** ** [list.remove] *)

Lemma remove_first_app x l1 l2 :
  x ∉ l1 -> remove_first x (l1 ++ x :: l2) = Some (l1 ++ l2).
Proof.
  induction l1 as [|y l1 IH]; intros Hx; simpl.
  - by rewrite bool_decide_true.
  - apply not_elem_of_cons in Hx as [Hne Hx].
    rewrite bool_decide_false by done. by rewrite IH.
Qed.

Lemma remove_first_elem x l :
  x ∈ l -> exists l1 l2, l = l1 ++ x :: l2 /\ (x ∉ l1) /\ remove_first x l = Some (l1 ++ l2).
Proof.
  induction l as [|y l IH]; intros Hx.
  { by apply elem_of_nil in Hx. }
  destruct (decide (y = x)) as [->|Hne].
  - exists [], l. split_and!; [done | apply not_elem_of_nil |].
    simpl. by rewrite bool_decide_true.
  - apply elem_of_cons in Hx as [->|Hx]; [done|].
    destruct (IH Hx) as (l1 & l2 & -> & Hl1 & Hr).
    exists (y :: l1), l2. split_and!; [done | |].
    + apply not_elem_of_cons. split; [by intros -> | done].
    + simpl. rewrite bool_decide_false by done. by rewrite Hr.
Qed.

(** ** One tick of one job *)

Lemma Job_ticked_fields t j j' evs :
  Job_ticked t j = Some (j', evs) ->
  Job.midplanes j' = Job.midplanes j /\
  Job.num_of_requested_nodes j' = Job.num_of_requested_nodes j /\
  Job.duration j' = Job.duration j /\
  Job.name j' = Job.name j /\
  Job.submitted_time j' = Job.submitted_time j.
Proof.
  unfold Job_ticked. intros H.
  destruct (bool_decide (Job.status j = READY)); simpl in H.
  - destruct (_ <=? _); by simplify_eq.
  - destruct (bool_decide (Job.status j = RUNNING)); [|by simplify_eq].
    destruct (Job.end_time j) as [e|]; [|done].
    destruct (e <=? t); by simplify_eq.
Qed.

(** A [READY] job starts; it ends on the spot when its duration is not
    positive. *)
Lemma Job_ticked_READY t j :
  Job.status j = READY ->
  Job_ticked t j =
  if t + Job.duration j <=? t
  then Some (Job_ended t (Job_started t j),
             [JobStarted (Job.name j) t (t + Job.duration j); JobStopped (Job.name j) t])
  else Some (Job_started t j, [JobStarted (Job.name j) t (t + Job.duration j)]).
Proof. intros H. unfold Job_ticked. rewrite bool_decide_true by done. done. Qed.

(** A [RUNNING] job ends once the wallclock has reached its end time. *)
Lemma Job_ticked_RUNNING t j e :
  Job.status j = RUNNING ->
  Job.end_time j = Some e ->
  Job_ticked t j =
  if e <=? t then Some (Job_ended t j, [JobStopped (Job.name j) t]) else Some (j, []).
Proof.
  intros H He. unfold Job_ticked. rewrite bool_decide_false by (rewrite H; done).
  rewrite bool_decide_true by done. by rewrite He.
Qed.

(** Other jobs are left alone. *)
Lemma Job_ticked_idle t j :
  Job.status j <> READY -> Job.status j <> RUNNING -> Job_ticked t j = Some (j, []).
Proof. intros H1 H2. unfold Job_ticked. by rewrite !bool_decide_false. Qed.

Lemma Job_ticked_running t j :
  Job.status j = READY \/ (Job.status j = RUNNING /\ is_Some (Job.end_time j)) ->
  exists j' evs, Job_ticked t j = Some (j', evs) /\
    (Job.status j' = ENDED \/ (Job.status j' = RUNNING /\ is_Some (Job.end_time j'))).
Proof.
  intros [H|[H [e He]]].
  - rewrite Job_ticked_READY by done. destruct (_ <=? _); eexists _, _; split; try done.
    + by left.
    + right. split; [done | by eexists].
  - rewrite (Job_ticked_RUNNING _ _ e) by done.
    destruct (_ <=? _); eexists _, _; split; try done.
    + by left.
    + right. split; [done | by eexists].
Qed.

(** ** The body of the [jobs_tick] loop *)

(** The ticked job has not ended: only its own object and the log change. *)
Lemma jobs_tick_body_continues w r j j' evs t :
  heap w !! r = Some j ->
  Job_ticked t j = Some (j', evs) ->
  Job.status j' <> ENDED ->
  jobs_tick_body r t w = Ok tt (with_job r j' evs w).
Proof.
  intros Hj Ht Hne. unfold jobs_tick_body.
  rewrite (bind_Ok _ _ _ _ _ (Job_tick_spec _ _ _ _ _ _ Hj Ht)).
  rewrite (bind_Ok _ _ _ _ _ (Job_is_ended_spec _ _ j' (lookup_with_job _ _ _ _ _ Hj))).
  by rewrite bool_decide_false.
Qed.

(** The ticked job has ended: its midplanes are released and it leaves the
    running jobs. *)
Lemma jobs_tick_body_ends w r j j' evs t kept rest :
  heap w !! r = Some j ->
  Job_ticked t j = Some (j', evs) ->
  Job.status j' = ENDED ->
  NoDup (Job.midplanes j) ->
  (forall i, i ∈ Job.midplanes j -> owns w r i) ->
  running_jobs w = kept ++ r :: rest ->
  r ∉ kept ->
  exists evs', jobs_tick_body r t w = Ok tt (cleaned_world r j' (kept ++ rest) evs' w).
Proof.
  intros Hj Ht He Hnd Hown Hrj Hr. unfold jobs_tick_body.
  destruct (Job_ticked_fields _ _ _ _ Ht) as (Hmps & _).
  rewrite (bind_Ok _ _ _ _ _ (Job_tick_spec _ _ _ _ _ _ Hj Ht)).
  set (w1 := with_job r j' evs w).
  assert (Hj1 : heap w1 !! r = Some j') by (by eapply lookup_with_job).
  rewrite (bind_Ok _ _ _ _ _ (Job_is_ended_spec _ _ j' Hj1)).
  rewrite bool_decide_true by done. simpl.
  rewrite (bind_Ok _ _ _ _ _ (deref_Some _ _ _ Hj1)).
  unfold logging at 1. rewrite bind_modify.
  set (w2 := set_log _ w1).
  destruct (release_all_spec (Job.midplanes j') w2) as [evs2 Hrel].
  { by rewrite Hmps. }
  { intros i Hi. rewrite Hmps in Hi. destruct (Hown i Hi) as (m & Hm & _ & Hjob).
    exists m, r. by split_and!. }
  rewrite (bind_Ok _ _ _ _ _ Hrel).
  unfold running_jobs_remove. rewrite bind_gets. simpl.
  rewrite Hrj, (remove_first_app _ _ _ Hr).
  eexists. unfold modify, cleaned_world. f_equal. subst w2 w1. unfold with_job; simpl.
  f_equal. rewrite <- !app_assoc. reflexivity.
Qed.

(** ** The sweep over the running jobs

    The iterator index and the live list, put as a split of the list: the
    jobs before the index ([kept]) and the jobs from the index on ([rest]).
    Running the body on the head of [rest] either leaves the list alone, and
    the head joins [kept], or removes the head, and then the job next to it
    slides under the index and joins [kept] without being visited. *)
Section sweep.
Variable t : Z.
Variable I : list jobref -> list jobref -> World -> Prop.

Hypothesis I_running : forall kept rest w,
  I kept rest w -> running_jobs w = kept ++ rest.

Hypothesis I_step : forall kept x rest w,
  I kept (x :: rest) w ->
  exists w', jobs_tick_body x t w = Ok tt w' /\
    (I (kept ++ [x]) rest w' \/
     match rest with
     | [] => I kept [] w'
     | y :: rest' => I (kept ++ [y]) rest' w'
     end).

Lemma jobs_tick_loop_done fuel i w :
  running_jobs w !! i = None -> jobs_tick_loop fuel i t w = Ok tt w.
Proof. intros H. destruct fuel; simpl; by rewrite bind_gets, H. Qed.

Lemma jobs_tick_loop_sweep fuel kept rest w :
  I kept rest w ->
  (length rest <= fuel)%nat ->
  exists kept' w', jobs_tick_loop fuel (length kept) t w = Ok tt w' /\ I kept' [] w'.
Proof.
  revert kept rest w. induction fuel as [|fuel IH]; intros kept rest w HI Hfuel.
  - destruct rest; [|simpl in Hfuel; lia].
    exists kept, w. split; [|done]. apply jobs_tick_loop_done.
    rewrite (I_running _ _ _ HI), app_nil_r. by apply lookup_ge_None.
  - destruct rest as [|x rest].
    { exists kept, w. split; [|done]. apply jobs_tick_loop_done.
      rewrite (I_running _ _ _ HI), app_nil_r. by apply lookup_ge_None. }
    simpl. rewrite bind_gets, (I_running _ _ _ HI).
    rewrite list_lookup_middle by done.
    destruct (I_step _ _ _ _ HI) as (w' & Hbody & [HI'|HI']);
      rewrite (bind_Ok _ _ _ _ _ Hbody).
    + destruct (IH _ _ _ HI') as (kept' & w'' & Hloop & HI''); [simpl in Hfuel; lia|].
      rewrite length_app, Nat.add_1_r in Hloop. eauto.
    + destruct rest as [|y rest].
      * exists kept, w'. split; [|done]. apply jobs_tick_loop_done.
        rewrite (I_running _ _ _ HI'), app_nil_r. apply lookup_ge_None. lia.
      * destruct (IH _ _ _ HI') as (kept' & w'' & Hloop & HI''); [simpl in Hfuel; lia|].
        rewrite length_app, Nat.add_1_r in Hloop. eauto.
Qed.

(** [jobs_tick] brings enough fuel for the whole sweep. *)
Lemma Mira_jobs_tick_sweep w :
  I [] (running_jobs w) w ->
  exists kept' w', Mira_jobs_tick t w = Ok tt w' /\ I kept' [] w'.
Proof.
  intros HI. unfold Mira_jobs_tick. rewrite bind_gets.
  by apply (jobs_tick_loop_sweep _ [] (running_jobs w)).
Qed.
End sweep.

(** ** Well-formed states are kept well-formed *)

Lemma owns_inj w r r' i : owns w r i -> owns w r' i -> r = r'.
Proof. intros (m & Hm & _ & Hr) (m' & Hm' & _ & Hr'). congruence. Qed.

Lemma Inv_running_NoDup w : Inv w -> NoDup (running_jobs w).
Proof.
  intros HInv. pose proof (inv_nodup _ HInv) as Hn.
  apply NoDup_app in Hn as (_ & _ & Hn). by apply NoDup_app in Hn as (_ & _ & Hn).
Qed.

Lemma NoDup_middle {A} (kept rest : list A) x :
  NoDup (kept ++ x :: rest) -> (x ∉ kept) /\ (x ∉ rest).
Proof.
  intros (_ & Hk & [Hr _]%NoDup_cons)%NoDup_app. split; [|done].
  intros Hx. apply (Hk x Hx). by left.
Qed.

Lemma elem_of_middle {A} (kept rest : list A) x : x ∈ kept ++ x :: rest.
Proof. apply elem_of_app. right. by left. Qed.

Lemma Inv_with_job w r j j' evs :
  Inv w ->
  heap w !! r = Some j ->
  Job.midplanes j' = Job.midplanes j ->
  (r ∈ running_jobs w ->
   Job.status j' = READY \/ (Job.status j' = RUNNING /\ is_Some (Job.end_time j'))) ->
  Inv (with_job r j' evs w).
Proof.
  intros [Hpool Hnd Hrefs Hrun] Hj Hmps Hst. split; simpl; try done.
  - intros r' Hr'. apply lookup_lt_is_Some. rewrite length_insert.
    by apply lookup_lt_is_Some, Hrefs.
  - intros r' Hr'. destruct (Hrun r' Hr') as (j0 & Hj0 & Hs0 & Hnd0 & Hown0).
    destruct (decide (r' = r)) as [->|Hne].
    + exists j'. simplify_eq. split_and!.
      * apply list_lookup_insert_eq. by eapply lookup_lt_Some.
      * by apply Hst.
      * by rewrite Hmps.
      * intros i Hi. rewrite Hmps in Hi. apply (Hown0 i Hi).
    + exists j0. split_and!; try done. by rewrite lookup_with_job_ne.
Qed.

Lemma Inv_cleaned w x j j' kept rest evs :
  Inv w ->
  running_jobs w = kept ++ x :: rest ->
  heap w !! x = Some j ->
  Job.midplanes j' = Job.midplanes j ->
  Inv (cleaned_world x j' (kept ++ rest) evs w).
Proof.
  intros HInv Hrj Hj Hmps. pose proof (Inv_running_NoDup _ HInv) as Hndr.
  destruct HInv as [Hpool Hnd Hrefs Hrun]. rewrite Hrj in *.
  assert (Hsub : forall r, r ∈ kept ++ rest -> r ∈ kept ++ x :: rest).
  { intros r. rewrite !elem_of_app, elem_of_cons. tauto. }
  assert (Hx : forall r, r ∈ kept ++ rest -> r <> x).
  { intros r Hr ->. apply NoDup_middle in Hndr as [? ?].
    by apply elem_of_app in Hr as [Hr|Hr]. }
  split; simpl.
  - by rewrite free_all_length.
  - eapply sublist_NoDup; [exact Hnd|].
    apply sublist_app; [done|]. apply sublist_app; [done|].
    apply sublist_app; [done|]. by apply sublist_cons.
  - intros r Hr. apply lookup_lt_is_Some. rewrite length_insert.
    apply lookup_lt_is_Some, Hrefs.
    rewrite !elem_of_app in Hr. rewrite !elem_of_app, elem_of_cons. tauto.
  - intros r Hr. destruct (Hrun r (Hsub r Hr)) as (j0 & Hj0 & Hs0 & Hnd0 & Hown0).
    exists j0. split_and!; try done.
    + simpl. rewrite list_lookup_insert_ne; [done|]. intros ->. by apply (Hx r).
    + intros i Hi. destruct (Hown0 i Hi) as (m & Hm & Hs & Hjob).
      exists m. split_and!; try done. simpl.
      rewrite free_all_lookup_ne; [done|]. rewrite Hmps. intros Hi'.
      destruct (Hrun x) as (jx & Hjx & _ & _ & Hownx).
      { apply elem_of_middle. }
      simplify_eq. apply (Hx r Hr).
      eapply owns_inj; [apply (Hown0 i Hi) | by apply Hownx].
Qed.

(** One round of the loop on a well-formed state raises no exception and
    leaves a well-formed state. *)
Lemma jobs_tick_body_Inv w x t kept rest :
  Inv w ->
  running_jobs w = kept ++ x :: rest ->
  exists w', jobs_tick_body x t w = Ok tt w' /\ Inv w' /\ visited t x kept rest w w'.
Proof.
  intros HInv Hrj.
  assert (Hxin : x ∈ running_jobs w) by (rewrite Hrj; apply elem_of_middle).
  destruct (inv_running _ HInv x Hxin) as (j & Hj & Hst & Hnd & Hown).
  destruct (Job_ticked_running t j Hst) as (j' & evs & Ht & Hst').
  destruct (Job_ticked_fields _ _ _ _ Ht) as (Hmps & _).
  assert (Hlt : (x < length (heap w))%nat) by (by eapply lookup_lt_Some).
  destruct (decide (Job.status j' = ENDED)) as [He|Hne].
  - assert (Hxk : x ∉ kept).
    { pose proof (Inv_running_NoDup _ HInv) as Hn. rewrite Hrj in Hn.
      by apply NoDup_middle in Hn as [? ?]. }
    destruct (jobs_tick_body_ends w x j j' evs t kept rest) as [evs' Hb]; try done.
    eexists. split; [exact Hb|]. split; [by eapply Inv_cleaned|].
    exists j, j', evs. split_and!; try done.
    + by apply list_lookup_insert_eq.
    + intros r Hr. simpl. by rewrite list_lookup_insert_ne.
    + right. simpl. by rewrite Hmps.
  - eexists. split; [by eapply jobs_tick_body_continues|].
    split.
    + eapply Inv_with_job; try done. intros _. destruct Hst' as [?|?]; [done | by right].
    + exists j, j', evs. split_and!; try done.
      * by eapply lookup_with_job.
      * intros r Hr. by apply lookup_with_job_ne.
      * by left.
Qed.

Lemma same_requests_refl w : same_requests w w.
Proof. by intros r. Qed.

Lemma same_requests_trans w1 w2 w3 :
  same_requests w1 w2 -> same_requests w2 w3 -> same_requests w1 w3.
Proof. intros H1 H2 r. by rewrite H2, H1. Qed.

Lemma same_requests_update w w' x j j' :
  heap w !! x = Some j ->
  heap w' !! x = Some j' ->
  Job_request j' = Job_request j ->
  (forall r, r <> x -> heap w' !! r = heap w !! r) ->
  same_requests w w'.
Proof.
  intros Hj Hj' Heq Hne r. destruct (decide (r = x)) as [->|Hr].
  - rewrite Hj, Hj'. simpl. by rewrite Heq.
  - by rewrite Hne.
Qed.

Lemma Job_ticked_request t j j' evs :
  Job_ticked t j = Some (j', evs) -> Job_request j' = Job_request j.
Proof.
  intros (? & ? & ? & ? & ?)%Job_ticked_fields. unfold Job_request. congruence.
Qed.

Lemma visited_same_requests t x kept rest w w' :
  visited t x kept rest w w' -> same_requests w w'.
Proof.
  intros (j & j' & evs & Hj & Ht & Hj' & Hne & _).
  eapply same_requests_update; try done. by eapply Job_ticked_request.
Qed.

Lemma swept_refl w : swept w w.
Proof. split_and!; try done. Qed.

(** [jobs_tick] on a well-formed state: no exception, a well-formed state,
    and nothing touched but the running jobs and their midplanes. *)
Lemma Mira_jobs_tick_Inv w t :
  Inv w -> exists w', Mira_jobs_tick t w = Ok tt w' /\ Inv w' /\ swept w w'.
Proof.
  intros HInv.
  destruct (Mira_jobs_tick_sweep t
    (fun kept rest w' => running_jobs w' = kept ++ rest /\ Inv w' /\ swept w w'))
    with (w := w) as (kept' & w' & Hrun & _ & HInv' & Hsw).
  - by intros kept rest w' (? & _).
  - intros kept x rest w1 (Hrj & HInv1 & Hsw1).
    destruct (jobs_tick_body_Inv w1 x t kept rest HInv1 Hrj)
      as (w2 & Hbody & HInv2 & Hvis).
    exists w2. split; [done|].
    pose proof (visited_same_requests _ _ _ _ _ _ Hvis) as Hreq.
    destruct Hsw1 as (Hq1 & Htr1 & Hc1 & Hsub1 & Hheap1 & Hreq1).
    destruct Hvis as (j & j' & evs & Hj & Ht & Hj' & Hne & Hq & Htr & Hc & Hcases).
    assert (Hheap2 : forall r, r ∉ running_jobs w -> heap w2 !! r = heap w !! r).
    { intros r Hr. rewrite <- Hheap1 by done. apply Hne. intros ->. apply Hr.
      eapply elem_of_sublist; [|exact Hsub1]. rewrite Hrj. apply elem_of_middle. }
    assert (Hsw2 : forall l, running_jobs w2 = l -> l `sublist_of` kept ++ x :: rest ->
                             swept w w2).
    { intros l Hl Hsub.
      split_and!; [congruence | congruence | congruence | | exact Hheap2 | ].
      - rewrite Hl. etrans; [exact Hsub|]. by rewrite <- Hrj.
      - by eapply same_requests_trans. }
    destruct Hcases as [(Hne' & Hrj2 & _)|(He & Hrj2 & _)].
    + left. split_and!; try done.
      * by rewrite <- app_assoc.
      * by apply (Hsw2 _ Hrj2).
    + right.
      assert (Hsub : kept ++ rest `sublist_of` kept ++ x :: rest).
      { apply sublist_app; [done|]. by apply sublist_cons. }
      destruct rest as [|y rest'].
      * split_and!; try done. by apply (Hsw2 _ Hrj2).
      * split_and!; try done; [by rewrite <- app_assoc|]. by apply (Hsw2 _ Hrj2).
  - split_and!; [done | done | apply swept_refl].
  - eauto.
Qed.

(** ** The arrival feed *)

Lemma Trace_get_job_pop w r j tj t :
  trace_jobs w = tj ++ [r] ->
  heap w !! r = Some j ->
  Job.submitted_time j = t ->
  Trace_get_job t w = Ok (Some r) (set_trace_jobs tj w).
Proof.
  intros Htj Hj Ht. unfold Trace_get_job. rewrite bind_gets, Htj, last_snoc.
  rewrite (bind_Ok _ _ _ _ _ (deref_Some _ _ _ Hj)).
  rewrite bool_decide_true by done. by rewrite bind_modify, removelast_last.
Qed.

Lemma Trace_get_job_empty w t : trace_jobs w = [] -> Trace_get_job t w = Ok None w.
Proof. intros H. unfold Trace_get_job. by rewrite bind_gets, H. Qed.

Lemma Trace_get_job_later w r j t :
  last (trace_jobs w) = Some r ->
  heap w !! r = Some j ->
  Job.submitted_time j <> t ->
  Trace_get_job t w = Ok None w.
Proof.
  intros Hl Hj Ht. unfold Trace_get_job. rewrite bind_gets, Hl.
  rewrite (bind_Ok _ _ _ _ _ (deref_Some _ _ _ Hj)). by rewrite bool_decide_false.
Qed.

(** [get_job] hands out the last job of the trace, and only at the tick the
    job arrives. *)
Lemma Trace_get_job_due w t r w' :
  Trace_get_job t w = Ok (Some r) w' ->
  last (trace_jobs w) = Some r /\ arrival w r = Some t /\
  w' = set_trace_jobs (removelast (trace_jobs w)) w.
Proof.
  unfold Trace_get_job, arrival. rewrite bind_gets.
  destruct (last (trace_jobs w)) as [r0|]; [|done].
  unfold bind, deref. destruct (heap w !! r0) as [j|] eqn:Hj; [|done].
  case_bool_decide; [|done]. unfold modify, ret. intros ?; simplify_eq.
  rewrite Hj. by split_and!.
Qed.

Lemma Mira_submit_job_spec w r j :
  heap w !! r = Some j ->
  Mira_submit_job r w =
  Ok tt (with_job r (Job_submitted (simulated_wallclock w) j)
           [JobSubmitted (Job.name j) (simulated_wallclock w)]
           (set_queue (queue w ++ [r]) w)).
Proof.
  intros Hj. unfold Mira_submit_job, Queue_enqueue. rewrite bind_modify, bind_gets.
  by rewrite (Job_submit_spec _ _ j).
Qed.

Lemma arrivals_round fuel w r j tj :
  trace_jobs w = tj ++ [r] ->
  heap w !! r = Some j ->
  Job.submitted_time j = simulated_wallclock w ->
  arrivals (S fuel) w = arrivals fuel (arrived_world r j w).
Proof.
  intros Htj Hj Ht. simpl. rewrite bind_gets.
  rewrite (bind_Ok _ _ _ _ _ (Trace_get_job_pop _ _ _ _ _ Htj Hj Ht)).
  rewrite bind_gets. unfold logging at 1. rewrite bind_modify.
  erewrite bind_Ok by (by apply (Mira_submit_job_spec _ _ j)).
  f_equal. unfold arrived_world, with_job. simpl.
  rewrite Htj, removelast_last. by rewrite <- app_assoc.
Qed.

Lemma arrivals_stop fuel w :
  (forall r, last (trace_jobs w) = Some r ->
     exists j, heap w !! r = Some j /\ Job.submitted_time j <> simulated_wallclock w) ->
  arrivals fuel w = Ok tt w.
Proof.
  intros H. assert (Hg : Trace_get_job (simulated_wallclock w) w = Ok None w).
  { destruct (last (trace_jobs w)) as [r|] eqn:Hl.
    - destruct (H r eq_refl) as (j & Hj & Ht). by eapply Trace_get_job_later.
    - apply Trace_get_job_empty. by apply last_None. }
  destruct fuel; simpl; by rewrite bind_gets, (bind_Ok _ _ _ _ _ Hg).
Qed.

Lemma Inv_arrived w r j tj :
  Inv w ->
  trace_jobs w = tj ++ [r] ->
  heap w !! r = Some j ->
  Inv (arrived_world r j w).
Proof.
  intros HInv Htj Hj. pose proof (inv_nodup _ HInv) as Hnd.
  destruct HInv as [Hpool _ Hrefs Hrun]. rewrite Htj in *.
  assert (Hperm : tj ++ (queue w ++ [r]) ++ running_jobs w
                  ≡ₚ (tj ++ [r]) ++ queue w ++ running_jobs w).
  { rewrite <- !app_assoc. f_equiv. apply Permutation_app_swap_app. }
  split; simpl; rewrite ?Htj, ?removelast_last.
  - done.
  - by rewrite Hperm.
  - intros r' Hr'. apply lookup_lt_is_Some. rewrite length_insert.
    apply lookup_lt_is_Some, Hrefs. by rewrite <- Hperm.
  - intros r' Hr'. destruct (Hrun r' Hr') as (j0 & Hj0 & ?).
    exists j0. split; [|done]. simpl.
    rewrite list_lookup_insert_ne; [done|]. intros ->.
    apply NoDup_app in Hnd as (_ & Hnd & _). apply (Hnd r').
    + apply elem_of_app. right. by left.
    + apply elem_of_app. by right.
Qed.

Lemma drained_nil w : 
  (forall r, last (trace_jobs w) = Some r ->
     arrival w r <> Some (simulated_wallclock w)) ->
  drained [] w w.
Proof.
  intros H. split_and!; try done.
  - simpl. by rewrite app_nil_r.
  - by rewrite app_nil_r.
  - by intros r ?%elem_of_nil.
  - by intros r ?%elem_of_nil.
Qed.

(** The inner [while] on a well-formed state: it ends within the fuel
    [tick] gives it, raises nothing, and moves the jobs due. *)
Lemma arrivals_Inv fuel w :
  Inv w ->
  (length (trace_jobs w) <= fuel)%nat ->
  exists w' pulled, arrivals fuel w = Ok tt w' /\ Inv w' /\ drained pulled w w'.
Proof.
  revert w. induction fuel as [|fuel IH]; intros w HInv Hfuel.
  - exists w, []. destruct (trace_jobs w) eqn:Htj; [|simpl in Hfuel; lia].
    split_and!; [|done|].
    + apply arrivals_stop. by rewrite Htj.
    + apply drained_nil. by rewrite Htj.
  - destruct (last (trace_jobs w)) as [r|] eqn:Hl.
    2:{ exists w, []. split_and!; [|done|].
        - apply arrivals_stop. by rewrite Hl.
        - apply drained_nil. by rewrite Hl. }
    destruct (proj1 (last_Some _ _) Hl) as [tj Htj].
    destruct (inv_refs _ HInv r) as [j Hj].
    { rewrite Htj, <- app_assoc. apply elem_of_middle. }
    destruct (decide (Job.submitted_time j = simulated_wallclock w)) as [Ht|Ht].
    2:{ exists w, []. split_and!; [|done|].
        - apply arrivals_stop. intros r' ?. simplify_eq. by exists j.
        - apply drained_nil. intros r' ?. simplify_eq. unfold arrival.
          rewrite Hj. simpl. congruence. }
    rewrite (arrivals_round _ _ _ _ _ Htj Hj Ht).
    destruct (IH (arrived_world r j w)) as (w' & pulled & -> & HInv' & Hd).
    { by eapply Inv_arrived. }
    { simpl. rewrite Htj, removelast_last. rewrite Htj, length_app in Hfuel.
      simpl in Hfuel. lia. }
    exists w', (r :: pulled). split_and!; [done | done |].
    destruct Hd as (Htr & Hq & Hrun & Hmp & Hc & Hreq & Hdue & Hlast & Hout & Hin).
    simpl in *. rewrite Htj, removelast_last in Htr.
    assert (Hreq0 : same_requests w (arrived_world r j w)).
    { apply (same_requests_update _ _ r j (Job_submitted (simulated_wallclock w) j)).
      - done.
      - apply list_lookup_insert_eq. by eapply lookup_lt_Some.
      - unfold Job_request; simpl. by rewrite Ht.
      - intros r' Hr'. by apply list_lookup_insert_ne. }
    assert (Harr : forall r', arrival (arrived_world r j w) r' = arrival w r').
    { intros r'. unfold arrival. specialize (Hreq0 r').
      destruct (heap (arrived_world r j w) !! r'), (heap w !! r');
        unfold Job_request in Hreq0; simpl in *; congruence. }
    split_and!.
    + rewrite Htj, Htr, reverse_cons. by rewrite <- app_assoc.
    + rewrite Hq. by rewrite <- app_assoc.
    + done.
    + done.
    + done.
    + by eapply same_requests_trans.
    + intros r' [Heq|Hr']%elem_of_cons.
      * subst r'. unfold arrival. rewrite Hj. simpl. by rewrite Ht.
      * rewrite <- Harr. by apply Hdue.
    + intros r' Hr'. rewrite <- Harr. by apply Hlast.
    + intros r' [Hne Hr']%not_elem_of_cons. rewrite Hout by done.
      by apply list_lookup_insert_ne.
    + intros r' [Heq|Hr']%elem_of_cons; [subst r'|by apply Hin].
      destruct (decide (r ∈ pulled)) as [Hp|Hp]; [by apply Hin|].
      rewrite Hout by done. rewrite list_lookup_insert_eq by (by eapply lookup_lt_Some).
      done.
Qed.

Lemma Inv_admitted w r q j evs :
  Inv w ->
  queue w = r :: q ->
  heap w !! r = Some j ->
  Inv (admitted_world r j
         (find_vacant (requested_midplanes j) 0%nat (midplanes w) []) evs w).
Proof.
  intros HInv Hq Hj. pose proof (inv_nodup _ HInv) as Hnd.
  destruct HInv as [Hpool _ Hrefs Hrun]. rewrite Hq in *.
  set (vac := find_vacant _ _ _ _).
  assert (Hperm : trace_jobs w ++ q ++ running_jobs w ++ [r]
                  ≡ₚ trace_jobs w ++ (r :: q) ++ running_jobs w).
  { f_equiv. rewrite app_assoc. by rewrite <- Permutation_cons_append. }
  assert (Hr : r ∉ running_jobs w).
  { apply NoDup_app in Hnd as (_ & _ & Hnd). apply NoDup_app in Hnd as (_ & Hnd & _).
    apply Hnd. by left. }
  split; simpl; rewrite ?Hq; simpl.
  - by rewrite occupy_all_length.
  - by rewrite Hperm.
  - intros r' Hr'. apply lookup_lt_is_Some. rewrite length_insert.
    apply lookup_lt_is_Some, Hrefs. by rewrite <- Hperm.
  - intros r' [Hr'|Hr']%elem_of_app;
      [|apply list_elem_of_singleton in Hr'; subst r'].
    + destruct (Hrun r' Hr') as (j0 & Hj0 & Hs0 & Hnd0 & Hown0).
      exists j0. split_and!; try done.
      * simpl. rewrite list_lookup_insert_ne; [done|]. by intros ->.
      * intros i Hi. destruct (Hown0 i Hi) as (m & Hm & Hs & Hjob).
        exists m. split_and!; try done. simpl.
        rewrite occupy_all_lookup_ne; [done|]. intros Hv.
        destruct (find_vacant_elem _ _ _ Hv) as (m' & Hm' & Hs').
        simplify_eq. congruence.
    + exists (Job_admitted vac j). split_and!.
      * simpl. apply list_lookup_insert_eq. by eapply lookup_lt_Some.
      * by left.
      * apply find_vacant_NoDup.
      * intros i Hi. simpl in Hi.
        destruct (find_vacant_elem _ _ _ Hi) as (m & Hm & _).
        destruct (occupy_all_lookup r vac _ _ _ Hi Hm) as (m' & Hm' & Hs' & Hj' & _).
        by exists m'.
Qed.

Lemma same_requests_admitted w r j mps evs :
  heap w !! r = Some j -> same_requests w (admitted_world r j mps evs w).
Proof.
  intros Hj. apply (same_requests_update _ _ r j (Job_admitted mps j)); try done.
  - apply list_lookup_insert_eq. by eapply lookup_lt_Some.
  - intros r' Hr'. by apply list_lookup_insert_ne.
Qed.

(** [schedule] on a well-formed state: no exception, a well-formed state. *)
Lemma Mira_schedule_Inv w :
  Inv w -> exists w', Mira_schedule w = Ok tt w' /\ Inv w' /\ scheduled w w'.
Proof.
  intros HInv. destruct (queue w) as [|r q] eqn:Hq.
  { exists w. split_and!; [by apply Mira_schedule_empty | done | by left]. }
  destruct (inv_refs _ HInv r) as [j Hj].
  { rewrite Hq. apply elem_of_app. right. by left. }
  destruct (decide (Z.of_nat (length (find_vacant (requested_midplanes j) 0%nat
                                        (midplanes w) [])) = requested_midplanes j))
    as [Heq|Hne].
  - destruct (Mira_schedule_admits w r q j Hq Hj Heq) as [evs Hs].
    eexists. split_and!; [exact Hs | by eapply Inv_admitted |].
    right. exists r, j, evs. by rewrite Hq.
  - exists w. split_and!; [by eapply Mira_schedule_blocked | done | by left].
Qed.

Lemma scheduled_frame w w' :
  scheduled w w' ->
  trace_jobs w' = trace_jobs w /\
  simulated_wallclock w' = simulated_wallclock w /\
  same_requests w w'.
Proof.
  intros [->|(r & j & evs & Hh & Hj & Hlen & ->)].
  - split_and!; try done.
  - split_and!; try done. by apply same_requests_admitted.
Qed.

(** ** One round of the main loop *)

Lemma Inv_inc_wallclock w :
  Inv w -> Inv (set_simulated_wallclock (simulated_wallclock w + 1) w).
Proof. intros [? ? ? ?]. by split. Qed.

(** On a well-formed state a round raises no exception and goes through its
    four steps in order: arrivals, one call of the scheduler, one sweep of
    the running jobs at the wallclock the round started with, and the
    wallclock moved on by one. *)
Lemma tick_Inv w :
  Inv w ->
  exists pulled w1 w2 w3,
    arrivals (length (trace_jobs w)) w = Ok tt w1 /\ drained pulled w w1 /\
    Mira_schedule w1 = Ok tt w2 /\ scheduled w1 w2 /\
    Mira_jobs_tick (simulated_wallclock w) w2 = Ok tt w3 /\ swept w2 w3 /\
    tick w = Ok tt (set_simulated_wallclock (simulated_wallclock w + 1) w3) /\
    simulated_wallclock w3 = simulated_wallclock w /\
    Inv w1 /\ Inv w2 /\ Inv w3 /\
    Inv (set_simulated_wallclock (simulated_wallclock w + 1) w3).
Proof.
  intros HInv.
  destruct (arrivals_Inv (length (trace_jobs w)) w HInv) as (w1 & pulled & Ha & HInv1 & Hd);
    [done|].
  destruct (Mira_schedule_Inv w1 HInv1) as (w2 & Hs & HInv2 & Hsch).
  destruct (Mira_jobs_tick_Inv w2 (simulated_wallclock w) HInv2) as (w3 & Hj & HInv3 & Hsw).
  assert (Hc2 : simulated_wallclock w2 = simulated_wallclock w).
  { destruct (scheduled_frame _ _ Hsch) as (_ & -> & _). by destruct Hd as (_&_&_&_&?&_). }
  assert (Hc3 : simulated_wallclock w3 = simulated_wallclock w).
  { destruct Hsw as (_ & _ & -> & _). done. }
  exists pulled, w1, w2, w3. split_and!; try done.
  - unfold tick, advance.
    rewrite bind_gets, (bind_Ok _ _ _ _ _ Ha), (bind_Ok _ _ _ _ _ Hs).
    rewrite bind_gets, Hc2, (bind_Ok _ _ _ _ _ Hj).
    unfold Mira_inc_wallclock, modify. by rewrite Hc3.
  - rewrite <- Hc3. by apply Inv_inc_wallclock.
Qed.

Lemma Inv_initial jobs : Inv (initial jobs).
Proof.
  split; simpl.
  - done.
  - rewrite app_nil_r. apply NoDup_seq.
  - intros r. rewrite app_nil_r. intros Hr%elem_of_seq. apply lookup_lt_is_Some. lia.
  - by intros r ?%elem_of_nil.
Qed.

Lemma Inv_waiting_not_running w b : Inv w -> waiting w b -> b ∉ running_jobs w.
Proof.
  intros HInv Hw Hr. pose proof (inv_nodup _ HInv) as Hnd.
  apply NoDup_app in Hnd as (_ & Htq & Hnd). destruct Hw as [Ht|Hq].
  - apply (Htq b Ht). apply elem_of_app. by right.
  - apply NoDup_app in Hnd as (_ & Hqr & _). by apply (Hqr b Hq).
Qed.

Lemma oversized_same_requests w w' b :
  same_requests w w' -> oversized w b -> oversized w' b.
Proof.
  intros Hreq (j & Hj & Hbig). specialize (Hreq b). rewrite Hj in Hreq.
  destruct (heap w' !! b) as [j'|] eqn:Hj'; simpl in Hreq; [|done].
  exists j'. split; [done|].
  unfold requested_midplanes in *. unfold Job_request in Hreq.
  inversion Hreq as [[Hname Hnodes Hdur Hsub]]. by rewrite Hnodes.
Qed.

(** The search never finds more midplanes than the pool has, so an oversized
    head of the queue is never admitted. *)
Lemma scheduled_oversized w w' b :
  Inv w -> oversized w b -> waiting w b -> scheduled w w' -> waiting w' b.
Proof.
  unfold waiting.
  intros HInv (jb & Hjb & Hbig) Hw [->|(r & j & evs & Hh & Hj & Hlen & ->)]; [done|].
  destruct Hw as [Ht|Hq]; [by left|]. right. simpl.
  destruct (queue w) as [|r' q]; [done|]. simpl in Hh. simplify_eq.
  apply elem_of_cons in Hq as [->|Hq]; [|done].
  simplify_eq. pose proof (find_vacant_length (requested_midplanes jb) (midplanes w)).
  rewrite (inv_pool _ HInv) in *. lia.
Qed.

Lemma drained_waiting w w' pulled b : drained pulled w w' -> waiting w b -> waiting w' b.
Proof.
  unfold waiting. intros (Htr & Hq & _) [Ht|Hw].
  - rewrite Htr in Ht. apply elem_of_app in Ht as [Ht|Ht]; [by left|].
    right. rewrite Hq. apply elem_of_app. right. by apply elem_of_reverse.
  - right. rewrite Hq. apply elem_of_app. by left.
Qed.

Lemma tick_oversized w b :
  Inv w -> oversized w b -> waiting w b ->
  exists w', tick w = Ok tt w' /\ Inv w' /\ oversized w' b /\ waiting w' b.
Proof.
  intros HInv Hbig Hw.
  destruct (tick_Inv w HInv)
    as (pulled & w1 & w2 & w3 & _ & Hd & _ & Hsch & _ & Hsw & Ht & _ & HI1 & HI2 & HI3 & HI4).
  eexists. split; [exact Ht|]. split; [done|].
  assert (Hreq1 : same_requests w w1) by (by destruct Hd as (_&_&_&_&_&?&_)).
  destruct (scheduled_frame _ _ Hsch) as (Htr2 & _ & Hreq2).
  destruct Hsw as (Hq3 & Htr3 & _ & _ & _ & Hreq3).
  pose proof (oversized_same_requests _ _ _ Hreq1 Hbig) as Hbig1.
  pose proof (drained_waiting _ _ _ _ Hd Hw) as Hw1.
  pose proof (scheduled_oversized _ _ _ HI1 Hbig1 Hw1 Hsch) as Hw2.
  split.
  - apply (oversized_same_requests w3); [done|].
    by apply (oversized_same_requests w2), (oversized_same_requests w1).
  - unfold waiting in *. simpl. by rewrite Hq3, Htr3.
Qed.

Lemma loop_cond_waiting w b : waiting w b -> loop_cond w = true.
Proof.
  intros Hw. unfold loop_cond. apply bool_decide_eq_true.
  destruct Hw as [H|H]; [left|right; left];
    (destruct H; simpl; lia).
Qed.

Lemma simulation_oversized n w b :
  Inv w -> oversized w b -> waiting w b ->
  exists w', simulation n w = Ok false w' /\ Inv w' /\ oversized w' b /\ waiting w' b.
Proof.
  revert w. induction n as [|n IH]; intros w HInv Hbig Hw; simpl;
    rewrite (loop_cond_waiting _ _ Hw).
  - by exists w.
  - destruct (tick_oversized w b HInv Hbig Hw) as (w1 & Ht & HInv1 & Hbig1 & Hw1).
    rewrite (bind_Ok _ _ _ _ _ Ht). by apply IH.
Qed.

(** No round of a simulation raises an exception, whatever the trace. *)
Lemma ticks_Inv n w :
  Inv w -> exists w', ticks n w = Ok tt w' /\ Inv w'.
Proof.
  revert w. induction n as [|n IH]; intros w HInv.
  - by exists w.
  - destruct (tick_Inv w HInv)
      as (pulled & w1 & w2 & w3 & _ & _ & _ & _ & _ & _ & Ht & _ & _ & _ & _ & HInv').
    destruct (IH _ HInv') as (w' & Hrun & ?).
    exists w'. simpl. by rewrite (bind_Ok _ _ _ _ _ Ht).
Qed.

Lemma simulation_never_raises jobs n :
  exists w', ticks n (initial jobs) = Ok tt w' /\ Inv w'.
Proof. apply ticks_Inv, Inv_initial. Qed.

(** ** Who is ticked and who is stepped over *)

Lemma NoDup_split_inj {A} (l1 l2 k1 k2 : list A) x :
  NoDup (l1 ++ x :: l2) -> l1 ++ x :: l2 = k1 ++ x :: k2 -> l1 = k1 /\ l2 = k2.
Proof.
  revert k1. induction l1 as [|y l1 IH]; intros k1 Hnd Heq.
  - destruct k1 as [|z k1]; simpl in *; simplify_eq; [done|].
    apply NoDup_cons in Hnd as [Hx _]. exfalso. apply Hx, elem_of_middle.
  - destruct k1 as [|z k1]; simpl in *; simplify_eq.
    + apply NoDup_cons in Hnd as [Hx _]. exfalso. apply Hx, elem_of_middle.
    + apply NoDup_cons in Hnd as [_ Hnd]. destruct (IH k1 Hnd) as [-> ->]; done.
Qed.

Section progress.
Variable t : Z.
Variable w : World.
Variables (l1 l2 : list jobref) (r : jobref).
Hypothesis HInv : Inv w.
Hypothesis Hrj : running_jobs w = l1 ++ r :: l2.

Lemma tick_done_grow kept w' w'' ys :
  tick_done t w l1 r kept w' -> heap w'' !! r = heap w' !! r -> r ∉ ys ->
  tick_done t w l1 r (kept ++ ys) w''.
Proof.
  intros (j & j' & evs & Hj & Ht & Hj' & Hc) Hh Hys. exists j, j', evs.
  split_and!; try congruence. destruct (decide (Job.status j' = ENDED)).
  - rewrite elem_of_app. tauto.
  - destruct Hc as (k1 & k2 & -> & Hlen). exists k1, (k2 ++ ys).
    by rewrite <- app_assoc.
Qed.

Lemma skip_done_grow kept w' w'' ys :
  skip_done t w l1 r kept w' -> heap w'' !! r = heap w' !! r ->
  skip_done t w l1 r (kept ++ ys) w''.
Proof.
  intros (Hh' & (k1 & k2 & -> & Hlen) & Hp) Hh. split_and!; [congruence | | done].
  exists k1, (k2 ++ ys). by rewrite <- app_assoc.
Qed.

Lemma progress_step kept x rest w' :
  progress_inv t w l1 r kept (x :: rest) w' ->
  exists w'', jobs_tick_body x t w' = Ok tt w'' /\
    (progress_inv t w l1 r (kept ++ [x]) rest w'' \/
     match rest with
     | [] => progress_inv t w l1 r kept [] w''
     | y :: rest' => progress_inv t w l1 r (kept ++ [y]) rest' w''
     end).
Proof.
  intros (Hrj' & HInv' & Hun & (pre & Hpre) & Hst).
  destruct (jobs_tick_body_Inv w' x t kept rest HInv' Hrj') as (w'' & Hbody & HInv'' & Hvis).
  exists w''. split; [done|].
  pose proof (Inv_running_NoDup _ HInv') as Hnd'. rewrite Hrj' in Hnd'.
  destruct (NoDup_middle _ _ _ Hnd') as [Hxk Hxr].
  assert (Hndr : NoDup (x :: rest)) by (by apply NoDup_app in Hnd' as (_ & _ & ?)).
  destruct Hvis as (j & j' & evs & Hj & Ht & Hj' & Hne & _ & _ & _ & Hcases).
  assert (Hj0 : heap w !! x = Some j) by (rewrite <- Hun; [done | by left]).
  assert (Hun' : forall y, y ∈ rest -> heap w'' !! y = heap w !! y).
  { intros y Hy. rewrite Hne by (by intros ->). apply Hun. by right. }
  destruct Hcases as [(Hne' & Hrj'' & _)|(He & Hrj'' & _)].
  - (* the list is as it was: [x] joins [kept] *)
    left. split_and!; try done.
    + by rewrite <- app_assoc.
    + exists (pre ++ [x]). by rewrite <- app_assoc.
    + destruct Hst as [(r1 & r2 & Hrest & Hlen)|(Hr & Hdone)].
      * destruct r1 as [|x' r1]; simpl in Hrest; injection Hrest as Hx0 Hrest0.
        -- subst x rest. right. split; [done|]. left. exists j, j', evs.
           split_and!; try done.
           rewrite decide_False by done. exists kept, []. split; [done|].
           simpl in Hlen. lia.
        -- subst x' rest. left. exists r1, r2. split; [done|].
           rewrite length_app. simpl in *. lia.
      * apply not_elem_of_cons in Hr as [Hrx Hr]. right. split; [done|].
        assert (Hh : heap w'' !! r = heap w' !! r) by (by apply Hne).
        destruct Hdone as [Hd|Hd]; [left|right].
        -- apply (tick_done_grow _ w'); try done.
           by intros ->%list_elem_of_singleton.
        -- by apply (skip_done_grow _ w').
  - (* [x] is gone: the job after it, if any, slides under the index *)
    right.
    assert (Hstate : forall ys rest',
      rest = ys ++ rest' -> (length ys <= 1)%nat ->
      (rest' = [] \/ ys <> []) ->
      (exists r1 r2, rest' = r1 ++ r :: r2
         /\ (length (kept ++ ys) + length r1 <= length l1)%nat) \/
      ((r ∉ rest') /\ (tick_done t w l1 r (kept ++ ys) w'' \/
                       skip_done t w l1 r (kept ++ ys) w''))).
    { intros ys rest' Hrest Hys Hshape.
      destruct Hst as [(r1 & r2 & Hr & Hlen)|(Hr & Hdone)].
      - destruct r1 as [|x' r1]; simpl in Hr; injection Hr as Hx0 Hr0.
        + (* [x] is [r]: ticked, ended, removed *)
          subst x. right. split.
          { intros Hin. apply Hxr. rewrite Hrest. apply elem_of_app. by right. }
          left. exists j, j', evs. split_and!; try done.
          rewrite decide_True by done. rewrite elem_of_app.
          intros [?|Hin]; [done|]. apply Hxr. rewrite Hrest. apply elem_of_app. by left.
        + (* [r] is further down *)
          subst x'. destruct ys as [|y ys]; simpl in Hrest.
          * left. exists r1, r2. split; [congruence|].
            rewrite app_nil_r. simpl in Hlen. lia.
          * destruct ys; [|simpl in Hys; lia]. simpl in Hrest.
            rewrite Hrest in Hr0.
            destruct r1 as [|y' r1]; simpl in Hr0; injection Hr0 as Hy0 Hr1.
            -- (* [r] comes right after [x]: stepped over *)
               subst y. right. split.
               { intros Hin. apply NoDup_cons in Hndr as [_ Hndr].
                 rewrite Hrest in Hndr. by apply NoDup_cons in Hndr as [Hrr _]. }
               right. split_and!.
               ++ rewrite Hne; [apply Hun; right; rewrite Hrest; by left|].
                  intros ->. apply Hxr. rewrite Hrest. by left.
               ++ exists kept, []. split; [done|]. simpl in Hlen. lia.
               ++ exists pre, x. split.
                  ** pose proof (Inv_running_NoDup _ HInv) as Hnd0.
                     rewrite Hrj in Hnd0.
                     assert (Heq : l1 ++ r :: l2 = (pre ++ [x]) ++ r :: rest').
                     { rewrite <- Hrj, Hpre, Hrest. by rewrite <- app_assoc. }
                     by destruct (NoDup_split_inj _ _ _ _ _ Hnd0 Heq) as [-> _].
                  ** by exists j, j', evs.
            -- subst y'. left. exists r1, r2. split; [done|].
               rewrite length_app. simpl in *. lia.
      - right. apply not_elem_of_cons in Hr as [Hrx Hr].
        assert (Hh : heap w'' !! r = heap w' !! r) by (by apply Hne).
        assert (Hry : r ∉ ys).
        { intros Hin. apply Hr. rewrite Hrest. apply elem_of_app. by left. }
        split.
        + intros Hin. apply Hr. rewrite Hrest. apply elem_of_app. by right.
        + destruct Hdone as [Hd|Hd]; [left|right].
          * by apply (tick_done_grow _ w').
          * by apply (skip_done_grow _ w'). }
    destruct rest as [|y rest'].
    + split_and!; try done.
      * exists (pre ++ [x]). by rewrite app_nil_r.
      * destruct (Hstate [] []) as [(r1 & r2 & ? & _)|Hd]; try done; try (simpl; lia).
        -- by left.
        -- by destruct r1.
        -- right. by rewrite app_nil_r in Hd.
    + split_and!; try done.
      * by rewrite <- app_assoc.
      * intros y' Hy'. apply Hun'. by right.
      * exists (pre ++ [x; y]). rewrite <- app_assoc. done.
      * apply (Hstate [y] rest'); try done. by right.
Qed.

(** One sweep ticks [r] once or steps over it; it steps over [r] only when
    the job right ahead of [r] ends in this sweep. *)
Lemma Mira_jobs_tick_progress :
  exists w', Mira_jobs_tick t w = Ok tt w' /\ Inv w' /\ swept w w' /\
    (ticked_in t r l1 w w' \/ skipped_in t r l1 w w').
Proof.
  destruct (Mira_jobs_tick_Inv w t HInv) as (w' & Hrun & HInv' & Hsw).
  exists w'. split_and!; try done.
  destruct (Mira_jobs_tick_sweep t (progress_inv t w l1 r)) with (w := w)
    as (kept' & w'' & Hrun' & Hrj' & _ & _ & _ & Hst).
  - by intros kept rest w0 (? & _).
  - apply progress_step.
  - split_and!; try done.
    + by exists [].
    + left. exists l1, l2. split; [done|]. simpl. lia.
  - rewrite Hrun in Hrun'. simplify_eq. rewrite app_nil_r in Hrj'.
    destruct Hst as [(r1 & r2 & ? & _)|(_ & [Hd|Hd])].
    + by destruct r1.
    + left. destruct Hd as (j & j' & evs & ? & ? & ? & Hc).
      exists j, j', evs. by rewrite Hrj'.
    + right. destruct Hd as (? & ? & ?). split_and!; try done. by rewrite Hrj'.
Qed.
End progress.

(** ** Every running job ends *)

Lemma advance_progress w l1 r l2 :
  Inv w ->
  running_jobs w = l1 ++ r :: l2 ->
  exists w', advance w = Ok tt w' /\ Inv w' /\
    simulated_wallclock w' = simulated_wallclock w + 1 /\
    queue w' = queue w /\ trace_jobs w' = trace_jobs w /\
    (ticked_in (simulated_wallclock w) r l1 w w' \/
     skipped_in (simulated_wallclock w) r l1 w w').
Proof.
  intros HInv Hrj.
  destruct (Mira_jobs_tick_progress (simulated_wallclock w) w l1 l2 r HInv Hrj)
    as (w3 & Hrun & HInv3 & Hsw & Hcases).
  destruct Hsw as (Hq & Htr & Hc & _).
  exists (set_simulated_wallclock (simulated_wallclock w + 1) w3). split_and!; try done.
  - unfold advance. rewrite bind_gets, (bind_Ok _ _ _ _ _ Hrun).
    unfold Mira_inc_wallclock, modify. by rewrite Hc.
  - rewrite <- Hc. by apply Inv_inc_wallclock.
Qed.

Lemma Inv_running_not_waiting w r :
  Inv w -> r ∈ running_jobs w -> (r ∉ trace_jobs w) /\ (r ∉ queue w).
Proof.
  intros HInv Hr. split; intros Hin;
    apply (Inv_waiting_not_running w r HInv); try done; [by left | by right].
Qed.

Lemma tick_progress w l1 r l2 :
  Inv w ->
  running_jobs w = l1 ++ r :: l2 ->
  exists w', tick w = Ok tt w' /\ Inv w' /\
    simulated_wallclock w' = simulated_wallclock w + 1 /\
    (ticked_in (simulated_wallclock w) r l1 w w' \/
     (heap w' !! r = heap w !! r /\
      exists k1 k2, running_jobs w' = k1 ++ r :: k2 /\ (length k1 < length l1)%nat)).
Proof.
  intros HInv Hrj.
  assert (Hr : r ∈ running_jobs w) by (rewrite Hrj; apply elem_of_middle).
  destruct (Inv_running_not_waiting w r HInv Hr) as [Hrt Hrq].
  destruct (arrivals_Inv (length (trace_jobs w)) w HInv) as (w1 & pulled & Ha & HInv1 & Hd);
    [done|].
  destruct Hd as (Htr1 & Hq1 & Hrun1 & _ & Hc1 & _ & _ & _ & Hout1 & _).
  assert (Hh1 : heap w1 !! r = heap w !! r).
  { apply Hout1. intros Hin. apply Hrt. rewrite Htr1. apply elem_of_app. right.
    by apply elem_of_reverse. }
  destruct (Mira_schedule_Inv w1 HInv1) as (w2 & Hs & HInv2 & Hsch).
  assert (H2 : heap w2 !! r = heap w !! r /\
               simulated_wallclock w2 = simulated_wallclock w /\
               exists l2', running_jobs w2 = l1 ++ r :: l2').
  { destruct Hsch as [->|(r0 & j0 & evs & Hh0 & Hj0 & _ & ->)].
    - split_and!; [done | done |]. exists l2. congruence.
    - simpl. split_and!; [|done|].
      + rewrite list_lookup_insert_ne; [done|]. intros ->.
        destruct (Inv_running_not_waiting w1 r HInv1) as [_ Hnq]; [congruence|].
        apply Hnq. destruct (queue w1); simpl in Hh0; simplify_eq. by left.
      + exists (l2 ++ [r0]). rewrite Hrun1, Hrj. by rewrite <- app_assoc. }
  destruct H2 as (Hh2 & Hc2 & l2' & Hrj2).
  destruct (advance_progress w2 l1 r l2' HInv2 Hrj2)
    as (w' & Hadv & HInv' & Hc' & _ & _ & Hcases).
  exists w'. split_and!; try done.
  - unfold tick. by rewrite bind_gets, (bind_Ok _ _ _ _ _ Ha), (bind_Ok _ _ _ _ _ Hs).
  - lia.
  - rewrite Hc2 in Hcases. destruct Hcases as [Ht|Hsk]; [left|right].
    + destruct Ht as (j & j' & evs & Hj & Ht & Hj' & Hc).
      exists j, j', evs. split_and!; try done. congruence.
    + destruct Hsk as (Hh & Hk & _). split; [congruence | done].
Qed.

Lemma ticks_S n w w' : tick w = Ok tt w' -> ticks (S n) w = ticks n w'.
Proof. intros H. simpl. by rewrite (bind_Ok _ _ _ _ _ H). Qed.

(** A running job is ticked within as many rounds as there are jobs ahead of
    it, and then once per round, up to the stepping over, until it ends. *)
Lemma running_job_ends n : forall w l1 r l2 j,
  Inv w ->
  running_jobs w = l1 ++ r :: l2 ->
  heap w !! r = Some j ->
  (length l1 + remaining (simulated_wallclock w) j <= n)%nat ->
  exists m w' j',
    ticks m w = Ok tt w' /\ Inv w' /\ heap w' !! r = Some j' /\
    Job.status j' = ENDED /\ (r ∉ running_jobs w') /\
    Job.midplanes j' = Job.midplanes j.
Proof.
  induction n as [|n IH]; intros w l1 r l2 j HInv Hrj Hj Hn.
  all: assert (Hr : r ∈ running_jobs w) by (rewrite Hrj; apply elem_of_middle).
  all: destruct (inv_running _ HInv r Hr) as (j0 & Hj0 & Hst & _); simplify_eq.
  all: destruct (tick_progress w l1 r l2 HInv Hrj) as (w1 & Ht & HInv1 & Hc1 & Hcases).
  all: destruct Hcases as [(j0 & j' & evs & Hj0 & Htk & Hj' & Hc)|(Hh & k1 & k2 & Hrj1 & Hlen)];
    simplify_eq.
  - (* no sweep to wait for: the tick ends the job *)
    destruct (decide (Job.status j' = ENDED)) as [He|Hne].
    { exists 1%nat, w1, j'. split_and!; try done.
      - by rewrite (ticks_S _ _ _ Ht).
      - by apply Job_ticked_fields in Htk as (? & _). }
    exfalso. unfold remaining in Hn. destruct Hst as [Hs|[Hs [e He]]].
    + rewrite Hs in Hn. lia.
    + rewrite Hs, He in Hn. rewrite (Job_ticked_RUNNING _ _ e) in Htk by done.
      destruct (e <=? simulated_wallclock w) eqn:Hle; simplify_eq; try done.
      apply Z.leb_gt in Hle. lia.
  - lia.
  - destruct (decide (Job.status j' = ENDED)) as [He|Hne].
    { exists 1%nat, w1, j'. split_and!; try done.
      - by rewrite (ticks_S _ _ _ Ht).
      - by apply Job_ticked_fields in Htk as (? & _). }
    destruct Hc as (k1 & k2 & Hrj1 & Hlen).
    destruct (IH w1 k1 r k2 j' HInv1 Hrj1 Hj') as (m & w' & j'' & Hm & HInv' & Hj'' & He & Hr' & Hmp).
    { rewrite Hc1. unfold remaining in *. destruct Hst as [Hs|[Hs [e He]]].
      - rewrite Hs in Hn. rewrite (Job_ticked_READY _ _ Hs) in Htk.
        destruct (_ <=? _) eqn:Hle; simplify_eq; try done. simpl.
        apply Z.leb_gt in Hle. lia.
      - rewrite Hs, He in Hn. rewrite (Job_ticked_RUNNING _ _ e) in Htk by done.
        destruct (e <=? simulated_wallclock w) eqn:Hle; simplify_eq; try done.
        rewrite Hs, He. apply Z.leb_gt in Hle. lia. }
    exists (S m), w', j''. split_and!; try done.
    + by rewrite (ticks_S _ _ _ Ht).
    + apply Job_ticked_fields in Htk as (? & _). congruence.
  - destruct (IH w1 k1 r k2 j HInv1 Hrj1) as (m & w' & j'' & Hm & HInv' & Hj'' & He & Hr' & Hmp).
    { congruence. }
    { rewrite Hc1. assert (remaining (simulated_wallclock w + 1) j
                           <= remaining (simulated_wallclock w) j)%nat; [|lia].
      unfold remaining. destruct (Job.status j); try lia.
      destruct (Job.end_time j); lia. }
    exists (S m), w', j''. split_and!; try done.
    by rewrite (ticks_S _ _ _ Ht).
Qed.

(** ** Checking a given state *)

Lemma well_formed_Inv w : well_formed w = true -> Inv w.
Proof.
  unfold well_formed. rewrite !andb_true_iff, !bool_decide_eq_true, !forallb_forall.
  intros [[[Hpool Hnd] Hrefs] Hrun]. split; try done.
  - intros r Hr%list_elem_of_In. by apply (bool_decide_eq_true_1 _ (Hrefs r Hr)).
  - intros r Hr%list_elem_of_In. specialize (Hrun r Hr). unfold running_ok_b in Hrun.
    destruct (heap w !! r) as [j|] eqn:Hj; [|done].
    rewrite !andb_true_iff, orb_true_iff, andb_true_iff, !bool_decide_eq_true,
      forallb_forall in Hrun.
    destruct Hrun as [[Hst Hndm] Hown]. exists j. split_and!; try done.
    intros i Hi%list_elem_of_In. specialize (Hown i Hi). unfold owns_b in Hown.
    destruct (midplanes w !! i) as [m|] eqn:Hm; [|done].
    rewrite andb_true_iff, !bool_decide_eq_true in Hown. by exists m.
Qed.

(** ** The fate of each running job in a sweep *)

Lemma Outcome_Ok_inj {A} (a b : A) w w' : Ok a w = Ok b w' -> w = w'.
Proof. by intros [= _ ->]. Qed.

Lemma fates_fst due s l : fst <$> fates due s l = l.
Proof.
  revert s. induction l as [|x l IH]; intros s; simpl; [done|].
  destruct s; [|destruct (due x)]; simpl; by rewrite IH.
Qed.

Lemma fates_app due s l1 l2 :
  fates due s (l1 ++ l2) = fates due s l1 ++ fates due (skip_after due s l1) l2.
Proof.
  revert s. induction l1 as [|x l1 IH]; intros s; simpl; [done|].
  destruct s; [|destruct (due x)]; simpl; by rewrite IH.
Qed.

Lemma skip_after_app due s l1 l2 :
  skip_after due s (l1 ++ l2) = skip_after due (skip_after due s l1) l2.
Proof. revert s. induction l1 as [|x l1 IH]; intros s; simpl; [done|]. apply IH. Qed.

Lemma released_app w l1 l2 : released w (l1 ++ l2) = released w l1 ++ released w l2.
Proof.
  induction l1 as [|r l1 IH]; simpl; [done|]. by rewrite IH, app_assoc.
Qed.

Lemma free_all_app l1 l2 pool : free_all (l1 ++ l2) pool = free_all l2 (free_all l1 pool).
Proof. unfold free_all. apply foldl_app. Qed.

Lemma survivors_app F1 F2 : survivors (F1 ++ F2) = survivors F1 ++ survivors F2.
Proof. apply omap_app. Qed.

Lemma ended_app F1 F2 : ended (F1 ++ F2) = ended F1 ++ ended F2.
Proof. apply omap_app. Qed.

Lemma elem_of_survivors F r :
  r ∈ survivors F <-> exists f, (r, f) ∈ F /\ f <> Ended.
Proof.
  unfold survivors. rewrite list_elem_of_omap. split.
  - intros ([r0 f] & Hin & Hf). simpl in Hf. exists f.
    destruct f; simplify_eq; by split.
  - intros (f & Hin & Hf). exists (r, f). split; [done|]. simpl. by destruct f.
Qed.

(** In a list without repetition a job has one fate. *)
Lemma fates_fate_unique due s l r f f' :
  NoDup l -> (r, f) ∈ fates due s l -> (r, f') ∈ fates due s l -> f = f'.
Proof.
  intros Hnd. rewrite <- (fates_fst due s l) in Hnd.
  intros H1 H2. apply list_elem_of_lookup in H1 as [i Hi], H2 as [i' Hi'].
  assert (i = i').
  { apply (NoDup_lookup _ i i' r Hnd); by rewrite list_lookup_fmap, ?Hi, ?Hi'. }
  subst i'. by simplify_eq.
Qed.

(** The last job of the list is stepped over exactly when the job right
    ahead of it has ended. *)
Lemma fates_snoc due l r :
  fates due false (l ++ [r]) =
  fates due false l ++
  [(r, if skip_after due false l then SteppedOver
       else if due r then Ended else Ticked)].
Proof.
  rewrite fates_app. simpl. by destruct (skip_after due false l), (due r).
Qed.

Lemma skip_after_snoc due s l p :
  skip_after due s (l ++ [p]) = if skip_after due s l then false else due p.
Proof. by rewrite skip_after_app. Qed.

Lemma skip_after_true due l :
  skip_after due false l = true ->
  exists l0 p, l = l0 ++ [p] /\ (p, Ended) ∈ fates due false l.
Proof.
  destruct l as [|x l _] using rev_ind; [done|].
  rewrite skip_after_snoc, fates_snoc. intros H. exists l, x. split; [done|].
  apply elem_of_app. right. apply list_elem_of_singleton.
  destruct (skip_after due false l); [done|]. by rewrite H.
Qed.

Lemma skip_after_ended due l0 p :
  NoDup (l0 ++ [p]) -> (p, Ended) ∈ fates due false (l0 ++ [p]) ->
  skip_after due false (l0 ++ [p]) = true.
Proof.
  intros Hnd. rewrite fates_snoc, skip_after_snoc.
  intros [Hin|Hin%list_elem_of_singleton]%elem_of_app.
  - exfalso. apply NoDup_app in Hnd as (_ & Hnd & _). apply (Hnd p).
    + rewrite <- (fates_fst due false l0). apply list_elem_of_fmap.
      by exists (p, Ended).
    + by left.
  - destruct (skip_after due false l0); [done|]. by destruct (due p).
Qed.

(** A job is stepped over only right behind a job that ended. *)
Lemma fates_stepped_over due l r :
  (r, SteppedOver) ∈ fates due false l ->
  exists l0 p l2, l = l0 ++ p :: r :: l2 /\ (p, Ended) ∈ fates due false l.
Proof.
  intros Hin. apply list_elem_of_split in Hin as (F1 & F2 & HF).
  assert (Hl : l = (fst <$> F1) ++ r :: (fst <$> F2)).
  { rewrite <- (fates_fst due false l), HF. by rewrite fmap_app. }
  rewrite Hl, fates_app in HF. simpl in HF.
  assert (Hlen : length (fates due false (fst <$> F1)) = length F1).
  { rewrite <- (length_fmap fst), fates_fst. by rewrite length_fmap. }
  apply app_inj_1 in HF as [HF1 HF2]; [|done].
  destruct (skip_after due false (fst <$> F1)) eqn:Hs.
  2:{ destruct (due r); simplify_eq. }
  apply skip_after_true in Hs as (l0 & p & Hl0 & Hp).
  exists l0, p, (fst <$> F2). split.
  - rewrite Hl, Hl0. by rewrite <- app_assoc.
  - rewrite Hl, fates_app. apply elem_of_app. by left.
Qed.

(** The job right behind one that ended is stepped over. *)
Lemma fates_behind_ended due l0 p r l2 :
  NoDup (l0 ++ p :: r :: l2) ->
  (p, Ended) ∈ fates due false (l0 ++ p :: r :: l2) ->
  (r, SteppedOver) ∈ fates due false (l0 ++ p :: r :: l2).
Proof.
  replace (l0 ++ p :: r :: l2) with ((l0 ++ [p]) ++ r :: l2)
    by (by rewrite <- app_assoc).
  rewrite fates_app. intros Hnd [Hin|Hin]%elem_of_app.
  - rewrite (skip_after_ended due l0 p); [| by apply NoDup_app in Hnd as (? & _) | done].
    apply elem_of_app. right. by left.
  - exfalso. apply NoDup_app in Hnd as (_ & Hnd & _). apply (Hnd p).
    + apply elem_of_app. right. by left.
    + rewrite <- (fates_fst due (skip_after due false (l0 ++ [p])) (r :: l2)).
      apply list_elem_of_fmap. by exists (p, Ended).
Qed.

Section fates.
Variable t : Z.
Variable w : World.
Hypothesis HInv : Inv w.

Lemma fates_step kept x rest w1 :
  fates_inv t w kept (x :: rest) w1 ->
  exists w2, jobs_tick_body x t w1 = Ok tt w2 /\
    (fates_inv t w (kept ++ [x]) rest w2 \/
     match rest with
     | [] => fates_inv t w kept [] w2
     | y :: rest' => fates_inv t w (kept ++ [y]) rest' w2
     end).
Proof.
  intros (Hrj1 & HInv1 & F & HF & HL & Hkept & Hmp & Hdone & Hout).
  destruct (jobs_tick_body_Inv w1 x t kept rest HInv1 Hrj1) as (w2 & Hbody & HInv2 & Hvis).
  exists w2. split; [done|].
  destruct Hvis as (j & j' & evs & Hj & Ht & Hj' & Hne & _ & _ & _ & Hcases).
  pose proof (Inv_running_NoDup _ HInv) as Hnd. rewrite HL in Hnd.
  destruct (NoDup_middle _ _ _ Hnd) as [HxF Hxr].
  assert (Hj0 : heap w !! x = Some j) by (by rewrite <- Hout).
  assert (Hdue : due t w x = bool_decide (Job.status j' = ENDED)).
  { unfold due. by rewrite Hj0, Ht. }
  assert (Hkeep : forall r f, (r, f) ∈ F -> fate_done t w w2 r f).
  { intros r f Hrf. specialize (Hdone r f Hrf).
    assert (Hrx : r <> x).
    { intros ->. apply HxF. apply list_elem_of_fmap. by exists (x, f). }
    unfold fate_done in *. rewrite (Hne r Hrx). done. }
  assert (Hout2 : forall r, r <> x -> r ∉ (fst <$> F) -> heap w2 !! r = heap w !! r).
  { intros r Hrx Hr. rewrite (Hne r Hrx). by apply Hout. }
  simpl in HF. destruct Hcases as [(Hlive & Hrj2 & Hmp2)|(He & Hrj2 & Hmp2)].
  - (* [x] is ticked and stays *)
    left. rewrite Hdue, bool_decide_false in HF by done.
    split_and!; [by rewrite <- app_assoc | done |].
    exists (F ++ [(x, Ticked)]). split_and!.
    + by rewrite <- app_assoc.
    + rewrite fmap_app. by rewrite <- app_assoc.
    + rewrite survivors_app. by rewrite Hkept.
    + rewrite ended_app. simpl. rewrite app_nil_r. congruence.
    + intros r f [Hrf|Hrf%list_elem_of_singleton]%elem_of_app; [by apply Hkeep|].
      injection Hrf as -> ->. exists j, j', evs. split_and!; try done.
    + intros r Hr. rewrite fmap_app, elem_of_app in Hr. simpl in Hr.
      apply Hout2; [|tauto]. intros ->. apply Hr. right. by left.
  - (* [x] is ticked and ends *)
    right. rewrite Hdue, bool_decide_true in HF by done.
    assert (Hmp3 : midplanes w2 =
                   free_all (released w (ended (F ++ [(x, Ended)]))) (midplanes w)).
    { rewrite ended_app, released_app, free_all_app. simpl.
      rewrite Hj0, app_nil_r. by rewrite <- Hmp. }
    assert (Hx : fate_done t w w2 x Ended).
    { exists j, j', evs. by split_and!. }
    destruct rest as [|y rest'].
    + split_and!; [done | done |].
      exists (F ++ [(x, Ended)]). split_and!.
      * by rewrite app_nil_r.
      * rewrite fmap_app. by rewrite app_nil_r in *.
      * rewrite survivors_app. simpl. by rewrite app_nil_r.
      * done.
      * intros r f [Hrf|Hrf%list_elem_of_singleton]%elem_of_app; [by apply Hkeep|].
        by injection Hrf as -> ->.
      * intros r Hr. rewrite fmap_app, elem_of_app in Hr. simpl in Hr.
        apply Hout2; [|tauto]. intros ->. apply Hr. right. by left.
    + simpl in HF.
      assert (Hyx : y <> x).
      { intros ->. apply Hxr. by left. }
      assert (HyF : y ∉ (fst <$> F)).
      { intros Hy. apply NoDup_app in Hnd as (_ & Hnd & _). apply (Hnd y Hy).
        right. by left. }
      split_and!; [by rewrite <- app_assoc | done |].
      exists (F ++ [(x, Ended); (y, SteppedOver)]). split_and!.
      * by rewrite <- app_assoc.
      * rewrite fmap_app. by rewrite <- app_assoc.
      * rewrite survivors_app. simpl. by rewrite Hkept.
      * rewrite Hmp3, !ended_app. simpl. done.
      * intros r f [Hrf|Hrf]%elem_of_app; [by apply Hkeep|].
        apply elem_of_cons in Hrf as [Hrf|Hrf%list_elem_of_singleton].
        -- by injection Hrf as -> ->.
        -- injection Hrf as -> ->. by apply Hout2.
      * intros r Hr. rewrite fmap_app, elem_of_app in Hr. simpl in Hr.
        rewrite !elem_of_cons in Hr.
        apply Hout2; [|tauto]. intros ->. apply Hr. right. by left.
Qed.

(** What [jobs_tick] does, job by job. *)
Lemma Mira_jobs_tick_fates :
  exists w',
    Mira_jobs_tick t w = Ok tt w' /\ Inv w' /\ swept w w' /\
    running_jobs w' = survivors (fates (due t w) false (running_jobs w)) /\
    midplanes w' =
      free_all (released w (ended (fates (due t w) false (running_jobs w))))
               (midplanes w) /\
    (forall r f, (r, f) ∈ fates (due t w) false (running_jobs w) ->
                 fate_done t w w' r f) /\
    (forall r, r ∉ running_jobs w -> heap w' !! r = heap w !! r).
Proof.
  destruct (Mira_jobs_tick_Inv w t HInv) as (w' & Hrun & HInv' & Hsw).
  exists w'. split_and!; try done.
  all: destruct (Mira_jobs_tick_sweep t (fates_inv t w)) with (w := w)
    as (kept' & w'' & Hrun' & Hrj' & _ & F & HF & HL & Hkept & Hmp & Hdone & Hout).
  all: try (by intros kept rest w0 (? & _)).
  all: try apply fates_step.
  all: try (split_and!; [done | done |]; exists []; split_and!; try done;
            [by intros r f ?%elem_of_nil]).
  all: rewrite Hrun in Hrun'; apply Outcome_Ok_inj in Hrun' as <-.
  all: simpl in HF; rewrite app_nil_r in HF, HL, Hrj'; try rewrite HF.
  - congruence.
  - done.
  - done.
  - intros r Hr. apply Hout. by rewrite <- HL.
Qed.
End fates.

(** Every job of the list is ticked once, or stepped over because the job
    right ahead of it ended in this sweep. *)
Lemma Mira_jobs_tick_each t w :
  Inv w ->
  exists w',
    Mira_jobs_tick t w = Ok tt w' /\ Inv w' /\ swept w w' /\
    forall l1 r l2, running_jobs w = l1 ++ r :: l2 ->
      ((exists j j' evs,
          heap w !! r = Some j /\ Job_ticked t j = Some (j', evs) /\
          heap w' !! r = Some j' /\
          (Job.status j' = ENDED <-> r ∉ running_jobs w')) \/
       (heap w' !! r = heap w !! r /\ r ∈ running_jobs w' /\
        exists l0 p j j' evs,
         l1 = l0 ++ [p] /\ heap w !! p = Some j /\
         Job_ticked t j = Some (j', evs) /\ Job.status j' = ENDED /\
         heap w' !! p = Some j' /\ (p ∉ running_jobs w'))) /\
      (forall l0 p, l1 = l0 ++ [p] -> p ∉ running_jobs w' ->
         heap w' !! r = heap w !! r /\ r ∈ running_jobs w').
Proof.
  intros HInv.
  destruct (Mira_jobs_tick_fates t w HInv)
    as (w' & Hrun & HInv' & Hsw & Hrj' & _ & Hdone & _).
  exists w'. split_and!; try done. intros l1 r l2 Hrj.
  pose proof (Inv_running_NoDup _ HInv) as Hnd.
  set (F := fates (due t w) false (running_jobs w)) in *.
  assert (Hfate : forall x, x ∈ running_jobs w -> exists f, (x, f) ∈ F).
  { intros x Hx. rewrite <- (fates_fst (due t w) false) in Hx.
    apply list_elem_of_fmap in Hx as ([x0 f] & -> & Hin). by exists f. }
  assert (Hgone : forall x, (x, Ended) ∈ F -> x ∉ running_jobs w').
  { intros x Hx. rewrite Hrj'. intros (f & Hf & Hne)%elem_of_survivors.
    by rewrite (fates_fate_unique _ _ _ _ _ _ Hnd Hx Hf) in Hne. }
  assert (Hstay : forall x f, (x, f) ∈ F -> f <> Ended -> x ∈ running_jobs w').
  { intros x f Hx Hne. rewrite Hrj'. apply elem_of_survivors. by exists f. }
  destruct (Hfate r) as [f Hf]; [rewrite Hrj; apply elem_of_middle|].
  split.
  2:{ intros l0 p -> Hp. rewrite <- app_assoc in Hrj. simpl in Hrj.
      assert (Hpe : (p, Ended) ∈ F).
      { destruct (Hfate p) as [fp Hfp]; [rewrite Hrj; apply elem_of_middle|].
        destruct fp; try done; exfalso; apply Hp; eapply Hstay; try done. }
      assert (Hrs : (r, SteppedOver) ∈ F).
      { unfold F in *. rewrite Hrj in *. by apply fates_behind_ended. }
      split; [apply (Hdone r SteppedOver Hrs) | by apply (Hstay r SteppedOver)]. }
  pose proof (Hdone r f Hf) as Hd. destruct f; simpl in Hd.
  - left. destruct Hd as (j & j' & evs & Hj & Ht & Hj' & Hiff).
    exists j, j', evs. split_and!; try done. split.
    + intros He. by apply Hiff in He.
    + intros Hr. exfalso. apply Hr. by apply (Hstay r Ticked).
  - left. destruct Hd as (j & j' & evs & Hj & Ht & Hj' & Hiff).
    exists j, j', evs. split_and!; try done. split; [intros _; by apply Hgone|].
    intros _. by apply Hiff.
  - right. split_and!; [done | by apply (Hstay r SteppedOver) |].
    destruct (fates_stepped_over _ _ _ Hf) as (l0 & p & l2' & Hl & Hp).
    assert (Heq : l1 ++ r :: l2 = (l0 ++ [p]) ++ r :: l2').
    { rewrite <- Hrj, Hl. by rewrite <- app_assoc. }
    rewrite Hrj in Hnd. destruct (NoDup_split_inj _ _ _ _ _ Hnd Heq) as [-> _].
    destruct (Hdone p Ended Hp) as (j & j' & evs & Hj & Ht & Hj' & Hiff).
    exists l0, p, j, j', evs. split_and!; try done; [by apply Hiff | by apply Hgone].
Qed.

(** * The claims *)

(** ** C1: every running job is ticked in every round *)

(** C1 (the code departs from it).  At tick 2 of [two_jobs] both jobs are
    running and due to end.  [jobs_tick] ends job 1, removes it from the list
    it is iterating, and so never reaches job 0: that job is not ticked, stays
    [RUNNING] past its end time and keeps its midplane. *)
Theorem jobs_tick_skips_a_running_job :
  let w := state_of (ticks 2 two_jobs) in
  let w' := state_of (Mira_jobs_tick 2 w) in
  running_jobs w = [1%nat; 0%nat] /\
  simulated_wallclock w = 2 /\
  (Job.status <$> heap w !! 0%nat) = Some RUNNING /\
  (Job.end_time <$> heap w !! 0%nat) = Some (Some 2) /\
  (Job.status <$> heap (state_of (Job_tick 0%nat 2 w)) !! 0%nat) = Some ENDED /\
  succeeds (Mira_jobs_tick 2 w) = true /\
  heap w' !! 0%nat = heap w !! 0%nat /\
  running_jobs w' = [0%nat] /\
  (MidPlane.status <$> midplanes w' !! 1%nat) = Some OCCUPIED.
Proof. vm_compute. done. Qed.

(** ** C2: releasing a vacant midplane *)

(** C2 (the code departs from it).  [free_up] on a midplane that is already
    vacant, and so has no job, does log the warning, but then aborts: the
    next log line reads [self.job.name] with [self.job] being [None], an
    [AttributeError].  Status and nodes are reset on the way, the log holds
    the warning. *)
Theorem free_up_vacant_raises w i m :
  midplanes w !! i = Some m ->
  MidPlane.status m = VACANT ->
  MidPlane.job m = None ->
  MidPlane_free_up i w =
  Raise AttributeError
    (with_mp i (MidPlane_cleared m) [MidplaneFreeAgain (MidPlane.name m)] w).
Proof.
  intros Hm Hs Hj. unfold MidPlane_free_up, MidPlane_is_vacant.
  rewrite bind_assoc. run_mp Hm.
  erewrite bind_Ok by (apply when_logging_mp, Hm). run_mp Hm.
  rewrite Hj. unfold MidPlane.is_vacant. rewrite bool_decide_true by done.
  done.
Qed.

Lemma free_up_vacant_raises_witness :
  MidPlane_free_up 0%nat scenario_A =
  Raise AttributeError
    (with_mp 0%nat (MidPlane_cleared (MidPlane.init "0")) [MidplaneFreeAgain "0"]
       scenario_A).
Proof. by apply (free_up_vacant_raises scenario_A 0%nat (MidPlane.init "0")). Defined.

(** ** C3: the end time of a started job *)

(** A job that is ticked no later than its end time keeps
    [end_time = start_time + duration], also when the tick ends it. *)
Lemma Job_ticked_on_time t j j' evs :
  Job_ticked t j = Some (j', evs) ->
  0 <= Job.duration j ->
  Job.status j = READY \/
  (Job.status j = RUNNING /\
   exists s e, Job.start_time j = Some s /\ Job.end_time j = Some e /\
               e = s + Job.duration j /\ t <= e) ->
  exists s e, Job.start_time j' = Some s /\ Job.end_time j' = Some e /\
              e = s + Job.duration j'.
Proof.
  intros Ht Hd [Hs|(Hs & s & e & Hst & He & Heq & Hle)].
  - rewrite Job_ticked_READY in Ht by done.
    destruct (t + Job.duration j <=? t) eqn:Hl; injection Ht as <- _.
    + apply Z.leb_le in Hl. exists t, t. cbn. split; [done|]. split; [done|]. lia.
    + exists t, (t + Job.duration j). cbn. by split_and!.
  - rewrite (Job_ticked_RUNNING _ _ e) in Ht by done.
    destruct (e <=? t) eqn:Hl; injection Ht as <- _.
    + apply Z.leb_le in Hl. exists s, t. cbn. split; [done|]. split; [done|]. lia.
    + exists s, e. by split_and!.
Qed.

(** C3 (the code departs from it).  The job skipped at tick 2 is ended one
    tick late, and [end] overwrites its end time with the wallclock: it ends
    with start time 1, duration 1 and end time 3. *)
Theorem skipped_job_ends_late :
  let w := state_of (ticks 4 two_jobs) in
  succeeds (ticks 4 two_jobs) = true /\
  (Job.status <$> heap w !! 0%nat) = Some ENDED /\
  (Job.start_time <$> heap w !! 0%nat) = Some (Some 1) /\
  (Job.duration <$> heap w !! 0%nat) = Some 1 /\
  (Job.end_time <$> heap w !! 0%nat) = Some (Some 3).
Proof. vm_compute. done. Qed.

(** ** C4: when an admitted job starts *)

Lemma Mira_schedule_admits_Inv w r q j :
  Inv w ->
  queue w = r :: q ->
  heap w !! r = Some j ->
  0 <= requested_midplanes j <= Z.of_nat (length (vacant_indices (midplanes w))) ->
  exists evs,
    let mps := take (Z.to_nat (requested_midplanes j)) (vacant_indices (midplanes w)) in
    Mira_schedule w = Ok tt (admitted_world r j mps evs w) /\
    Inv (admitted_world r j mps evs w) /\
    (r ∉ running_jobs w).
Proof.
  intros HInv Hq Hj Hk.
  destruct (Mira_schedule_admits w r q j Hq Hj) as [evs Hs].
  { by apply find_vacant_enough. }
  pose proof (Inv_admitted w r q j evs HInv Hq Hj) as HInv2.
  rewrite find_vacant_top, bool_decide_true in Hs, HInv2 by apply Hk.
  exists evs. split_and!; try done.
  apply (Inv_waiting_not_running w r HInv). right. rewrite Hq. by left.
Qed.

(** C4 (as amended).  A job the scheduler admits in the round of tick [T] is
    ticked in that same round, by the sweep that follows the scheduler: it
    starts at [T], not at [T + 1].  With a positive duration it is [RUNNING]
    with end time [T + duration] when the round is over; with any other
    duration it has ended already, with end time [T].  The one exception is
    the admitted job whose neighbour ahead in the running list ends in that
    sweep: the neighbour is ticked and leaves the list, and the sweep steps
    over the admitted job, which is still [READY] when the round is over.
    So in Scenario A (one 512-node job of duration 3 arriving at 0) the job
    is [RUNNING] with end time 3 after the round of tick 0, still [RUNNING]
    after the rounds of ticks 1 and 2, and the round of tick 3 ends it and
    frees its midplane. *)
Theorem admitted_job_starts_in_the_same_round w r q j :
  Inv w ->
  queue w = r :: q ->
  heap w !! r = Some j ->
  0 <= requested_midplanes j <= Z.of_nat (length (vacant_indices (midplanes w))) ->
  let T := simulated_wallclock w in
  let mps := take (Z.to_nat (requested_midplanes j)) (vacant_indices (midplanes w)) in
  (exists w',
    (Mira_schedule;; advance) w = Ok tt w' /\
    simulated_wallclock w' = T + 1 /\
    ((forall p, last (running_jobs w) = Some p -> p ∈ running_jobs w') ->
     exists j',
       heap w' !! r = Some j' /\
       Job.start_time j' = Some T /\
       (0 < Job.duration j ->
          Job.status j' = RUNNING /\ Job.end_time j' = Some (T + Job.duration j)
          /\ r ∈ running_jobs w') /\
       (Job.duration j <= 0 ->
          Job.status j' = ENDED /\ Job.end_time j' = Some T /\ (r ∉ running_jobs w'))) /\
    (forall p, last (running_jobs w) = Some p -> p ∉ running_jobs w' ->
       (exists jp jp' evs,
          heap w !! p = Some jp /\ Job_ticked T jp = Some (jp', evs) /\
          heap w' !! p = Some jp' /\ Job.status jp' = ENDED) /\
       heap w' !! r = Some (Job_admitted mps j) /\
       r ∈ running_jobs w')) /\
  (let a1 := state_of (ticks 1 scenario_A) in
   let a3 := state_of (ticks 3 scenario_A) in
   let a4 := state_of (ticks 4 scenario_A) in
   Job.status <$> heap a1 !! 0%nat = Some RUNNING /\
   Job.start_time <$> heap a1 !! 0%nat = Some (Some 0) /\
   Job.end_time <$> heap a1 !! 0%nat = Some (Some 3) /\
   Job.status <$> heap a3 !! 0%nat = Some RUNNING /\
   MidPlane.status <$> midplanes a3 !! 0%nat = Some OCCUPIED /\
   simulated_wallclock a3 = 3 /\
   Job.status <$> heap a4 !! 0%nat = Some ENDED /\
   Job.end_time <$> heap a4 !! 0%nat = Some (Some 3) /\
   MidPlane.status <$> midplanes a4 !! 0%nat = Some VACANT).
Proof.
  intros HInv Hq Hj Hk T mps. split; [|by vm_compute].
  destruct (Mira_schedule_admits_Inv w r q j HInv Hq Hj Hk) as (evs & Hs & HInv2 & Hrn).
  fold mps in Hs, HInv2. set (w2 := admitted_world r j mps evs w) in *.
  assert (Hrj2 : running_jobs w2 = running_jobs w ++ r :: []) by done.
  assert (Hj2 : heap w2 !! r = Some (Job_admitted mps j)).
  { simpl. apply list_lookup_insert_eq. by eapply lookup_lt_Some. }
  destruct (Mira_jobs_tick_each T w2 HInv2) as (w3 & Hrun & HInv3 & Hsw & Heach).
  destruct Hsw as (_ & _ & Hc3 & _).
  destruct (Heach (running_jobs w) r [] Hrj2) as [Hcases Hbehind].
  exists (set_simulated_wallclock (T + 1) w3). split_and!.
  - rewrite (bind_Ok _ _ _ _ _ Hs). unfold advance. rewrite bind_gets.
    change (simulated_wallclock w2) with T. rewrite (bind_Ok _ _ _ _ _ Hrun).
    unfold Mira_inc_wallclock, modify. by rewrite Hc3.
  - done.
  - (* the job ahead stays: the admitted job is ticked *)
    intros Hahead. simpl in Hahead. simpl. destruct Hcases as [Ht|Hsk].
    + destruct Ht as (j0 & j' & evs' & Hj0 & Htk & Hj' & Hiff). simplify_eq.
      exists j'. rewrite Job_ticked_READY in Htk by done. simpl in Htk.
      destruct (T + Job.duration j <=? T) eqn:Hle; simplify_eq.
      * apply Z.leb_le in Hle. split_and!; [done | done | intros; lia |].
        intros _. split_and!; [done | done |]. by apply Hiff.
      * apply Z.leb_gt in Hle. split_and!; [done | done | | intros; lia].
        intros _. split_and!; [done | done |].
        destruct (decide (r ∈ running_jobs w3)) as [|Hn]; [done|].
        by apply Hiff in Hn.
    + exfalso.
      destruct Hsk as (_ & _ & l0 & p & jp & jp' & evs' & Hl1 & _ & _ & _ & _ & Hgone).
      apply Hgone, Hahead. rewrite Hl1. apply last_snoc.
  - (* the job ahead ends: the admitted job is stepped over *)
    intros p Hp Hgone. simpl in Hgone. simpl.
    apply last_Some in Hp as [l0 Hl0].
    destruct (Hbehind l0 p Hl0 Hgone) as [Hsame Hin].
    split_and!; [| by rewrite Hsame | done].
    assert (Hrj2' : running_jobs w2 = l0 ++ p :: [r]).
    { rewrite Hrj2, Hl0. by rewrite <- app_assoc. }
    assert (Hpr : p <> r).
    { intros ->. apply Hrn. rewrite Hl0. apply elem_of_app. right. by left. }
    destruct (Heach l0 p [r] Hrj2') as [[Ht|Hsk] _].
    + destruct Ht as (jp & jp' & evs' & Hjp & Htk & Hjp' & Hiff).
      exists jp, jp', evs'. split_and!; try done; [|by apply Hiff].
      simpl in Hjp. by rewrite list_lookup_insert_ne in Hjp.
    + by destruct Hsk as (_ & ? & _).
Qed.

(** The round after the first one of two jobs submitted together: [A] is
    running and stays; [B], admitted at tick 1, starts at tick 1. *)
Lemma admitted_job_starts_in_the_same_round_witness :
  let w := state_of (tick two_jobs) in
  running_jobs w = [1%nat] /\ simulated_wallclock w = 1 /\
  exists w' j',
    (Mira_schedule;; advance) w = Ok tt w' /\
    simulated_wallclock w' = 1 + 1 /\
    heap w' !! 0%nat = Some j' /\
    Job.start_time j' = Some 1 /\
    Job.status j' = RUNNING /\
    Job.end_time j' = Some (1 + 1) /\
    0%nat ∈ running_jobs w'.
Proof.
  split; [by vm_compute|]. split; [by vm_compute|].
  destruct (admitted_job_starts_in_the_same_round (state_of (tick two_jobs)) 0%nat []
              (Job_submitted 0 (Job.init "B" 0 1 512 "0")))
    as [(w' & Hrun & Hc & Hstart & _) _].
  - apply well_formed_Inv. by vm_compute.
  - by vm_compute.
  - by vm_compute.
  - by vm_compute.
  - assert (Hw' : w' = state_of ((Mira_schedule;; advance) (state_of (tick two_jobs))))
      by (by rewrite Hrun).
    destruct Hstart as (j' & Hj' & Hst & Hpos & _).
    { intros p Hp. vm_compute in Hp. injection Hp as <-.
      rewrite Hw'. vm_compute. apply list_elem_of_here. }
    exists w', j'. destruct Hpos as (? & ? & ?); [simpl; lia|]. by split_and!.
Defined.

(** The exception at work: [B] arrives and is admitted in the round of
    tick 1, behind [A], which ends in that round; the sweep steps over [B],
    which is still [READY] after the round and starts at tick 2. *)
Example admitted_behind_an_ending_job :
  let w1 := state_of (ticks 1 handover) in
  let w2 := state_of (ticks 2 handover) in
  let w3 := state_of (ticks 3 handover) in
  succeeds (ticks 3 handover) = true /\
  running_jobs w1 = [1%nat] /\ trace_jobs w1 = [0%nat] /\
  Job.status <$> heap w2 !! 1%nat = Some ENDED /\
  Job.status <$> heap w2 !! 0%nat = Some READY /\
  Job.start_time <$> heap w2 !! 0%nat = Some None /\
  running_jobs w2 = [0%nat] /\
  Job.status <$> heap w3 !! 0%nat = Some RUNNING /\
  Job.start_time <$> heap w3 !! 0%nat = Some (Some 2).
Proof. vm_compute. by split_and!. Qed.

(** C4 as stated fails: in Scenario A the round of tick 0, the one that
    admits the job, already starts it, as its log shows; the job does not
    wait for tick 1. *)
Lemma scenario_A_starts_at_tick_0 :
  let w := state_of (tick scenario_A) in
  simulated_wallclock scenario_A = 0 /\
  succeeds (tick scenario_A) = true /\
  log w = [Printed 0; JobSubmitted "A" 0; MiraFound "A"; JobAssigned "A" "0";
           MidplaneAssigned "0" "A"; JobReady "A"; JobStarted "A" 0 3] /\
  Job.status <$> heap w !! 0%nat = Some RUNNING /\
  Job.start_time <$> heap w !! 0%nat = Some (Some 0) /\
  Job.start_time <$> heap w !! 0%nat <> Some (Some 1).
Proof. vm_compute. by split_and!. Qed.

(** ** C5: how many midplanes a job is given *)

(** C5.  For the job at the head of the queue the scheduler looks for
    [requested_nodes // 512] midplanes, the floor of the quotient: a request
    below one midplane gives 0, one between one and two midplanes gives 1.
    When the pool has that many vacant midplanes the job is admitted on
    exactly that many (the first ones in pool order), never one more;
    otherwise nothing happens. *)
Theorem schedule_rounds_down w r q j :
  queue w = r :: q ->
  heap w !! r = Some j ->
  let n := Job.num_of_requested_nodes j in
  let k := requested_midplanes j in
  let vacant := vacant_indices (midplanes w) in
  k = n `div` 512 /\
  512 * k <= n < 512 * k + 512 /\
  (0 <= n < 512 -> k = 0) /\
  (512 <= n < 1024 -> k = 1) /\
  (0 <= k <= Z.of_nat (length vacant) ->
   Z.of_nat (length (take (Z.to_nat k) vacant)) = k /\
   exists evs,
     Mira_schedule w = Ok tt (admitted_world r j (take (Z.to_nat k) vacant) evs w)) /\
  (~ (0 <= k <= Z.of_nat (length vacant)) -> Mira_schedule w = Ok tt w).
Proof.
  intros Hq Hj n k vacant. subst n k vacant. unfold requested_midplanes at 1 2 3 4 5.
  set (n := Job.num_of_requested_nodes j).
  pose proof (Z.div_mod n 512 ltac:(lia)) as Hdm.
  pose proof (Z.mod_pos_bound n 512 ltac:(lia)) as Hmod.
  split; [done|]. split; [lia|]. split; [|split; [|split]].
  - intros Hn. by apply Z.div_small.
  - intros Hn. symmetry. apply Z.div_unique with (n - 512); lia.
  - intros Hk. split.
    + rewrite length_take. lia.
    + destruct (Mira_schedule_admits w r q j Hq Hj) as [evs Hs].
      { by apply find_vacant_enough. }
      exists evs. rewrite Hs. rewrite find_vacant_top, bool_decide_true by apply Hk.
      done.
  - intros Hk. apply (Mira_schedule_blocked w r q j Hq Hj).
    by rewrite find_vacant_enough.
Qed.

Lemma schedule_rounds_down_witness :
  requested_midplanes (Job_submitted 0 (Job.init "D" 0 2 513 "0")) = 1 /\
  exists evs,
    Mira_schedule one_node_over_a_midplane =
    Ok tt (admitted_world 0%nat (Job_submitted 0 (Job.init "D" 0 2 513 "0")) [0%nat] evs
             one_node_over_a_midplane).
Proof.
  destruct (schedule_rounds_down one_node_over_a_midplane 0%nat []
              (Job_submitted 0 (Job.init "D" 0 2 513 "0")) eq_refl eq_refl)
    as (_ & _ & _ & H1 & Hadm & _).
  split; [apply H1; simpl; lia|].
  destruct Hadm as [_ Hadm]; [by vm_compute|]. exact Hadm.
Defined.

(** ** C6: a job larger than the pool *)

(** C6 (as amended).  A job that asks for at least 49664 nodes is looked for
    97 midplanes or more, which the pool of 96 never has: whatever else the
    trace holds, the job stays in the trace or in the queue, never joins the
    running jobs, and the main loop is still going after any number of
    rounds. *)
Theorem oversized_job_never_admitted jobs b j :
  jobs !! b = Some j ->
  49664 <= Job.num_of_requested_nodes j ->
  forall n, exists w,
    simulation n (initial jobs) = Ok false w /\
    (b ∈ trace_jobs w \/ b ∈ queue w) /\
    (b ∉ running_jobs w) /\
    loop_cond w = true.
Proof.
  intros Hj Hbig n.
  destruct (simulation_oversized n (initial jobs) b) as (w & Hs & HInv & _ & Hw).
  - apply Inv_initial.
  - exists j. split; [done|]. unfold requested_midplanes.
    apply Z.lt_le_trans with (49664 `div` 512); [done|].
    by apply Z.div_le_mono.
  - left. simpl. apply elem_of_seq. apply lookup_lt_Some in Hj. lia.
  - exists w. split_and!; try done.
    + by eapply Inv_waiting_not_running.
    + by eapply loop_cond_waiting.
Qed.

Lemma oversized_job_never_admitted_witness :
  exists w,
    simulation 1000 (initial [Job.init "X" 0 0 49664 "0"]) = Ok false w /\
    (0%nat ∈ trace_jobs w \/ 0%nat ∈ queue w) /\
    (0%nat ∉ running_jobs w) /\
    loop_cond w = true.
Proof.
  apply (oversized_job_never_admitted [Job.init "X" 0 0 49664 "0"] 0%nat
           (Job.init "X" 0 0 49664 "0")).
  - reflexivity.
  - simpl. lia.
Defined.

(** C6 as stated fails: a job of 49153 nodes, one more than the pool has, is
    looked for 96 midplanes, gets them all on an idle pool, runs, and the
    main loop ends after one round. *)
Lemma one_node_too_many_is_admitted :
  49152 < 49153 /\
  (Job.num_of_requested_nodes <$> heap one_node_too_many !! 0%nat) = Some 49153 /\
  match simulation 5 one_node_too_many with
  | Ok true w =>
      (Job.status <$> heap w !! 0%nat) = Some ENDED /\
      (length ∘ Job.midplanes <$> heap w !! 0%nat) = Some 96%nat /\
      simulated_wallclock w = 1
  | _ => False
  end.
Proof. vm_compute. done. Qed.

(** ** C7: a head of the queue that does not fit *)

(** C7.  When the pool has fewer vacant midplanes than the head of the queue
    is looked for, a call of the scheduler changes nothing at all: queue,
    midplanes, running jobs, job objects and log stay as they are.  A round
    that meets such a head calls the scheduler once, after the arrivals, and
    admits nobody, whatever the jobs behind the head ask for: the queue keeps
    its jobs in order, the arrivals of the round at its end, and the running
    list only loses jobs. *)
Theorem blocked_head_blocks_the_queue w r q j :
  queue w = r :: q ->
  heap w !! r = Some j ->
  Z.of_nat (length (vacant_indices (midplanes w))) < requested_midplanes j ->
  Mira_schedule w = Ok tt w /\
  (Mira_schedule;; advance) w = advance w /\
  (Inv w ->
   exists pulled w',
     tick w = Ok tt w' /\
     queue w' = r :: q ++ pulled /\
     running_jobs w' `sublist_of` running_jobs w).
Proof.
  intros Hq Hj Hlt.
  assert (Hblocked : Mira_schedule w = Ok tt w).
  { apply (Mira_schedule_blocked w r q j Hq Hj). rewrite find_vacant_enough. lia. }
  split_and!; [done | by rewrite (bind_Ok _ _ _ _ _ Hblocked) |].
  intros HInv.
  destruct (tick_Inv w HInv)
    as (pulled & w1 & w2 & w3 & _ & Hd & Hs & _ & _ & Hsw & Ht & _ & HInv1 & _).
  destruct Hd as (_ & Hq1 & Hrun1 & Hmp1 & _ & Hreq1 & _ & _ & Hout1 & _).
  assert (Hrp : r ∉ pulled).
  { intros Hin. pose proof (inv_nodup _ HInv1) as Hnd.
    apply NoDup_app in Hnd as (_ & _ & Hnd). apply NoDup_app in Hnd as (Hnd & _).
    rewrite Hq1, Hq in Hnd. simpl in Hnd. apply NoDup_cons in Hnd as [Hnd _].
    apply Hnd. apply elem_of_app. by right. }
  assert (Hblocked1 : Mira_schedule w1 = Ok tt w1).
  { apply (Mira_schedule_blocked w1 r (q ++ pulled) j).
    - by rewrite Hq1, Hq.
    - by rewrite Hout1.
    - rewrite find_vacant_enough, Hmp1. lia. }
  rewrite Hblocked1 in Hs. simplify_eq.
  destruct Hsw as (Hq3 & _ & _ & Hsub & _).
  exists pulled. eexists. split; [exact Ht|]. simpl. split.
  - by rewrite Hq3, Hq1, Hq.
  - by rewrite <- Hrun1.
Qed.

Lemma blocked_head_blocks_the_queue_witness :
  Mira_schedule blocked_queue = Ok tt blocked_queue /\
  (Mira_schedule;; advance) blocked_queue = advance blocked_queue /\
  exists pulled w',
    tick blocked_queue = Ok tt w' /\
    queue w' = 1%nat :: [0%nat] ++ pulled /\
    running_jobs w' `sublist_of` running_jobs blocked_queue.
Proof.
  destruct (blocked_head_blocks_the_queue blocked_queue 1%nat [0%nat]
              (Job_submitted 0 (Job.init "big2" 0 5 25088 "0")))
    as (Hs & Hadv & Hround).
  - by vm_compute.
  - by vm_compute.
  - by vm_compute.
  - split_and!; [exact Hs | exact Hadv |].
    apply Hround. apply well_formed_Inv. by vm_compute.
Defined.

(** ** C8: the order of a round *)

Lemma arrival_same_requests w w' r : same_requests w w' -> arrival w' r = arrival w r.
Proof.
  intros Hreq. specialize (Hreq r). unfold arrival.
  destruct (heap w' !! r), (heap w !! r); simpl in *; try done.
  unfold Job_request in Hreq. by inversion Hreq.
Qed.

(** Once the jobs due are pulled, every job left in the trace arrives later. *)
Lemma drained_later w w1 pulled :
  Inv w -> feed_ordered w -> feed_in_time w -> drained pulled w w1 ->
  forall r, r ∈ trace_jobs w1 ->
    exists a, arrival w r = Some a /\ simulated_wallclock w < a.
Proof.
  intros HInv Hord Htime (Htr & _ & _ & _ & _ & _ & _ & Hlast & _) r Hr.
  assert (Hsome : forall y, y ∈ trace_jobs w1 -> exists a, arrival w y = Some a).
  { intros y Hy. destruct (inv_refs _ HInv y) as [jy Hjy].
    - rewrite Htr. rewrite !elem_of_app. tauto.
    - exists (Job.submitted_time jy). unfold arrival. by rewrite Hjy. }
  destruct (last (trace_jobs w1)) as [x|] eqn:Hx.
  2:{ apply last_None in Hx. rewrite Hx in Hr. by apply elem_of_nil in Hr. }
  destruct (proj1 (last_Some _ _) Hx) as [tj Htj].
  destruct (Hsome x) as [ax Hax]; [rewrite Htj; apply elem_of_app; right; by left|].
  assert (Hgt : simulated_wallclock w < ax).
  { assert (simulated_wallclock w <= ax).
    { apply (Htime x); [|done]. rewrite Htr, Htj, !elem_of_app.
      left. right. by left. }
    assert (ax <> simulated_wallclock w).
    { intros ->. by apply (Hlast x). }
    lia. }
  destruct (Hsome r Hr) as [a Ha]. exists a. split; [done|].
  rewrite Htj in Hr. apply elem_of_app in Hr as [Hr|Hr].
  - apply list_elem_of_split in Hr as (k1 & k2 & ->).
    assert (ax <= a); [|lia].
    apply (Hord k1 r (k2 ++ [x] ++ reverse pulled) x a ax); try done.
    + rewrite Htr, Htj. by rewrite <- !app_assoc.
    + rewrite !elem_of_app. right. left. by left.
  - apply list_elem_of_singleton in Hr as ->. by simplify_eq.
Qed.

(** A round on a well-formed state with an ordered feed, step by step. *)
Lemma round_steps w :
  Inv w -> feed_ordered w -> feed_in_time w ->
  let T := simulated_wallclock w in
  exists pulled w1 w2 w3,
    arrivals (length (trace_jobs w)) w = Ok tt w1 /\
    trace_jobs w = trace_jobs w1 ++ reverse pulled /\
    queue w1 = queue w ++ pulled /\
    (forall r, r ∈ pulled -> arrival w r = Some T) /\
    (forall r, r ∈ trace_jobs w1 -> exists a, arrival w r = Some a /\ T < a) /\
    simulated_wallclock w1 = T /\
    Mira_schedule w1 = Ok tt w2 /\
    simulated_wallclock w2 = T /\
    Mira_jobs_tick T w2 = Ok tt w3 /\
    simulated_wallclock w3 = T /\
    tick w = Ok tt (set_simulated_wallclock (T + 1) w3) /\
    Inv (set_simulated_wallclock (T + 1) w3) /\
    feed_ordered (set_simulated_wallclock (T + 1) w3) /\
    feed_in_time (set_simulated_wallclock (T + 1) w3).
Proof.
  intros HInv Hord Htime T.
  destruct (tick_Inv w HInv)
    as (pulled & w1 & w2 & w3 & Ha & Hd & Hs & Hsch & Hj & Hsw & Ht & Hc3 & _ & _ & _ & HInv').
  pose proof (drained_later w w1 pulled HInv Hord Htime Hd) as Hlater.
  destruct (scheduled_frame _ _ Hsch) as (Htr2 & Hc2 & Hreq2).
  pose proof Hd as (Htr1 & Hq1 & _ & _ & Hc1 & Hreq1 & Hdue & _).
  destruct Hsw as (_ & Htr3 & _ & _ & _ & Hreq3).
  assert (Harr : forall r, arrival (set_simulated_wallclock (T + 1) w3) r = arrival w r).
  { intros r. change (arrival w3 r = arrival w r).
    by rewrite (arrival_same_requests _ _ _ Hreq3), (arrival_same_requests _ _ _ Hreq2),
      (arrival_same_requests _ _ _ Hreq1). }
  assert (Htr' : trace_jobs (set_simulated_wallclock (T + 1) w3) = trace_jobs w1).
  { simpl. congruence. }
  exists pulled, w1, w2, w3. split_and!; try done.
  - unfold T. congruence.
  - intros l1 r l2 r' a a' Hl Hr'. rewrite !Harr. rewrite Htr' in Hl.
    apply (Hord l1 r (l2 ++ reverse pulled) r').
    + rewrite Htr1, Hl. by rewrite <- app_assoc.
    + apply elem_of_app. by left.
  - intros r a Hr. rewrite Harr. rewrite Htr' in Hr. simpl.
    destruct (Hlater r Hr) as (a' & Ha' & Hlt). intros ?. simplify_eq. fold T. lia.
Qed.

(** A trace sorted as [parse_trace_file] leaves it, latest submission first
    and none before tick 0, makes an ordered feed. *)
Lemma feed_ordered_initial jobs :
  (forall i i' j j', (i < i')%nat -> jobs !! i = Some j -> jobs !! i' = Some j' ->
                     Job.submitted_time j' <= Job.submitted_time j) ->
  feed_ordered (initial jobs).
Proof.
  intros Hsorted l1 r l2 r' a a' Hl Hr' Ha Ha'. simpl in Hl. unfold arrival in *.
  simpl in Ha, Ha'.
  destruct (jobs !! r) as [j|] eqn:Hj; [|done].
  destruct (jobs !! r') as [j'|] eqn:Hj'; [|done]. simpl in *. simplify_eq.
  apply (Hsorted r r'); try done.
  assert (Hr : seq 0 (length jobs) !! length l1 = Some r).
  { rewrite Hl. by apply list_lookup_middle. }
  apply lookup_seq in Hr as [-> _].
  apply list_elem_of_lookup in Hr' as [k Hk].
  assert (Hr2 : seq 0 (length jobs) !! (length l1 + S k)%nat = Some r').
  { rewrite Hl. rewrite lookup_app_r by lia.
    by replace (length l1 + S k - length l1)%nat with (S k) by lia. }
  apply lookup_seq in Hr2 as [-> _]. lia.
Qed.

Lemma feed_in_time_initial jobs :
  (forall i j, jobs !! i = Some j -> 0 <= Job.submitted_time j) ->
  feed_in_time (initial jobs).
Proof.
  intros Hpos r a _ Ha. unfold arrival in Ha. simpl in *.
  destruct (jobs !! r) as [j|] eqn:Hj; [|done]. simpl in Ha. simplify_eq.
  by apply (Hpos r).
Qed.

(** So from the start of the simulation on, every round of a sorted trace
    finds a well-formed state and an ordered feed, and raises nothing. *)
Lemma rounds_keep_the_feed_ordered jobs n :
  feed_ordered (initial jobs) -> feed_in_time (initial jobs) ->
  exists w, ticks n (initial jobs) = Ok tt w /\
            Inv w /\ feed_ordered w /\ feed_in_time w /\
            simulated_wallclock w = Z.of_nat n.
Proof.
  intros Hord Htime.
  assert (Hgen : forall w, Inv w -> feed_ordered w -> feed_in_time w ->
    exists w', ticks n w = Ok tt w' /\ Inv w' /\ feed_ordered w' /\ feed_in_time w' /\
               simulated_wallclock w' = simulated_wallclock w + Z.of_nat n).
  { induction n as [|n IH]; intros w HInv Ho Ht.
    - exists w. split_and!; try done. lia.
    - destruct (round_steps w HInv Ho Ht)
        as (pulled & w1 & w2 & w3 & _ & _ & _ & _ & _ & _ & _ & _ & _ & _ & Htick
            & HInv' & Ho' & Ht').
      destruct (IH _ HInv' Ho' Ht') as (w' & Hrun & ? & ? & ? & Hc).
      exists w'. rewrite (ticks_S _ _ _ Htick). split_and!; try done.
      rewrite Hc. simpl. lia. }
  destruct (Hgen (initial jobs) (Inv_initial jobs) Hord Htime) as (w & ? & ? & ? & ? & Hc).
  exists w. split_and!; try done.
Qed.

(** C8.  A round on a well-formed state with an ordered feed runs its four
    steps in this order and raises nothing.  First the inner loop pulls
    exactly the jobs arriving at the current wallclock [T] from the end of
    the trace and submits them: they join the queue in the order they are
    pulled, [QUEUED] with submission time [T]; only jobs that arrive later
    are left in the trace, and nothing else changes.  The scheduler is then
    called once: it admits the head of the queue if the midplanes it finds
    are as many as the job asks for, and does nothing otherwise.  The
    running jobs are then swept at [T]: each of them is ticked once (and
    leaves the list exactly if the tick ends it), except a job standing
    right behind one that ends in this sweep, which is stepped over (C1).
    Last the wallclock becomes [T + 1].  The state so reached is well-formed
    with an ordered feed again, so this holds round after round.  And
    [get_job] only ever returns a job at the tick the job arrives. *)
Theorem round_protocol w :
  Inv w -> feed_ordered w -> feed_in_time w ->
  let T := simulated_wallclock w in
  exists pulled w1 w2 w3,
    arrivals (length (trace_jobs w)) w = Ok tt w1 /\
    trace_jobs w = trace_jobs w1 ++ reverse pulled /\
    queue w1 = queue w ++ pulled /\
    (forall r, r ∈ pulled -> arrival w r = Some T) /\
    (forall r, r ∈ pulled ->
       exists j1, heap w1 !! r = Some j1 /\ Job.status j1 = QUEUED /\
                  Job.submitted_time j1 = T) /\
    (forall r, r ∉ pulled -> heap w1 !! r = heap w !! r) /\
    running_jobs w1 = running_jobs w /\
    midplanes w1 = midplanes w /\
    (forall r, r ∈ trace_jobs w1 -> exists a, arrival w r = Some a /\ T < a) /\
    simulated_wallclock w1 = T /\
    Mira_schedule w1 = Ok tt w2 /\
    (queue w1 = [] -> w2 = w1) /\
    (forall h q j, queue w1 = h :: q -> heap w1 !! h = Some j ->
       let found := find_vacant (requested_midplanes j) 0%nat (midplanes w1) [] in
       (Z.of_nat (length found) = requested_midplanes j ->
          exists evs, w2 = admitted_world h j found evs w1) /\
       (Z.of_nat (length found) <> requested_midplanes j -> w2 = w1)) /\
    simulated_wallclock w2 = T /\
    Mira_jobs_tick T w2 = Ok tt w3 /\
    (forall l1 r l2, running_jobs w2 = l1 ++ r :: l2 ->
       (exists j j' evs,
          heap w2 !! r = Some j /\ Job_ticked T j = Some (j', evs) /\
          heap w3 !! r = Some j' /\
          (Job.status j' = ENDED <-> r ∉ running_jobs w3)) \/
       (heap w3 !! r = heap w2 !! r /\ r ∈ running_jobs w3 /\
        exists l0 p j j' evs,
          l1 = l0 ++ [p] /\ heap w2 !! p = Some j /\
          Job_ticked T j = Some (j', evs) /\ Job.status j' = ENDED /\
          heap w3 !! p = Some j' /\ (p ∉ running_jobs w3))) /\
    (forall r, r ∉ running_jobs w2 -> heap w3 !! r = heap w2 !! r) /\
    queue w3 = queue w2 /\
    trace_jobs w3 = trace_jobs w2 /\
    simulated_wallclock w3 = T /\
    tick w = Ok tt (set_simulated_wallclock (T + 1) w3) /\
    Inv (set_simulated_wallclock (T + 1) w3) /\
    feed_ordered (set_simulated_wallclock (T + 1) w3) /\
    feed_in_time (set_simulated_wallclock (T + 1) w3) /\
    (forall t0 w0 r0 w0',
        Trace_get_job t0 w0 = Ok (Some r0) w0' -> arrival w0 r0 = Some t0).
Proof.
  intros HInv Hord Htime T.
  destruct (round_steps w HInv Hord Htime)
    as (pulled & w1 & w2 & w3 & H1 & H2 & H3 & H4 & H5 & H6 & H7 & H8 & H9 & H10 & H11
        & H12 & H13 & H14).
  subst T.
  (* what the inner loop did *)
  destruct (arrivals_Inv (length (trace_jobs w)) w HInv) as (w1' & pulled' & Ha & HInv1 & Hd);
    [done|].
  rewrite H1 in Ha. apply Outcome_Ok_inj in Ha as <-.
  assert (pulled' = pulled) as ->.
  { destruct Hd as (Htr & _). rewrite H2 in Htr. apply app_inv_head in Htr.
    apply (f_equal reverse) in Htr. by rewrite !reverse_involutive in Htr. }
  destruct Hd as (_ & _ & Hrj1 & Hmp1 & _ & Hreq1 & _ & _ & Hout1 & Hin1).
  (* what the scheduler did *)
  destruct (Mira_schedule_Inv w1 HInv1) as (w2' & Hs & HInv2 & _).
  rewrite H7 in Hs. apply Outcome_Ok_inj in Hs as <-.
  (* what the sweep did *)
  destruct (Mira_jobs_tick_each (simulated_wallclock w) w2 HInv2)
    as (w3' & Hj & _ & Hsw & Heach).
  rewrite H9 in Hj. apply Outcome_Ok_inj in Hj as <-.
  destruct Hsw as (Hq3 & Htr3 & _ & _ & Hout3 & _).
  exists pulled, w1, w2, w3. split_and!; try done.
  - intros r Hr. specialize (Hin1 r Hr).
    pose proof (arrival_same_requests _ _ r Hreq1) as Harr.
    rewrite (H4 r Hr) in Harr. unfold arrival in Harr.
    destruct (heap w1 !! r) as [j1|]; [|done]. simpl in *.
    exists j1. split_and!; congruence.
  - intros Hq. rewrite (Mira_schedule_empty w1 Hq) in H7.
    by apply Outcome_Ok_inj in H7.
  - intros h q j Hq Hh found. split.
    + intros Heq. destruct (Mira_schedule_admits w1 h q j Hq Hh Heq) as [evs Hs].
      rewrite Hs in H7. apply Outcome_Ok_inj in H7. by exists evs.
    + intros Hne. rewrite (Mira_schedule_blocked w1 h q j Hq Hh Hne) in H7.
      by apply Outcome_Ok_inj in H7.
  - intros l1 r l2 Hrj. by destruct (Heach l1 r l2 Hrj) as [? _].
  - intros t0 w0 r0 w0' Hg. by apply Trace_get_job_due in Hg as (_ & ? & _).
Qed.

(** The first round of two jobs submitted together: both are pulled and
    queued, the first one pulled is admitted and ticked, and the wallclock
    becomes 1. *)
Lemma round_protocol_witness :
  exists pulled w1 w2 w3,
    arrivals (length (trace_jobs two_jobs)) two_jobs = Ok tt w1 /\
    trace_jobs two_jobs = trace_jobs w1 ++ reverse pulled /\
    queue w1 = queue two_jobs ++ pulled /\
    (forall r, r ∈ pulled ->
       exists j1, heap w1 !! r = Some j1 /\ Job.status j1 = QUEUED /\
                  Job.submitted_time j1 = 0) /\
    Mira_schedule w1 = Ok tt w2 /\
    Mira_jobs_tick 0 w2 = Ok tt w3 /\
    (forall l1 r l2, running_jobs w2 = l1 ++ r :: l2 ->
       (exists j j' evs,
          heap w2 !! r = Some j /\ Job_ticked 0 j = Some (j', evs) /\
          heap w3 !! r = Some j' /\
          (Job.status j' = ENDED <-> r ∉ running_jobs w3)) \/
       (heap w3 !! r = heap w2 !! r /\ r ∈ running_jobs w3 /\
        exists l0 p j j' evs,
          l1 = l0 ++ [p] /\ heap w2 !! p = Some j /\
          Job_ticked 0 j = Some (j', evs) /\ Job.status j' = ENDED /\
          heap w3 !! p = Some j' /\ (p ∉ running_jobs w3))) /\
    tick two_jobs = Ok tt (set_simulated_wallclock (0 + 1) w3) /\
    Inv (set_simulated_wallclock (0 + 1) w3).
Proof.
  destruct (round_protocol two_jobs)
    as (pulled & w1 & w2 & w3 & H1 & H2 & H3 & _ & H5 & _ & _ & _ & _ & _ & H11 & _ & _
        & _ & H15 & H16 & _ & _ & _ & _ & H21 & H22 & _).
  - apply well_formed_Inv. by vm_compute.
  - apply feed_ordered_initial. intros i i' j j' Hlt Hi Hi'.
    destruct i as [|[|?]], i' as [|[|?]]; simplify_eq/=; lia.
  - apply feed_in_time_initial. intros i j Hi.
    destruct i as [|[|?]]; by simplify_eq/=.
  - exists pulled, w1, w2, w3. by split_and!.
Defined.

(** ** C9: assigning a job to a midplane *)

(** C9 (as amended).  [assign_job] marks the midplane [OCCUPIED] and records
    the job on the midplane and on every node of it; it does so whatever the
    midplane's status was, and never fails on an occupied one. *)
Theorem assign_job_overwrites w i m r j :
  midplanes w !! i = Some m ->
  heap w !! r = Some j ->
  exists w' m',
    MidPlane_assign_job i r w = Ok tt w' /\
    midplanes w' !! i = Some m' /\
    MidPlane.status m' = OCCUPIED /\
    MidPlane.job m' = Some r /\
    length (MidPlane.nodes m') = length (MidPlane.nodes m) /\
    (forall n, n ∈ MidPlane.nodes m' -> Node.job n = Some r) /\
    (forall i', i' <> i -> midplanes w' !! i' = midplanes w !! i') /\
    heap w' = heap w /\ queue w' = queue w /\ running_jobs w' = running_jobs w.
Proof.
  intros Hm Hj. eexists _, (MidPlane_occupied r m).
  split; [by apply (MidPlane_assign_job_spec w i m r j)|].
  split_and!; try done.
  - by eapply lookup_with_mp.
  - simpl. by rewrite length_fmap.
  - simpl. intros n (n0 & -> & _)%list_elem_of_fmap. done.
  - intros i' Hi'. by apply lookup_with_mp_ne.
Qed.

Lemma assign_job_overwrites_witness :
  exists w' m',
    MidPlane_assign_job 0%nat 0%nat scenario_A = Ok tt w' /\
    midplanes w' !! 0%nat = Some m' /\
    MidPlane.status m' = OCCUPIED /\
    MidPlane.job m' = Some 0%nat /\
    length (MidPlane.nodes m') = length (MidPlane.nodes (MidPlane.init "0")) /\
    (forall n, n ∈ MidPlane.nodes m' -> Node.job n = Some 0%nat) /\
    (forall i', i' <> 0%nat -> midplanes w' !! i' = midplanes scenario_A !! i') /\
    heap w' = heap scenario_A /\ queue w' = queue scenario_A /\
    running_jobs w' = running_jobs scenario_A.
Proof.
  by apply (assign_job_overwrites scenario_A 0%nat (MidPlane.init "0") 0%nat
              (Job.init "A" 0 3 512 "0")).
Defined.

(** C9 as stated fails: after two ticks of [two_jobs] midplane 0 is occupied
    by job 1, and assigning job 0 to it succeeds and replaces the owner. *)
Lemma assign_job_occupied_does_not_fail :
  let w := state_of (ticks 2 two_jobs) in
  (MidPlane.status <$> midplanes w !! 0%nat) = Some OCCUPIED /\
  (MidPlane.job <$> midplanes w !! 0%nat) = Some (Some 1%nat) /\
  succeeds (MidPlane_assign_job 0%nat 0%nat w) = true /\
  (MidPlane.job <$> midplanes (state_of (MidPlane_assign_job 0%nat 0%nat w)) !! 0%nat)
    = Some (Some 0%nat).
Proof. vm_compute. done. Qed.

(** ** C10: a job smaller than a midplane *)

(** C10 (as amended).  A head-of-queue job that asks for at least 0 and
    fewer than 512 nodes is looked for 0 midplanes and so is admitted at
    once, whatever the pool looks like: it leaves the queue, is [READY] with
    an empty list of midplanes, joins the running jobs, and no midplane
    changes.  From there, in a well-formed state, it is started and, after
    finitely many rounds, ended and removed from the running list, its list
    of midplanes still empty. *)
Theorem small_job_runs_without_midplanes w r q j :
  queue w = r :: q ->
  heap w !! r = Some j ->
  0 <= Job.num_of_requested_nodes j < 512 ->
  exists evs w2,
    Mira_schedule w = Ok tt w2 /\
    w2 = admitted_world r j [] evs w /\
    queue w2 = q /\
    running_jobs w2 = running_jobs w ++ [r] /\
    midplanes w2 = midplanes w /\
    heap w2 !! r = Some (Job.set_status READY (Job.set_midplanes [] j)) /\
    (Inv w ->
     exists n w' j',
       (advance;; ticks n) w2 = Ok tt w' /\
       heap w' !! r = Some j' /\
       Job.status j' = ENDED /\
       Job.midplanes j' = [] /\
       (r ∉ running_jobs w')).
Proof.
  intros Hq Hj Hn.
  assert (Hk : requested_midplanes j = 0) by (by apply Z.div_small).
  destruct (Mira_schedule_admits w r q j Hq Hj) as [evs Hs].
  { apply find_vacant_enough. rewrite Hk. lia. }
  rewrite find_vacant_top, Hk in Hs. simpl in Hs.
  set (w2 := admitted_world r j [] evs w) in *.
  assert (Hj2 : heap w2 !! r = Some (Job_admitted [] j)).
  { simpl. apply list_lookup_insert_eq. by eapply lookup_lt_Some. }
  exists evs, w2. split_and!; try done.
  { simpl. by rewrite Hq. }
  intros HInv.
  assert (HInv2 : Inv w2).
  { pose proof (Inv_admitted w r q j evs HInv Hq Hj) as H.
    by rewrite find_vacant_top, Hk in H. }
  assert (Hrj2 : running_jobs w2 = running_jobs w ++ r :: []) by done.
  destruct (advance_progress w2 (running_jobs w) r [] HInv2 Hrj2)
    as (w3 & Hadv & HInv3 & _ & _ & _ & Hcases).
  assert (Hlater : forall k1 k2 j3,
    running_jobs w3 = k1 ++ r :: k2 -> heap w3 !! r = Some j3 ->
    Job.midplanes j3 = [] ->
    exists n w' j', (advance;; ticks n) w2 = Ok tt w' /\ heap w' !! r = Some j' /\
      Job.status j' = ENDED /\ Job.midplanes j' = [] /\ (r ∉ running_jobs w')).
  { intros k1 k2 j3 Hrj3 Hj3 Hm3.
    destruct (running_job_ends _ w3 k1 r k2 j3 HInv3 Hrj3 Hj3 (Nat.le_refl _))
      as (m & w' & j' & Hm & _ & Hj' & He & Hr' & Hmp).
    exists m, w', j'. rewrite (bind_Ok _ _ _ _ _ Hadv). split_and!; try done.
    congruence. }
  destruct Hcases as [Ht|Hsk].
  - destruct Ht as (j0 & j' & evs' & Hj0 & Htk & Hj' & Hc). simplify_eq.
    pose proof (Job_ticked_fields _ _ _ _ Htk) as (Hmp & _).
    destruct (decide (Job.status j' = ENDED)) as [He|Hne].
    + exists 0%nat, w3, j'. rewrite (bind_Ok _ _ _ _ _ Hadv). by split_and!.
    + destruct Hc as (k1 & k2 & Hrj3 & _). by apply (Hlater k1 k2 j').
  - destruct Hsk as (Hh & (k1 & k2 & Hrj3 & _) & _).
    apply (Hlater k1 k2 (Job_admitted [] j)); [done | congruence | done].
Qed.

Lemma small_job_runs_without_midplanes_witness :
  vacant_indices (midplanes full_machine_arrived) = [] /\
  exists evs w2,
    Mira_schedule full_machine_arrived = Ok tt w2 /\
    w2 = admitted_world 0%nat (Job_submitted 1 (Job.init "S" 1 2 5 "0")) [] evs
           full_machine_arrived /\
    queue w2 = [] /\
    running_jobs w2 = running_jobs full_machine_arrived ++ [0%nat] /\
    midplanes w2 = midplanes full_machine_arrived /\
    heap w2 !! 0%nat = Some (Job.set_status READY (Job.set_midplanes []
                               (Job_submitted 1 (Job.init "S" 1 2 5 "0")))) /\
    exists n w' j',
      (advance;; ticks n) w2 = Ok tt w' /\
      heap w' !! 0%nat = Some j' /\
      Job.status j' = ENDED /\
      Job.midplanes j' = [] /\
      (0%nat ∉ running_jobs w').
Proof.
  split; [by vm_compute|].
  destruct (small_job_runs_without_midplanes full_machine_arrived 0%nat []
              (Job_submitted 1 (Job.init "S" 1 2 5 "0")))
    as (evs & w2 & Hs & Hw2 & Hq & Hrj & Hmp & Hj & Hends).
  - by vm_compute.
  - by vm_compute.
  - simpl. lia.
  - exists evs, w2.
    split; [exact Hs|]. split; [exact Hw2|]. split; [exact Hq|].
    split; [exact Hrj|]. split; [exact Hmp|]. split; [exact Hj|].
    apply Hends. apply well_formed_Inv. by vm_compute.
Defined.

(** C10 as stated fails for a negative node count, which is below 512 too:
    [-1 // 512] is [-1], no list has that length, and the job is never
    admitted. *)
Lemma negative_request_is_never_admitted :
  (Job.num_of_requested_nodes <$> heap negative_request !! 0%nat) = Some (-1) /\
  -1 < 512 /\
  match simulation 5 negative_request with
  | Ok false w =>
      queue w = [0%nat] /\ running_jobs w = [] /\
      Job.status <$> heap w !! 0%nat = Some QUEUED /\
      simulated_wallclock w = 5
  | _ => False
  end.
Proof. vm_compute. by split_and!. Qed.

(** * Further properties of the code *)

(** ** [Job.tick] *)

(** X1.  [tick] on a job that is neither [READY] nor [RUNNING] (created,
    queued or already ended) changes nothing: not the job, not the log. *)
Theorem tick_leaves_other_jobs_alone w r j t :
  heap w !! r = Some j ->
  Job.status j <> READY -> Job.status j <> RUNNING ->
  Job_tick r t w = Ok tt w.
Proof.
  intros Hj H1 H2.
  rewrite (Job_tick_spec w r j t j []); [|done|by apply Job_ticked_idle].
  by rewrite with_job_id.
Qed.

Lemma tick_leaves_other_jobs_alone_witness :
  Job_tick 0%nat 5 scenario_A = Ok tt scenario_A.
Proof.
  apply (tick_leaves_other_jobs_alone scenario_A 0%nat (Job.init "A" 0 3 512 "0"));
    [reflexivity | discriminate | discriminate].
Defined.

(** X2.  [tick] tests [READY] and then [RUNNING] with two separate [if]s, so
    a [READY] job whose duration is not positive is started and ended by one
    and the same call: it is never seen [RUNNING], both log lines are
    written, and its end time is the current time, not start plus
    duration. *)
Theorem tick_starts_and_ends_at_once w r j t :
  heap w !! r = Some j ->
  Job.status j = READY ->
  Job.duration j <= 0 ->
  exists j',
    Job_tick r t w =
      Ok tt (with_job r j' [JobStarted (Job.name j) t (t + Job.duration j);
                            JobStopped (Job.name j) t] w) /\
    Job.status j' = ENDED /\
    Job.start_time j' = Some t /\
    Job.end_time j' = Some t /\
    Job.midplanes j' = Job.midplanes j.
Proof.
  intros Hj Hs Hd. exists (Job_ended t (Job_started t j)). split; [|done].
  apply (Job_tick_spec w r j t); [done|]. rewrite Job_ticked_READY by done.
  replace (t + Job.duration j <=? t) with true; [done|].
  symmetry. apply Z.leb_le. lia.
Qed.

Lemma tick_starts_and_ends_at_once_witness :
  exists j',
    Job_tick 0%nat 7 (initial [Job.mk "Z" 0 0 None None (-2) "0" READY []]) =
      Ok tt (with_job 0%nat j' [JobStarted "Z" 7 (7 + -2); JobStopped "Z" 7]
               (initial [Job.mk "Z" 0 0 None None (-2) "0" READY []])) /\
    Job.status j' = ENDED /\
    Job.start_time j' = Some 7 /\
    Job.end_time j' = Some 7 /\
    Job.midplanes j' = [].
Proof.
  apply (tick_starts_and_ends_at_once
           (initial [Job.mk "Z" 0 0 None None (-2) "0" READY []]) 0%nat
           (Job.mk "Z" 0 0 None None (-2) "0" READY []) 7);
    [reflexivity | reflexivity | simpl; lia].
Defined.

(** ** [MidPlane.assign_job] and [MidPlane.free_up] *)

Lemma free_up_assign_job_nodes r (l : list Node.t) :
  Node.free_up <$> (Node.assign_job r <$> l) = replicate (length l) Node.init.
Proof. induction l as [|n l IH]; [done|]. rewrite !fmap_cons. simpl. by f_equal. Qed.

(** X3.  Assigning a job to a midplane and freeing the midplane again gives
    back a pristine midplane, whatever it was before: it is [VACANT], has no
    job, keeps its name and its number of nodes, and none of its nodes has a
    job.  No exception is raised and the log has the two lines of the
    assignment and the release, without the warning about a midplane freed
    twice. *)
Theorem assign_then_free_up_restores w i m r j :
  midplanes w !! i = Some m ->
  heap w !! r = Some j ->
  (MidPlane_assign_job i r;; MidPlane_free_up i) w =
  Ok tt (with_mp i
           (MidPlane.mk (MidPlane.name m) VACANT None
              (replicate (length (MidPlane.nodes m)) Node.init))
           [MidplaneAssigned (MidPlane.name m) (Job.name j);
            MidplaneFreed (MidPlane.name m) (Job.name j)] w).
Proof.
  intros Hm Hj.
  rewrite (bind_Ok _ _ _ _ _ (MidPlane_assign_job_spec _ _ _ _ _ Hm Hj)).
  rewrite (MidPlane_free_up_spec _ i (MidPlane_occupied r m) r j);
    [|by eapply lookup_with_mp|done|done].
  rewrite with_mp_with_mp. simpl.
  unfold MidPlane_freed, MidPlane_cleared, MidPlane_occupied,
    MidPlane.set_job, MidPlane.set_status, MidPlane.set_nodes. simpl.
  by rewrite free_up_assign_job_nodes.
Qed.

Lemma assign_then_free_up_restores_witness :
  (MidPlane_assign_job 0%nat 0%nat;; MidPlane_free_up 0%nat) scenario_A =
  Ok tt (with_mp 0%nat
           (MidPlane.mk (MidPlane.name (MidPlane.init "0")) VACANT None
              (replicate (length (MidPlane.nodes (MidPlane.init "0"))) Node.init))
           [MidplaneAssigned (MidPlane.name (MidPlane.init "0"))
              (Job.name (Job.init "A" 0 3 512 "0"));
            MidplaneFreed (MidPlane.name (MidPlane.init "0"))
              (Job.name (Job.init "A" 0 3 512 "0"))] scenario_A).
Proof.
  by apply (assign_then_free_up_restores scenario_A 0%nat (MidPlane.init "0") 0%nat
              (Job.init "A" 0 3 512 "0")).
Defined.

(** ** class Queue *)

Lemma enqueue_all xs w :
  for_each Queue_enqueue xs w = Ok tt (set_queue (queue w ++ xs) w).
Proof.
  revert w. induction xs as [|x xs IH]; intros w; simpl.
  - unfold ret. rewrite app_nil_r. by destruct w.
  - unfold Queue_enqueue at 1. rewrite bind_modify, IH. simpl.
    by rewrite <- app_assoc.
Qed.

(** X4.  The queue is first in, first out.  After any number of [enqueue]
    calls, [dequeue] and [peek] give the oldest element and [dequeue] leaves
    the others in their order; [is_empty] is then false.  On a queue that is
    empty [dequeue] and [peek] raise [IndexError] and [is_empty] is true. *)
Theorem queue_first_in_first_out xs w :
  match queue w ++ xs with
  | [] =>
      (for_each Queue_enqueue xs;; Queue_dequeue) w = Raise IndexError w /\
      (for_each Queue_enqueue xs;; Queue_peek) w = Raise IndexError w /\
      (for_each Queue_enqueue xs;; Queue_is_empty) w = Ok true w
  | x :: q =>
      (for_each Queue_enqueue xs;; Queue_dequeue) w = Ok x (set_queue q w) /\
      (for_each Queue_enqueue xs;; Queue_peek) w = Ok x (set_queue (x :: q) w) /\
      (for_each Queue_enqueue xs;; Queue_is_empty) w = Ok false (set_queue (x :: q) w)
  end.
Proof.
  destruct (queue w ++ xs) as [|x q] eqn:Hq.
  - apply app_eq_nil in Hq as [Hw ->]. simpl. rewrite !bind_ret.
    unfold Queue_dequeue, Queue_peek, Queue_is_empty. rewrite !bind_gets, Hw. done.
  - rewrite !(bind_Ok _ _ _ _ _ (enqueue_all xs w)), Hq.
    unfold Queue_dequeue, Queue_peek, Queue_is_empty. rewrite !bind_gets. simpl. done.
Qed.

(** ** The search for vacant midplanes *)

Lemma vacant_from_increasing i mps a b x y :
  (a < b)%nat ->
  vacant_from i mps !! a = Some x -> vacant_from i mps !! b = Some y -> (x < y)%nat.
Proof.
  revert i a b. induction mps as [|mp rest IH]; intros i a b Hab; simpl; [done|].
  destruct (MidPlane.is_vacant mp); [|by apply IH].
  destruct b as [|b]; [lia|]. destruct a as [|a]; simpl.
  - intros ? Hy; simplify_eq.
    apply list_elem_of_lookup_2, vacant_from_lower in Hy. lia.
  - apply IH. lia.
Qed.

(** X5.  The search loop of [schedule] returns the vacant midplanes of
    lowest index: the first [wanted] of them in pool order, or all of them
    when there are fewer or when [wanted] is negative.  It never returns an
    occupied midplane nor the same midplane twice. *)
Theorem search_takes_the_first_vacant_midplanes wanted pool :
  let found := find_vacant wanted 0%nat pool [] in
  found `prefix_of` vacant_indices pool /\
  length found =
    (if bool_decide (0 <= wanted)
     then Nat.min (Z.to_nat wanted) (length (vacant_indices pool))
     else length (vacant_indices pool)) /\
  (forall a b x y, (a < b)%nat -> vacant_indices pool !! a = Some x ->
                   vacant_indices pool !! b = Some y -> (x < y)%nat) /\
  (forall e, e ∈ vacant_indices pool <->
             exists m, pool !! e = Some m /\ MidPlane.status m = VACANT).
Proof.
  simpl. rewrite find_vacant_top. split_and!.
  - case_bool_decide; [apply prefix_take | done].
  - case_bool_decide; [by rewrite length_take | done].
  - apply vacant_from_increasing.
  - apply vacant_indices_spec.
Qed.

(** ** Properties kept round after round *)

(** A property of the state that each step of a round keeps is kept by
    whole rounds. *)
Section round_invariant.
Variable P : World -> Prop.

Hypothesis P_drained : forall w pulled w',
  Inv w -> Inv w' -> P w -> drained pulled w w' -> P w'.
Hypothesis P_scheduled : forall w w',
  Inv w -> Inv w' -> P w -> scheduled w w' -> P w'.
Hypothesis P_visited : forall w x kept rest w',
  Inv w -> Inv w' -> P w -> running_jobs w = kept ++ x :: rest ->
  visited (simulated_wallclock w) x kept rest w w' -> P w'.
Hypothesis P_inc : forall w,
  Inv w -> P w -> P (set_simulated_wallclock (simulated_wallclock w + 1) w).

Lemma Mira_jobs_tick_keeps w :
  Inv w -> P w ->
  exists w', Mira_jobs_tick (simulated_wallclock w) w = Ok tt w' /\ P w'.
Proof.
  intros HInv HP.
  destruct (Mira_jobs_tick_sweep (simulated_wallclock w)
    (fun kept rest w' => running_jobs w' = kept ++ rest /\ Inv w' /\ P w' /\
                         simulated_wallclock w' = simulated_wallclock w))
    with (w := w) as (kept' & w' & Hrun & _ & _ & HP' & _).
  - by intros kept rest w' (? & _).
  - intros kept x rest w1 (Hrj & HInv1 & HP1 & Hc1).
    destruct (jobs_tick_body_Inv w1 x (simulated_wallclock w) kept rest HInv1 Hrj)
      as (w2 & Hbody & HInv2 & Hvis).
    exists w2. split; [done|].
    assert (HP2 : P w2).
    { eapply P_visited; [exact HInv1 | done | done | done |]. by rewrite Hc1. }
    pose proof Hvis as (j & j' & evs & _ & _ & _ & _ & _ & _ & Hc & Hcases).
    assert (Hc2 : simulated_wallclock w2 = simulated_wallclock w) by congruence.
    destruct Hcases as [(_ & Hrj2 & _)|(_ & Hrj2 & _)].
    + left. split_and!; try done. by rewrite <- app_assoc.
    + right. destruct rest as [|y rest'].
      * by split_and!.
      * split_and!; try done. by rewrite <- app_assoc.
  - by split_and!.
  - eauto.
Qed.

Lemma tick_keeps w :
  Inv w -> P w -> exists w', tick w = Ok tt w' /\ Inv w' /\ P w'.
Proof.
  intros HInv HP.
  destruct (tick_Inv w HInv)
    as (pulled & w1 & w2 & w3 & Ha & Hd & Hs & Hsch & Hj & Hsw & Ht & Hc3
        & HInv1 & HInv2 & HInv3 & HInv').
  eexists. split; [exact Ht|]. split; [done|].
  pose proof (P_drained w pulled w1 HInv HInv1 HP Hd) as HP1.
  pose proof (P_scheduled w1 w2 HInv1 HInv2 HP1 Hsch) as HP2.
  assert (Hc2 : simulated_wallclock w2 = simulated_wallclock w).
  { destruct (scheduled_frame _ _ Hsch) as (_ & -> & _). by destruct Hd as (_&_&_&_&?&_). }
  destruct (Mira_jobs_tick_keeps w2 HInv2 HP2) as (w3' & Hj' & HP3).
  rewrite Hc2, Hj in Hj'. apply Outcome_Ok_inj in Hj' as <-.
  rewrite <- Hc3. by apply P_inc.
Qed.

Lemma ticks_keeps n w :
  Inv w -> P w -> exists w', ticks n w = Ok tt w' /\ Inv w' /\ P w'.
Proof.
  revert w. induction n as [|n IH]; intros w HInv HP.
  - by exists w.
  - destruct (tick_keeps w HInv HP) as (w1 & Ht & HInv1 & HP1).
    destruct (IH w1 HInv1 HP1) as (w' & Hn & ? & ?).
    exists w'. by rewrite (ticks_S _ _ _ Ht).
Qed.
End round_invariant.

(** ** The pool and the running jobs agree *)

Lemma free_all_lookup_clean mps pool i m :
  i ∈ mps -> pool !! i = Some m ->
  exists m', free_all mps pool !! i = Some m' /\
    MidPlane.name m' = MidPlane.name m /\
    length (MidPlane.nodes m') = length (MidPlane.nodes m) /\
    MidPlane_clean m'.
Proof.
  revert pool m. induction mps as [|i' mps IH]; intros pool m Hi Hm.
  { by apply elem_of_nil in Hi. }
  unfold free_all in *; simpl.
  destruct (decide (i ∈ mps)) as [Hin|Hnin].
  - destruct (decide (i' = i)) as [->|Hne].
    + assert (Ha : alter MidPlane_freed i pool !! i = Some (MidPlane_freed m))
        by (by rewrite list_lookup_alter_eq, Hm).
      destruct (IH _ _ Hin Ha) as (m' & Hm' & Hname & Hlen & Hclean).
      exists m'. split_and!; try done. rewrite Hlen. simpl. by rewrite length_fmap.
    + apply (IH _ m Hin). by rewrite list_lookup_alter_ne.
  - apply elem_of_cons in Hi as [->|]; [|done].
    pose proof (free_all_lookup_ne mps (alter MidPlane_freed i' pool) i' Hnin) as E.
    unfold free_all in E. rewrite E, list_lookup_alter_eq, Hm. simpl.
    exists (MidPlane_freed m). split_and!; try done.
    + simpl. by rewrite length_fmap.
    + split_and!; try done. simpl. by intros nd (nd0 & -> & _)%list_elem_of_fmap.
Qed.

Lemma pool_ok_drained w pulled w' :
  Inv w -> Inv w' -> pool_ok w -> drained pulled w w' -> pool_ok w'.
Proof.
  intros HInv _ Hp (Htr & _ & Hrun & Hmp & _ & _ & _ & _ & Hout & _) i m Hm.
  rewrite Hmp in Hm. destruct (Hp i m Hm) as (Hname & Hlen & Hcase).
  split_and!; try done. destruct Hcase as [?|(r & j & Hs & Hjob & Hnodes & Hr & Hj & Hi)];
    [by left|right].
  exists r, j. split_and!; try done; [by rewrite Hrun|].
  rewrite Hout; [done|]. intros Hin.
  destruct (Inv_running_not_waiting w r HInv Hr) as [Hnt _]. apply Hnt.
  rewrite Htr. apply elem_of_app. right. by apply elem_of_reverse.
Qed.

Lemma pool_ok_scheduled w w' :
  Inv w -> Inv w' -> pool_ok w -> scheduled w w' -> pool_ok w'.
Proof.
  intros HInv _ Hp [->|(r & j & evs & Hh & Hj & Hlen & ->)]; [done|].
  set (vac := find_vacant _ _ _ _) in *.
  assert (Hrq : r ∈ queue w).
  { destruct (queue w); simpl in Hh; simplify_eq. by left. }
  intros i m Hm. simpl in Hm.
  destruct (decide (i ∈ vac)) as [Hin|Hnin].
  - destruct (find_vacant_elem _ _ _ Hin) as (m0 & Hm0 & _).
    destruct (occupy_all_lookup r vac _ _ _ Hin Hm0) as (m' & Hm' & Hs' & Hj' & Hname & Hnodes).
    destruct (Hp i m0 Hm0) as (Hname0 & Hlen0 & _). simplify_eq.
    split_and!.
    + congruence.
    + by rewrite Hnodes, length_fmap.
    + right. exists r, (Job_admitted vac j). split_and!; try done.
      * rewrite Hnodes. by intros nd (nd0 & -> & _)%list_elem_of_fmap.
      * simpl. apply elem_of_app. right. by left.
      * simpl. apply list_lookup_insert_eq. by eapply lookup_lt_Some.
  - rewrite occupy_all_lookup_ne in Hm by done.
    destruct (Hp i m Hm) as (Hname & Hlen0 & Hcase). split_and!; try done.
    destruct Hcase as [?|(r' & j' & Hs & Hjob & Hnodes & Hr' & Hj' & Hi)]; [by left|right].
    exists r', j'. split_and!; try done.
    + simpl. apply elem_of_app. by left.
    + simpl. rewrite list_lookup_insert_ne; [done|]. intros ->.
      by destruct (Inv_running_not_waiting w r' HInv Hr') as [_ Hnq].
Qed.

Lemma pool_ok_visited w x kept rest w' :
  Inv w -> Inv w' -> pool_ok w -> running_jobs w = kept ++ x :: rest ->
  visited (simulated_wallclock w) x kept rest w w' -> pool_ok w'.
Proof.
  intros HInv _ Hp Hrj (j & j' & evs & Hj & Ht & Hj' & Hne & _ & _ & _ & Hcases).
  destruct (Job_ticked_fields _ _ _ _ Ht) as (Hmps & _).
  destruct Hcases as [(_ & Hrj' & Hmp')|(_ & Hrj' & Hmp')]; intros i m Hm; rewrite Hmp' in Hm.
  - destruct (Hp i m Hm) as (Hname & Hlen & Hcase). split_and!; try done.
    destruct Hcase as [?|(r & j0 & Hs & Hjob & Hnodes & Hr & Hj0 & Hi)]; [by left|right].
    destruct (decide (r = x)) as [->|Hrx].
    + exists x, j'. simplify_eq. split_and!; try done; [congruence|by rewrite Hmps].
    + exists r, j0. split_and!; try done; [congruence|by rewrite Hne].
  - destruct (decide (i ∈ Job.midplanes j)) as [Hin|Hnin].
    + assert (is_Some (midplanes w !! i)) as [m0 Hm0].
      { apply lookup_lt_is_Some. rewrite <- (free_all_length (Job.midplanes j)).
        by eapply lookup_lt_Some. }
      destruct (free_all_lookup_clean _ _ _ _ Hin Hm0) as (m' & Hm' & Hname & Hlen & Hclean).
      destruct (Hp i m0 Hm0) as (Hname0 & Hlen0 & _). simplify_eq.
      split_and!; [congruence | congruence | by left].
    + rewrite free_all_lookup_ne in Hm by done.
      destruct (Hp i m Hm) as (Hname & Hlen & Hcase). split_and!; try done.
      destruct Hcase as [?|(r & j0 & Hs & Hjob & Hnodes & Hr & Hj0 & Hi)]; [by left|right].
      assert (Hrx : r <> x) by (intros ->; by simplify_eq).
      exists r, j0. split_and!; try done; [|by rewrite Hne].
      rewrite Hrj'. rewrite Hrj in Hr. rewrite !elem_of_app, elem_of_cons in Hr.
      rewrite elem_of_app. tauto.
Qed.

Lemma pool_ok_inc w :
  Inv w -> pool_ok w -> pool_ok (set_simulated_wallclock (simulated_wallclock w + 1) w).
Proof. intros _ Hp. exact Hp. Qed.

Lemma Mira_init_midplanes_lookup i m :
  Mira_init_midplanes !! i = Some m -> m = MidPlane.init (str i).
Proof.
  unfold Mira_init_midplanes. rewrite list_lookup_fmap.
  destruct (seq 0 96 !! i) as [k|] eqn:Hk; [|done].
  apply lookup_seq in Hk as [-> _]. simpl. congruence.
Qed.

Lemma pool_ok_initial jobs : pool_ok (initial jobs).
Proof.
  intros i m Hm. simpl in Hm. apply Mira_init_midplanes_lookup in Hm as ->.
  split_and!; [done | apply length_replicate | left].
  split_and!; [done | done |].
  unfold MidPlane.init, MidPlane.nodes. by intros nd [-> _]%elem_of_replicate.
Qed.

(** ** The life of a job *)

Lemma Job_timed_later now now' j : now <= now' -> Job_timed now j -> Job_timed now' j.
Proof.
  intros Hle. unfold Job_timed. destruct (Job.status j); try done; try lia.
  - intros (s & ? & ? & ? & ?). exists s. split_and!; try done; lia.
  - intros (s & e & ? & ? & ? & ? & ? & ?). exists s, e. split_and!; try done; lia.
Qed.

Lemma lifecycle_drained w pulled w' :
  Inv w -> Inv w' -> lifecycle w -> drained pulled w w' -> lifecycle w'.
Proof.
  intros HInv _ Hl (Htr & Hq & Hrun & Hmp & Hc & Hreq & Hdue & Hlast & Hout & Hin) r j' Hj'.
  destruct (decide (r ∈ pulled)) as [Hp|Hp].
  - pose proof (Hin r Hp) as Hst. rewrite Hj' in Hst. simpl in Hst. injection Hst as Hst.
    unfold Job_placed, Job_timed, Job_served. rewrite Hst. split_and!; [| |done].
    + rewrite Hq. apply elem_of_app. by right.
    + pose proof (Hdue r Hp) as Ha.
      rewrite <- (arrival_same_requests _ _ _ Hreq) in Ha.
      unfold arrival in Ha. rewrite Hj' in Ha. simpl in Ha. injection Ha as Ha.
      rewrite Hc. lia.
  - rewrite (Hout r Hp) in Hj'. destruct (Hl r j' Hj') as (Hpl & Htm & Hsv).
    split_and!; [|by rewrite Hc|done].
    unfold Job_placed in *. destruct (Job.status j').
    + rewrite Htr in Hpl. apply elem_of_app in Hpl as [?|Hpl]; [done|].
      exfalso. apply Hp. by apply elem_of_reverse.
    + rewrite Hq. apply elem_of_app. by left.
    + by rewrite Hrun.
    + by rewrite Hrun.
    + rewrite Hq, Hrun. rewrite Htr in Hpl.
      rewrite !elem_of_app in *. rewrite elem_of_reverse in Hpl. tauto.
Qed.

Lemma lifecycle_scheduled w w' :
  Inv w -> Inv w' -> lifecycle w -> scheduled w w' -> lifecycle w'.
Proof.
  intros HInv _ Hl [->|(r0 & j0 & evs & Hh & Hj0 & Hlen & ->)]; [done|].
  destruct (queue w) as [|r0' q] eqn:Hq; [done|]. simpl in Hh. injection Hh as ->.
  assert (Hw0 : waiting w r0) by (right; rewrite Hq; by left).
  pose proof (Inv_waiting_not_running w r0 HInv Hw0) as Hnr.
  pose proof (inv_nodup _ HInv) as Hnd. rewrite Hq in Hnd.
  apply NoDup_app in Hnd as (_ & Htq & Hnd). simpl in Hnd.
  apply NoDup_cons in Hnd as [Hr0 _]. rewrite elem_of_app in Hr0.
  intros r j Hj. simpl in Hj.
  destruct (decide (r = r0)) as [->|Hne].
  - rewrite list_lookup_insert_eq in Hj by (by eapply lookup_lt_Some).
    injection Hj as <-. destruct (Hl r0 j0 Hj0) as (Hpl & Htm & _).
    assert (Hst : Job.status j0 = QUEUED).
    { unfold Job_placed in Hpl. destruct (Job.status j0) eqn:E; try done.
      - exfalso. apply (Htq r0 Hpl). by left.
      - exfalso. apply Hpl. rewrite Hq. rewrite !elem_of_app, elem_of_cons. tauto. }
    unfold Job_placed, Job_timed, Job_served; simpl. split_and!.
    + apply elem_of_app. right. by left.
    + unfold Job_timed in Htm. by rewrite Hst in Htm.
    + done.
  - rewrite list_lookup_insert_ne in Hj by done.
    destruct (Hl r j Hj) as (Hpl & Htm & Hsv). split_and!; [|done|done].
    unfold Job_placed in *; simpl. rewrite Hq in *; simpl.
    destruct (Job.status j).
    + done.
    + by apply elem_of_cons in Hpl as [?|?].
    + apply elem_of_app. by left.
    + apply elem_of_app. by left.
    + rewrite !elem_of_app, elem_of_cons in Hpl.
      rewrite !elem_of_app, list_elem_of_singleton. tauto.
Qed.

Lemma lifecycle_visited w x kept rest w' :
  Inv w -> Inv w' -> lifecycle w -> running_jobs w = kept ++ x :: rest ->
  visited (simulated_wallclock w) x kept rest w w' -> lifecycle w'.
Proof.
  intros HInv _ Hl Hrj (j & j' & evs & Hj & Ht & Hj' & Hne & Hq & Htr & Hc & Hcases).
  assert (Hxin : x ∈ running_jobs w) by (rewrite Hrj; apply elem_of_middle).
  destruct (Inv_running_not_waiting w x HInv Hxin) as [Hxt Hxq].
  pose proof (Inv_running_NoDup _ HInv) as Hnd. rewrite Hrj in Hnd.
  destruct (NoDup_middle _ _ _ Hnd) as [Hxk Hxr].
  assert (Hsub : forall r, r ∈ running_jobs w' -> r ∈ running_jobs w).
  { intros r. rewrite Hrj. destruct Hcases as [(_ & -> & _)|(_ & -> & _)]; [done|].
    rewrite !elem_of_app, elem_of_cons. tauto. }
  assert (Hkeep : forall r, r <> x -> r ∈ running_jobs w -> r ∈ running_jobs w').
  { intros r Hrx. rewrite Hrj. destruct Hcases as [(_ & -> & _)|(_ & -> & _)]; [done|].
    rewrite !elem_of_app, elem_of_cons. tauto. }
  assert (Hgone : Job.status j' = ENDED -> x ∉ running_jobs w').
  { intros He. destruct Hcases as [(? & _)|(_ & -> & _)]; [done|].
    rewrite elem_of_app. tauto. }
  assert (Hstays : Job.status j' <> ENDED -> x ∈ running_jobs w').
  { intros He. destruct Hcases as [(_ & -> & _)|(? & _)]; [|done]. apply elem_of_middle. }
  intros r jr Hjr. destruct (decide (r = x)) as [->|Hrx].
  - rewrite Hj' in Hjr. injection Hjr as <-.
    destruct (Hl x j Hj) as (Hpl & Htm & Hsv).
    destruct (inv_running _ HInv x Hxin) as (j0 & Hj0 & Hst & _). simplify_eq.
    unfold Job_placed, Job_timed, Job_served in *. rewrite Hc, Htr, Hq.
    destruct Hst as [Hs|[Hs [e He]]]; rewrite Hs in *.
    + rewrite (Job_ticked_READY _ _ Hs) in Ht.
      destruct (_ <=? _) eqn:Hle; injection Ht as <- <-; simpl.
      * apply Z.leb_le in Hle.
        split_and!; [|eexists _, _; split_and!; try done; lia|done].
        rewrite !elem_of_app. intros [?|[?|?]]; try done. by apply Hgone.
      * apply Z.leb_gt in Hle.
        split_and!; [by apply Hstays|eexists; split_and!; try done; lia|done].
    + rewrite (Job_ticked_RUNNING _ _ e Hs He) in Ht.
      destruct Htm as (s & Hstart & Hend & Hsub1 & Hsnow).
      destruct (_ <=? _) eqn:Hle; injection Ht as <- <-; simpl.
      * apply Z.leb_le in Hle. rewrite Hend in He. injection He as <-.
        split_and!; [|exists s, (simulated_wallclock w); split_and!; try done; lia|done].
        rewrite !elem_of_app. intros [?|[?|?]]; try done. by apply Hgone.
      * rewrite Hs. split_and!; [|by exists s|done].
        apply Hstays. by rewrite Hs.
  - rewrite (Hne r Hrx) in Hjr. destruct (Hl r jr Hjr) as (Hpl & Htm & Hsv).
    split_and!; [|by rewrite Hc|done].
    unfold Job_placed in *. rewrite Htr, Hq. destruct (Job.status jr); try done.
    + by apply Hkeep.
    + by apply Hkeep.
    + rewrite !elem_of_app in *. intros [?|[?|?]]; [tauto | tauto |].
      apply Hpl. right. right. by apply Hsub.
Qed.

Lemma lifecycle_inc w :
  Inv w -> lifecycle w ->
  lifecycle (set_simulated_wallclock (simulated_wallclock w + 1) w).
Proof.
  intros _ Hl r j Hj. destruct (Hl r j Hj) as (Hpl & Htm & Hsv).
  split_and!; try done. simpl. apply (Job_timed_later (simulated_wallclock w)); [lia|done].
Qed.

Lemma lifecycle_initial jobs :
  (forall j, j ∈ jobs -> Job.status j = CREATED) -> lifecycle (initial jobs).
Proof.
  intros Hc r j Hj. simpl in Hj.
  unfold Job_placed, Job_timed, Job_served.
  rewrite (Hc j) by (by eapply list_elem_of_lookup_2). split_and!; try done.
  simpl. apply elem_of_seq. apply lookup_lt_Some in Hj. lia.
Qed.

(** ** Jobs only move forward *)

Lemma flow_refl w : flow w w.
Proof.
  unfold flow, pending. split_and!; try done; [by right|].
  intros r Hr. rewrite !elem_of_app. tauto.
Qed.

Lemma flow_trans w1 w2 w3 : flow w1 w2 -> flow w2 w3 -> flow w1 w3.
Proof.
  unfold flow, pending. intros (Ht1 & Hq1 & Hr1) (Ht2 & Hq2 & Hr2). split_and!.
  - intros r Hr. by apply Ht1, Ht2.
  - intros r Hr. destruct (Hq2 r Hr) as [?|?]; [left; by apply Ht1 | by apply Hq1].
  - intros r Hr. specialize (Hr2 r Hr). rewrite !elem_of_app in Hr2.
    rewrite !elem_of_app. destruct Hr2 as [?|[Hx|Hx]].
    + left. by apply Ht1.
    + destruct (Hq1 r Hx); tauto.
    + specialize (Hr1 r Hx). by rewrite !elem_of_app in Hr1.
Qed.

Lemma flow_drained w pulled w' : drained pulled w w' -> flow w w'.
Proof.
  intros (Htr & Hq & Hrun & _). unfold flow, pending. rewrite Htr, Hq, Hrun. split_and!.
  - intros r Hr. apply elem_of_app. by left.
  - intros r Hr. rewrite elem_of_app in *. rewrite elem_of_reverse. tauto.
  - intros r Hr. rewrite !elem_of_app. tauto.
Qed.

Lemma flow_scheduled w w' : scheduled w w' -> flow w w'.
Proof.
  intros [->|(r & j & evs & Hh & _ & _ & ->)]; [apply flow_refl|].
  unfold flow, pending; simpl. destruct (queue w) as [|r' q]; [done|].
  simpl in *. injection Hh as ->. split_and!; try done.
  - intros r' Hr'. right. by right.
  - intros r' Hr'. rewrite !elem_of_app, elem_of_cons, elem_of_app.
    rewrite elem_of_app, list_elem_of_singleton in Hr'. tauto.
Qed.

Lemma flow_swept w w' : swept w w' -> flow w w'.
Proof.
  intros (Hq & Htr & _ & Hsub & _). unfold flow, pending. rewrite Hq, Htr. split_and!.
  - done.
  - by right.
  - intros r Hr. rewrite !elem_of_app. right. right. by eapply elem_of_sublist.
Qed.

(** Within a round. *)
Lemma flow_tick w w' : Inv w -> tick w = Ok tt w' -> flow w w'.
Proof.
  intros HInv Ht.
  destruct (tick_Inv w HInv)
    as (pulled & w1 & w2 & w3 & _ & Hd & _ & Hsch & _ & Hsw & Ht' & _).
  rewrite Ht in Ht'. apply Outcome_Ok_inj in Ht' as ->.
  apply (flow_trans _ w1); [by eapply flow_drained|].
  apply (flow_trans _ w2); [by eapply flow_scheduled|].
  by apply flow_swept in Hsw.
Qed.

Lemma fits_same_requests w w' : same_requests w w' -> fits w -> fits w'.
Proof.
  intros Hreq Hf r j' Hj'. specialize (Hreq r). rewrite Hj' in Hreq.
  destruct (heap w !! r) as [j|] eqn:Hj; simpl in Hreq; [|done].
  specialize (Hf r j Hj). unfold requested_midplanes in *. unfold Job_request in Hreq.
  inversion Hreq as [[Hname Hnodes Hdur Hsub]]. by rewrite Hnodes.
Qed.

(** ** Whole runs *)

Lemma tick_frame w :
  Inv w ->
  exists w', tick w = Ok tt w' /\ Inv w' /\ same_requests w w' /\ flow w w' /\
             simulated_wallclock w' = simulated_wallclock w + 1.
Proof.
  intros HInv.
  destruct (tick_Inv w HInv)
    as (pulled & w1 & w2 & w3 & _ & Hd & _ & Hsch & _ & Hsw & Ht & _ & _ & _ & _ & HInv').
  eexists. split; [exact Ht|]. split_and!; [done | | by apply flow_tick | done].
  destruct Hd as (_ & _ & _ & _ & _ & Hreq1 & _).
  destruct (scheduled_frame _ _ Hsch) as (_ & _ & Hreq2).
  destruct Hsw as (_ & _ & _ & _ & _ & Hreq3).
  apply (same_requests_trans _ w1); [done|].
  apply (same_requests_trans _ w2); [done|]. exact Hreq3.
Qed.

Lemma ticks_frame n w :
  Inv w ->
  exists w', ticks n w = Ok tt w' /\ Inv w' /\ same_requests w w' /\ flow w w' /\
             simulated_wallclock w' = simulated_wallclock w + Z.of_nat n.
Proof.
  revert w. induction n as [|n IH]; intros w HInv.
  - exists w. split_and!; try done; [apply flow_refl | lia].
  - destruct (tick_frame w HInv) as (w1 & Ht & HInv1 & Hreq1 & Hfl1 & Hc1).
    destruct (IH w1 HInv1) as (w' & Hn & HInv' & Hreq' & Hfl' & Hc').
    exists w'. rewrite (ticks_S _ _ _ Ht). split_and!; try done.
    + by eapply same_requests_trans.
    + by eapply flow_trans.
    + lia.
Qed.

Lemma same_requests_lookup w w' r j :
  same_requests w w' -> heap w !! r = Some j ->
  exists j', heap w' !! r = Some j' /\ Job_request j' = Job_request j.
Proof.
  intros Hreq Hj. specialize (Hreq r). rewrite Hj in Hreq.
  destruct (heap w' !! r) as [j'|]; simpl in Hreq; [|done].
  exists j'. split; [done|]. congruence.
Qed.

Lemma same_requests_length w w' :
  same_requests w w' -> length (heap w') = length (heap w).
Proof.
  intros Hreq.
  assert (Hiff : forall r, (r < length (heap w'))%nat <-> (r < length (heap w))%nat).
  { intros r. rewrite <- !lookup_lt_is_Some. specialize (Hreq r).
    destruct (heap w' !! r), (heap w !! r); simpl in Hreq; done. }
  destruct (Nat.lt_trichotomy (length (heap w')) (length (heap w))) as [Hlt|[?|Hlt]];
    [|done|].
  - apply Hiff in Hlt. lia.
  - apply Hiff in Hlt. lia.
Qed.

Lemma loop_cond_false w : loop_cond w = false <-> pending w = [].
Proof.
  unfold loop_cond, pending. rewrite bool_decide_eq_false. split.
  - intros H. destruct (trace_jobs w), (queue w), (running_jobs w); try done;
      exfalso; apply H; simpl; lia.
  - intros H. apply app_eq_nil in H as [-> H]. apply app_eq_nil in H as [-> ->].
    simpl. lia.
Qed.

(** What [simulation] returns is the state after some number of rounds. *)
Lemma simulation_ticks n : forall w b w',
  simulation n w = Ok b w' ->
  exists m, (m <= n)%nat /\ ticks m w = Ok tt w' /\ loop_cond w' = negb b.
Proof.
  induction n as [|n IH]; intros w b w' H; simpl in H;
    destruct (loop_cond w) eqn:E.
  - injection H as <- <-. by exists 0%nat.
  - injection H as <- <-. by exists 0%nat.
  - apply bind_Ok_inv in H as ([] & w1 & Ht & Hs).
    destruct (IH _ _ _ Hs) as (m & Hm & Hticks & Hc).
    exists (S m). rewrite (ticks_S _ _ _ Ht). split_and!; try done. lia.
  - injection H as <- <-. exists 0%nat. split_and!; try done. lia.
Qed.

Lemma simulation_Inv n : forall w,
  Inv w -> exists b w', simulation n w = Ok b w' /\ Inv w'.
Proof.
  induction n as [|n IH]; intros w HInv; simpl; destruct (loop_cond w); eauto.
  destruct (tick_frame w HInv) as (w1 & Ht & HInv1 & _).
  rewrite (bind_Ok _ _ _ _ _ Ht). by apply IH.
Qed.

(** X6.  Whatever the trace, the simulation raises no exception: neither
    the main loop run for any number of rounds, nor any single round.  After
    [n] rounds the wallclock is [n], and the store holds the jobs of the
    trace with the name, node count, duration and submission time they came
    with. *)
Theorem simulation_raises_nothing jobs n :
  (exists b w, simulation n (initial jobs) = Ok b w) /\
  exists w, ticks n (initial jobs) = Ok tt w /\
    simulated_wallclock w = Z.of_nat n /\
    length (heap w) = length jobs /\
    forall r j, jobs !! r = Some j ->
      exists j', heap w !! r = Some j' /\
        Job.name j' = Job.name j /\
        Job.num_of_requested_nodes j' = Job.num_of_requested_nodes j /\
        Job.duration j' = Job.duration j /\
        Job.submitted_time j' = Job.submitted_time j.
Proof.
  split.
  - destruct (simulation_Inv n (initial jobs) (Inv_initial jobs)) as (b & w & H & _).
    by exists b, w.
  - destruct (ticks_frame n (initial jobs) (Inv_initial jobs))
      as (w & Hn & _ & Hreq & _ & Hc).
    exists w. split_and!; try done.
    + by apply (same_requests_length (initial jobs)).
    + intros r j Hj.
      destruct (same_requests_lookup (initial jobs) w r j Hreq Hj) as (j' & Hj' & Heq).
      exists j'. unfold Job_request in Heq. injection Heq as ? ? ? ?. by split_and!.
Qed.

(** ** The machine and the running jobs *)

Lemma ticks_pool_ok n w :
  Inv w -> pool_ok w -> exists w', ticks n w = Ok tt w' /\ Inv w' /\ pool_ok w'.
Proof.
  apply (ticks_keeps pool_ok).
  - apply pool_ok_drained.
  - apply pool_ok_scheduled.
  - apply pool_ok_visited.
  - apply pool_ok_inc.
Qed.

(** X7.  After any number of rounds the pool and the running jobs agree.
    Each of the 96 midplanes still has its name and its 512 nodes, and is
    either pristine ([VACANT], no job, no node assigned) or [OCCUPIED] by one
    running job that lists it, with that job on every node.  Conversely each
    midplane a running job lists is occupied by that job, so no two running
    jobs share a midplane. *)
Theorem pool_and_running_jobs_agree jobs n :
  exists w, ticks n (initial jobs) = Ok tt w /\
    length (midplanes w) = 96%nat /\
    (forall i m, midplanes w !! i = Some m ->
       MidPlane.name m = str i /\ length (MidPlane.nodes m) = 512%nat /\
       (MidPlane_clean m \/ MidPlane_held w i m)) /\
    (forall r j i, r ∈ running_jobs w -> heap w !! r = Some j -> i ∈ Job.midplanes j ->
       exists m, midplanes w !! i = Some m /\ MidPlane.status m = OCCUPIED /\
                 MidPlane.job m = Some r /\
                 forall nd, nd ∈ MidPlane.nodes m -> Node.job nd = Some r) /\
    (forall r r' j j' i,
       r ∈ running_jobs w -> r' ∈ running_jobs w ->
       heap w !! r = Some j -> heap w !! r' = Some j' ->
       i ∈ Job.midplanes j -> i ∈ Job.midplanes j' -> r = r').
Proof.
  destruct (ticks_pool_ok n (initial jobs) (Inv_initial jobs) (pool_ok_initial jobs))
    as (w & Hn & HInv & Hp).
  assert (Hown : forall r j i, r ∈ running_jobs w -> heap w !! r = Some j ->
                               i ∈ Job.midplanes j -> owns w r i).
  { intros r j i Hr Hj Hi. destruct (inv_running _ HInv r Hr) as (j0 & Hj0 & _ & _ & Ho).
    simplify_eq. by apply Ho. }
  exists w. split_and!; [done | apply (inv_pool _ HInv) | exact Hp | |].
  - intros r j i Hr Hj Hi. destruct (Hown r j i Hr Hj Hi) as (m & Hm & Hs & Hjob).
    exists m. split_and!; try done.
    destruct (Hp i m Hm) as (_ & _ & [(Hv & _)|(r0 & j0 & _ & Hjob0 & Hnodes & _)]).
    + congruence.
    + by simplify_eq.
  - intros r r' j j' i Hr Hr' Hj Hj' Hi Hi'.
    eapply owns_inj; [by eapply (Hown r j) | by eapply (Hown r' j')].
Qed.

(** ** The life of a job *)

Lemma ticks_lifecycle n w :
  Inv w -> lifecycle w -> exists w', ticks n w = Ok tt w' /\ Inv w' /\ lifecycle w'.
Proof.
  apply (ticks_keeps lifecycle).
  - apply lifecycle_drained.
  - apply lifecycle_scheduled.
  - apply lifecycle_visited.
  - apply lifecycle_inc.
Qed.

Lemma Job_placed_iff w r j :
  Inv w -> Job_placed w r j ->
  (r ∈ trace_jobs w <-> Job.status j = CREATED) /\
  (r ∈ queue w <-> Job.status j = QUEUED) /\
  (r ∈ running_jobs w <-> Job.status j = READY \/ Job.status j = RUNNING) /\
  (r ∉ trace_jobs w ++ queue w ++ running_jobs w <-> Job.status j = ENDED).
Proof.
  intros HInv Hpl. pose proof (inv_nodup _ HInv) as Hnd.
  apply NoDup_app in Hnd as (_ & Htq & Hnd). apply NoDup_app in Hnd as (_ & Hqr & _).
  assert (Ht : r ∈ trace_jobs w -> (r ∉ queue w) /\ (r ∉ running_jobs w)).
  { intros H. specialize (Htq r H). rewrite elem_of_app in Htq. tauto. }
  specialize (Hqr r). unfold Job_placed in Hpl.
  assert (Hnot : r ∉ trace_jobs w ++ queue w ++ running_jobs w <->
                 ~ (r ∈ trace_jobs w \/ r ∈ queue w \/ r ∈ running_jobs w)).
  { rewrite !elem_of_app. tauto. }
  rewrite Hnot.
  destruct (Job.status j); rewrite ?Hnot in Hpl; split_and!; split; try done; try tauto;
    try (intros [?|?]; done); try (intros ?; exfalso; tauto).
Qed.

(** X8.  When every job of the trace starts out [CREATED], as the parser
    makes them, then after any number of rounds the status of a job tells
    where it is: [CREATED] jobs are exactly those still in the trace,
    [QUEUED] jobs those in the queue, [READY] and [RUNNING] jobs those in the
    list of running jobs, and [ENDED] jobs those in none of the three. *)
Theorem status_tells_where_a_job_is jobs n :
  (forall j, j ∈ jobs -> Job.status j = CREATED) ->
  exists w, ticks n (initial jobs) = Ok tt w /\
    forall r j, heap w !! r = Some j ->
      (r ∈ trace_jobs w <-> Job.status j = CREATED) /\
      (r ∈ queue w <-> Job.status j = QUEUED) /\
      (r ∈ running_jobs w <-> Job.status j = READY \/ Job.status j = RUNNING) /\
      (r ∉ trace_jobs w ++ queue w ++ running_jobs w <-> Job.status j = ENDED).
Proof.
  intros Hc.
  destruct (ticks_lifecycle n (initial jobs) (Inv_initial jobs) (lifecycle_initial jobs Hc))
    as (w & Hn & HInv & Hl).
  exists w. split; [done|]. intros r j Hj.
  apply Job_placed_iff; [done|]. by destruct (Hl r j Hj) as (? & _).
Qed.

Lemma status_tells_where_a_job_is_witness :
  exists w, ticks 2 (initial [Job.init "A" 0 3 512 "0"]) = Ok tt w /\
    forall r j, heap w !! r = Some j ->
      (r ∈ trace_jobs w <-> Job.status j = CREATED) /\
      (r ∈ queue w <-> Job.status j = QUEUED) /\
      (r ∈ running_jobs w <-> Job.status j = READY \/ Job.status j = RUNNING) /\
      (r ∉ trace_jobs w ++ queue w ++ running_jobs w <-> Job.status j = ENDED).
Proof.
  apply (status_tells_where_a_job_is [Job.init "A" 0 3 512 "0"] 2).
  intros j Hj. apply list_elem_of_singleton in Hj. by rewrite Hj.
Defined.

(** X9.  No job starts before it was submitted, and no job ends early.  When
    every job of the trace starts out [CREATED], then after any number of
    rounds a [RUNNING] job has a start time that is not before its submission
    and an end time of start plus duration, and an [ENDED] job has a start
    time not before its submission and an end time that is neither before
    its start nor before start plus duration, nor after the wallclock. *)
Theorem no_job_ends_early jobs n :
  (forall j, j ∈ jobs -> Job.status j = CREATED) ->
  exists w, ticks n (initial jobs) = Ok tt w /\
    forall r j, heap w !! r = Some j ->
      (Job.status j = RUNNING ->
         exists s, Job.start_time j = Some s /\
                   Job.end_time j = Some (s + Job.duration j) /\
                   Job.submitted_time j <= s /\ s <= simulated_wallclock w) /\
      (Job.status j = ENDED ->
         exists s e, Job.start_time j = Some s /\ Job.end_time j = Some e /\
                     Job.submitted_time j <= s /\ s <= e /\
                     s + Job.duration j <= e /\ e <= simulated_wallclock w).
Proof.
  intros Hc.
  destruct (ticks_lifecycle n (initial jobs) (Inv_initial jobs) (lifecycle_initial jobs Hc))
    as (w & Hn & HInv & Hl).
  exists w. split; [done|]. intros r j Hj.
  destruct (Hl r j Hj) as (_ & Ht & _). unfold Job_timed in Ht.
  split; intros Hs; by rewrite Hs in Ht.
Qed.

Lemma no_job_ends_early_witness :
  exists w, ticks 5 (initial [Job.init "A" 0 3 512 "0"]) = Ok tt w /\
    forall r j, heap w !! r = Some j ->
      (Job.status j = RUNNING ->
         exists s, Job.start_time j = Some s /\
                   Job.end_time j = Some (s + Job.duration j) /\
                   Job.submitted_time j <= s /\ s <= simulated_wallclock w) /\
      (Job.status j = ENDED ->
         exists s e, Job.start_time j = Some s /\ Job.end_time j = Some e /\
                     Job.submitted_time j <= s /\ s <= e /\
                     s + Job.duration j <= e /\ e <= simulated_wallclock w).
Proof.
  apply (no_job_ends_early [Job.init "A" 0 3 512 "0"] 5).
  intros j Hj. apply list_elem_of_singleton in Hj. by rewrite Hj.
Defined.

(** A tick leaves an admitted job admitted. *)
Lemma Job_ticked_admitted t j j' evs :
  Job_ticked t j = Some (j', evs) -> Job_is_admitted j -> Job_is_admitted j'.
Proof.
  unfold Job_ticked, Job_is_admitted. intros H Ha.
  destruct (bool_decide (Job.status j = READY)); simpl in H.
  - destruct (_ <=? _); simplify_eq; simpl; tauto.
  - destruct (bool_decide (Job.status j = RUNNING)); [|by simplify_eq].
    destruct (Job.end_time j) as [e|]; [|done].
    destruct (e <=? t); simplify_eq; simpl; tauto.
Qed.

Lemma holds_drained r mps w pulled w' :
  Inv w -> Inv w' -> holds r mps w -> drained pulled w w' -> holds r mps w'.
Proof.
  intros HInv HInv' [Hl (j & Hj & Ha & Hm)] Hd.
  split; [exact (lifecycle_drained w pulled w' HInv HInv' Hl Hd)|].
  destruct Hd as (Htr & _ & _ & _ & _ & _ & _ & _ & Hout & _).
  exists j. split_and!; try done. rewrite Hout; [done|].
  intros Hp. destruct (Hl r j Hj) as (Hpl & _).
  destruct (Job_placed_iff w r j HInv Hpl) as (Hc & _).
  assert (Hs : Job.status j = CREATED).
  { apply Hc. rewrite Htr. apply elem_of_app. right. by apply elem_of_reverse. }
  destruct Ha as [?|[?|?]]; congruence.
Qed.

Lemma holds_scheduled r mps w w' :
  Inv w -> Inv w' -> holds r mps w -> scheduled w w' -> holds r mps w'.
Proof.
  intros HInv HInv' [Hl (j & Hj & Ha & Hm)] Hs.
  split; [exact (lifecycle_scheduled w w' HInv HInv' Hl Hs)|].
  destruct Hs as [->|(r0 & j0 & evs & Hh & Hj0 & _ & ->)]; [by exists j|].
  exists j. split_and!; try done. simpl. rewrite list_lookup_insert_ne; [done|].
  intros ->. destruct (Hl r j Hj) as (Hpl & _).
  destruct (Job_placed_iff w r j HInv Hpl) as (_ & Hq & _).
  assert (Hs : Job.status j = QUEUED).
  { apply Hq. destruct (queue w); simplify_eq/=. by left. }
  destruct Ha as [?|[?|?]]; congruence.
Qed.

Lemma holds_visited r mps w x kept rest w' :
  Inv w -> Inv w' -> holds r mps w -> running_jobs w = kept ++ x :: rest ->
  visited (simulated_wallclock w) x kept rest w w' -> holds r mps w'.
Proof.
  intros HInv HInv' [Hl (j & Hj & Ha & Hm)] Hrj Hv.
  split; [exact (lifecycle_visited w x kept rest w' HInv HInv' Hl Hrj Hv)|].
  destruct Hv as (jx & jx' & evs & Hjx & Ht & Hjx' & Hne & _).
  destruct (decide (r = x)) as [->|Hrx].
  - simplify_eq. exists jx'. split_and!; [done | by eapply Job_ticked_admitted |].
    by destruct (Job_ticked_fields _ _ _ _ Ht) as (-> & _).
  - exists j. by rewrite (Hne r Hrx).
Qed.

Lemma holds_inc r mps w :
  Inv w -> holds r mps w ->
  holds r mps (set_simulated_wallclock (simulated_wallclock w + 1) w).
Proof. intros HInv [Hl Hj]. split; [by apply lifecycle_inc | done]. Qed.

(** An admitted job lists the same midplanes after any number of rounds. *)
Lemma ticks_holds r mps n w :
  Inv w -> holds r mps w -> exists w', ticks n w = Ok tt w' /\ Inv w' /\ holds r mps w'.
Proof.
  apply (ticks_keeps (holds r mps)).
  - apply holds_drained.
  - apply holds_scheduled.
  - apply holds_visited.
  - apply holds_inc.
Qed.

(** A sweep changes the list of midplanes of no job. *)
Lemma Mira_jobs_tick_midplanes t w w' :
  Inv w -> Mira_jobs_tick t w = Ok tt w' ->
  forall r, Job.midplanes <$> heap w' !! r = Job.midplanes <$> heap w !! r.
Proof.
  intros HInv Hrun r.
  destruct (Mira_jobs_tick_each t w HInv) as (w'' & Hrun' & _ & Hsw & Heach).
  rewrite Hrun in Hrun'. apply Outcome_Ok_inj in Hrun' as <-.
  destruct (decide (r ∈ running_jobs w)) as [Hin|Hout].
  - apply list_elem_of_split in Hin as (l1 & l2 & Hrj).
    destruct (Heach l1 r l2 Hrj) as [[Ht|Hs] _].
    + destruct Ht as (j & j' & evs & -> & Ht & -> & _). simpl.
      by destruct (Job_ticked_fields _ _ _ _ Ht) as (-> & _).
    + by destruct Hs as (-> & _).
  - destruct Hsw as (_ & _ & _ & _ & Hsame & _). by rewrite Hsame.
Qed.

(** The round in which a job is admitted: when the round is over, the job
    lists the midplanes the search of the scheduler found in the pool the
    round started with. *)
Lemma tick_admission w r j :
  Inv w -> heap w !! r = Some j -> ~ Job_is_admitted j ->
  exists w1, tick w = Ok tt w1 /\
    forall j1, heap w1 !! r = Some j1 -> Job_is_admitted j1 ->
      Job.midplanes j1 = find_vacant (requested_midplanes j) 0%nat (midplanes w) [].
Proof.
  intros HInv Hj Hna.
  destruct (tick_Inv w HInv)
    as (pulled & w1 & w2 & w3 & Ha & Hd & Hs & Hsch & Hrun & Hsw & Ht & _
        & HInv1 & HInv2 & _).
  eexists. split; [exact Ht|]. intros j1 Hj1 Ha1. simpl in Hj1.
  destruct Hd as (_ & _ & _ & Hmp1 & _ & Hreq1 & _ & _ & Hout1 & Hin1).
  assert (Hja : exists ja, heap w1 !! r = Some ja /\ ~ Job_is_admitted ja /\
                           requested_midplanes ja = requested_midplanes j).
  { pose proof (Hreq1 r) as Hreq. rewrite Hj in Hreq.
    destruct (heap w1 !! r) as [ja|] eqn:Hja; [|done]. exists ja. split; [done|].
    simpl in Hreq. unfold Job_request in Hreq. injection Hreq as ? Hnodes ? ?. split.
    - destruct (decide (r ∈ pulled)) as [Hp|Hp].
      + specialize (Hin1 r Hp). rewrite Hja in Hin1. simpl in Hin1.
        injection Hin1 as Hq. unfold Job_is_admitted. rewrite Hq.
        intros [?|[?|?]]; done.
      + rewrite (Hout1 r Hp), Hj in Hja. by simplify_eq.
    - unfold requested_midplanes. congruence. }
  destruct Hja as (ja & Hja & Hnaa & Hreqa).
  assert (Hnr : r ∉ running_jobs w1).
  { intros Hin. destruct (inv_running _ HInv1 r Hin) as (j0 & Hj0 & Hst & _).
    simplify_eq. apply Hnaa. unfold Job_is_admitted. tauto. }
  pose proof (Mira_jobs_tick_midplanes _ _ _ HInv2 Hrun r) as Hkeep.
  destruct Hsw as (_ & _ & _ & _ & Hsame & _).
  destruct Hsch as [->|(r0 & j0 & evs & Hh & Hj0 & _ & ->)].
  - rewrite (Hsame r Hnr), Hja in Hj1. by simplify_eq.
  - destruct (decide (r = r0)) as [->|Hne].
    + simpl in Hkeep. rewrite Hj1 in Hkeep.
      rewrite list_lookup_insert_eq in Hkeep by (by eapply lookup_lt_Some).
      simpl in Hkeep. simplify_eq. by rewrite Hkeep, Hreqa, Hmp1.
    + rewrite Hsame in Hj1.
      * simpl in Hj1. rewrite list_lookup_insert_ne in Hj1 by done. by simplify_eq.
      * simpl. rewrite elem_of_app, list_elem_of_singleton. tauto.
Qed.

(** X10.  A job keeps the midplanes it was admitted with.  When every job of
    the trace starts out [CREATED], then after any number of rounds every
    job that is [READY], [RUNNING] or [ENDED] lists exactly
    [num_of_requested_nodes // 512] midplanes.  When the round in which a
    job is admitted is over, the job lists the very midplanes the search of
    the scheduler found in that round, whether or not it has started or
    ended in that round; and it lists the same midplanes after any number
    of further rounds: the list is not changed when the job starts, nor
    cleared when it ends and its midplanes are released. *)
Theorem admitted_jobs_keep_their_midplanes jobs n m :
  (forall j, j ∈ jobs -> Job.status j = CREATED) ->
  exists w w1 w',
    ticks n (initial jobs) = Ok tt w /\ tick w = Ok tt w1 /\ ticks m w1 = Ok tt w' /\
    (forall r j, heap w !! r = Some j -> Job_is_admitted j ->
       Z.of_nat (length (Job.midplanes j)) = Job.num_of_requested_nodes j `div` 512) /\
    (forall r j j1, heap w !! r = Some j -> ~ Job_is_admitted j ->
       heap w1 !! r = Some j1 -> Job_is_admitted j1 ->
       Job.midplanes j1 =
       find_vacant (Job.num_of_requested_nodes j `div` 512) 0%nat (midplanes w) []) /\
    (forall r j1, heap w1 !! r = Some j1 -> Job_is_admitted j1 ->
       exists j', heap w' !! r = Some j' /\ Job_is_admitted j' /\
                  Job.midplanes j' = Job.midplanes j1).
Proof.
  intros Hc.
  destruct (ticks_lifecycle n (initial jobs) (Inv_initial jobs) (lifecycle_initial jobs Hc))
    as (w & Hn & HInv & Hl).
  destruct (tick_keeps lifecycle lifecycle_drained lifecycle_scheduled lifecycle_visited
              lifecycle_inc w HInv Hl) as (w1 & Ht & HInv1 & Hl1).
  destruct (ticks_lifecycle m w1 HInv1 Hl1) as (w' & Hm & HInv' & Hl').
  exists w, w1, w'. split_and!; try done.
  - intros r j Hj Hs. destruct (Hl r j Hj) as (_ & _ & Hsv).
    unfold Job_served, requested_midplanes in Hsv.
    by destruct Hs as [Hs|[Hs|Hs]]; rewrite Hs in Hsv.
  - intros r j j1 Hj Hna Hj1 Ha1.
    destruct (tick_admission w r j HInv Hj Hna) as (w1' & Ht' & Hfound).
    rewrite Ht in Ht'. apply Outcome_Ok_inj in Ht' as <-.
    by apply Hfound.
  - intros r j1 Hj1 Ha1.
    destruct (ticks_holds r (Job.midplanes j1) m w1 HInv1) as (w'' & Hm' & _ & _ & Hh).
    { split; [done|]. by exists j1. }
    rewrite Hm in Hm'. apply Outcome_Ok_inj in Hm' as <-.
    destruct Hh as (j' & ? & ? & ?). by exists j'.
Qed.

(** A two-midplane job of duration 3: admitted in the first round onto
    midplanes 0 and 1, it lists them still when it has ended. *)
Lemma admitted_jobs_keep_their_midplanes_witness :
  exists w w1 w',
    ticks 0 (initial [Job.init "A" 0 3 1024 "0"]) = Ok tt w /\
    tick w = Ok tt w1 /\ ticks 5 w1 = Ok tt w' /\
    Job.status <$> heap w !! 0%nat = Some CREATED /\
    Job.midplanes <$> heap w1 !! 0%nat = Some [0%nat; 1%nat] /\
    Job.status <$> heap w1 !! 0%nat = Some RUNNING /\
    Job.midplanes <$> heap w' !! 0%nat = Some [0%nat; 1%nat] /\
    Job.status <$> heap w' !! 0%nat = Some ENDED.
Proof.
  destruct (admitted_jobs_keep_their_midplanes [Job.init "A" 0 3 1024 "0"] 0 5)
    as (w & w1 & w' & Hn & Ht & Hm & _ & Hfound & Hkept).
  { intros j Hj. apply list_elem_of_singleton in Hj. by rewrite Hj. }
  assert (Hw : w = initial [Job.init "A" 0 3 1024 "0"]) by (by injection Hn).
  assert (Hw1 : w1 = state_of (tick (initial [Job.init "A" 0 3 1024 "0"])))
    by (by rewrite <- Hw, Ht).
  assert (Hw' : w' = state_of (ticks 5 (state_of (tick (initial [Job.init "A" 0 3 1024 "0"])))))
    by (by rewrite <- Hw1, Hm).
  exists w, w1, w'. split_and!; [done | done | done | ..].
  - rewrite Hw. clear. vm_compute. reflexivity.
  - rewrite Hw1. clear. vm_compute. reflexivity.
  - rewrite Hw1. clear. vm_compute. reflexivity.
  - rewrite Hw'. clear. vm_compute. reflexivity.
  - rewrite Hw'. clear. vm_compute. reflexivity.
Defined.

(** ** Jobs that are never admitted *)

Lemma unfit_same_requests w w' b : same_requests w w' -> unfit w b -> unfit w' b.
Proof.
  intros Hreq (j & Hj & Hbad).
  destruct (same_requests_lookup w w' b j Hreq Hj) as (j' & Hj' & Heq).
  exists j'. split; [done|]. unfold requested_midplanes in *. unfold Job_request in Heq.
  injection Heq as _ Hnodes _ _. by rewrite Hnodes.
Qed.

(** The admission test compares the number of midplanes found, which is
    between 0 and 96, with the number asked for. *)
Lemma scheduled_unfit w w' b :
  Inv w -> unfit w b -> waiting w b -> scheduled w w' -> waiting w' b.
Proof.
  unfold waiting.
  intros HInv (jb & Hjb & Hbad) Hw [->|(r & j & evs & Hh & Hj & Hlen & ->)]; [done|].
  destruct Hw as [Ht|Hq]; [by left|]. right. simpl.
  destruct (queue w) as [|r' q]; [done|]. simpl in Hh. simplify_eq.
  apply elem_of_cons in Hq as [->|Hq]; [|done].
  simplify_eq. pose proof (find_vacant_length (requested_midplanes jb) (midplanes w)).
  rewrite (inv_pool _ HInv) in *. lia.
Qed.

Lemma tick_unfit w b :
  Inv w -> unfit w b -> waiting w b ->
  exists w', tick w = Ok tt w' /\ Inv w' /\ unfit w' b /\ waiting w' b.
Proof.
  intros HInv Hbad Hw.
  destruct (tick_Inv w HInv)
    as (pulled & w1 & w2 & w3 & _ & Hd & _ & Hsch & _ & Hsw & Ht & _ & HI1 & HI2 & HI3 & HI4).
  eexists. split; [exact Ht|]. split; [done|].
  assert (Hreq1 : same_requests w w1) by (by destruct Hd as (_&_&_&_&_&?&_)).
  destruct (scheduled_frame _ _ Hsch) as (Htr2 & _ & Hreq2).
  destruct Hsw as (Hq3 & Htr3 & _ & _ & _ & Hreq3).
  pose proof (unfit_same_requests _ _ _ Hreq1 Hbad) as Hbad1.
  pose proof (drained_waiting _ _ _ _ Hd Hw) as Hw1.
  pose proof (scheduled_unfit _ _ _ HI1 Hbad1 Hw1 Hsch) as Hw2.
  split.
  - apply (unfit_same_requests w3); [done|].
    by apply (unfit_same_requests w2), (unfit_same_requests w1).
  - unfold waiting in *. simpl. by rewrite Hq3, Htr3.
Qed.

Lemma simulation_unfit n w b :
  Inv w -> unfit w b -> waiting w b ->
  exists w', simulation n w = Ok false w' /\ Inv w' /\ unfit w' b /\ waiting w' b.
Proof.
  revert w. induction n as [|n IH]; intros w HInv Hbad Hw; simpl;
    rewrite (loop_cond_waiting _ _ Hw).
  - by exists w.
  - destruct (tick_unfit w b HInv Hbad Hw) as (w1 & Ht & HInv1 & Hbad1 & Hw1).
    rewrite (bind_Ok _ _ _ _ _ Ht). by apply IH.
Qed.

Lemma waiting_initial jobs b j : jobs !! b = Some j -> waiting (initial jobs) b.
Proof.
  intros Hj. left. simpl. apply elem_of_seq. apply lookup_lt_Some in Hj. lia.
Qed.

(** X11.  A job with a negative node count is never admitted: [schedule]
    looks for [num_of_requested_nodes // 512] midplanes, a negative number,
    which the number of midplanes found never equals.  For every trace with
    such a job the job stays in the trace or in the queue, never runs, and
    the main loop is still going after any number of rounds. *)
Theorem negative_request_blocks_forever jobs b j n :
  jobs !! b = Some j ->
  Job.num_of_requested_nodes j < 0 ->
  exists w, simulation n (initial jobs) = Ok false w /\
            (b ∈ trace_jobs w \/ b ∈ queue w) /\ (b ∉ running_jobs w).
Proof.
  intros Hj Hneg.
  destruct (simulation_unfit n (initial jobs) b) as (w & Hs & HInv & _ & Hw).
  - apply Inv_initial.
  - exists j. split; [done|]. left. unfold requested_midplanes.
    apply Z.div_lt_upper_bound; lia.
  - by eapply waiting_initial.
  - exists w. split_and!; [done | exact Hw | by apply Inv_waiting_not_running].
Qed.

Lemma negative_request_blocks_forever_witness :
  exists w, simulation 1000 negative_request = Ok false w /\
            (0%nat ∈ trace_jobs w \/ 0%nat ∈ queue w) /\ (0%nat ∉ running_jobs w).
Proof.
  apply (negative_request_blocks_forever [Job.init "N" 0 1 (-1) "0"] 0%nat
           (Job.init "N" 0 1 (-1) "0") 1000); [reflexivity | simpl; lia].
Defined.

(** ** A job that is overdue *)

Lemma tick_overdue w r :
  Inv w -> overdue w r ->
  exists w', tick w = Ok tt w' /\ Inv w' /\ overdue w' r /\
             trace_jobs w' = trace_jobs w.
Proof.
  intros HInv (Hl & a & Ha & Hlate).
  destruct (tick_Inv w HInv)
    as (pulled & w1 & w2 & w3 & _ & Hd & _ & Hsch & _ & Hsw & Ht & _ & _ & _ & _ & HInv').
  destruct (tick_frame w HInv) as (wf & Htf & _ & Hreq & _ & Hcf).
  rewrite Ht in Htf. apply Outcome_Ok_inj in Htf as <-.
  destruct Hd as (Htr1 & _ & _ & _ & _ & _ & Hdue & _).
  destruct (scheduled_frame _ _ Hsch) as (Htr2 & _ & _).
  destruct Hsw as (_ & Htr3 & _).
  assert (Hnone : pulled = []).
  { destruct pulled as [|p ps]; [done|]. exfalso.
    rewrite reverse_cons, app_assoc in Htr1. rewrite Htr1, last_snoc in Hl.
    injection Hl as ->. rewrite (Hdue r) in Ha by (by left). injection Ha as <-. lia. }
  subst pulled. rewrite reverse_nil, app_nil_r in Htr1.
  assert (Htr : trace_jobs w3 = trace_jobs w) by congruence.
  eexists. split; [exact Ht|]. split_and!; try done.
  split; [simpl; by rewrite Htr|]. exists a. split.
  - by rewrite (arrival_same_requests _ _ _ Hreq).
  - simpl. lia.
Qed.

(** X12.  [get_job] hands out the last job of the trace only at the very
    tick the job is due ([==], not [<=]).  So if that job's submission time
    is already past, it is never handed out: the trace stays as it is, round
    after round, and the main loop never ends. *)
Theorem overdue_job_blocks_the_trace w r a n :
  Inv w ->
  last (trace_jobs w) = Some r ->
  arrival w r = Some a ->
  a < simulated_wallclock w ->
  exists w', simulation n w = Ok false w' /\ trace_jobs w' = trace_jobs w.
Proof.
  intros HInv Hl Ha Hlate.
  assert (Ho : overdue w r) by (split; [done | by exists a]).
  clear Hl Ha Hlate. revert w HInv Ho.
  induction n as [|n IH]; intros w HInv Ho.
  all: assert (Hc : loop_cond w = true).
  1,3: apply (loop_cond_waiting w r); left; destruct Ho as (Hl & _);
       apply last_Some in Hl as [tj ->]; apply elem_of_app; right; by left.
  - exists w. simpl. by rewrite Hc.
  - destruct (tick_overdue w r HInv Ho) as (w1 & Ht & HInv1 & Ho1 & Htr1).
    destruct (IH w1 HInv1 Ho1) as (w' & Hs & Htr').
    exists w'. simpl. rewrite Hc, (bind_Ok _ _ _ _ _ Ht). split; [done | congruence].
Qed.

Lemma overdue_job_blocks_the_trace_witness :
  exists w', simulation 1000 (initial [Job.init "late" (-1) 1 512 "0"]) = Ok false w' /\
             trace_jobs w' = trace_jobs (initial [Job.init "late" (-1) 1 512 "0"]).
Proof.
  apply (overdue_job_blocks_the_trace (initial [Job.init "late" (-1) 1 512 "0"])
           0%nat (-1) 1000);
    [apply Inv_initial | reflexivity | reflexivity | simpl; lia].
Defined.

(** ** The simulation ends *)

Lemma tick_good w : good w -> exists w', tick w = Ok tt w' /\ good w' /\ flow w w'.
Proof.
  intros (HInv & Hord & Htime & Hp & Hf).
  destruct (round_steps w HInv Hord Htime)
    as (pulled & w1 & w2 & w3 & _ & _ & _ & _ & _ & _ & _ & _ & _ & _ & Htick
        & HInv' & Ho' & Ht').
  destruct (tick_keeps pool_ok pool_ok_drained pool_ok_scheduled pool_ok_visited
              pool_ok_inc w HInv Hp) as (wp & Htp & _ & Hp').
  destruct (tick_frame w HInv) as (wf & Htf & _ & Hreq & Hfl & _).
  rewrite Htick in Htp, Htf.
  apply Outcome_Ok_inj in Htp as <-. apply Outcome_Ok_inj in Htf as <-.
  eexists. split; [exact Htick|]. split; [|done].
  split_and!; try done. by apply (fits_same_requests w).
Qed.

Lemma ticks_good n : forall w,
  good w -> exists w', ticks n w = Ok tt w' /\ good w' /\ flow w w'.
Proof.
  induction n as [|n IH]; intros w Hg.
  - exists w. split_and!; try done. apply flow_refl.
  - destruct (tick_good w Hg) as (w1 & Ht & Hg1 & Hfl1).
    destruct (IH w1 Hg1) as (w' & Hn & Hg' & Hfl').
    exists w'. rewrite (ticks_S _ _ _ Ht). split_and!; try done. by eapply flow_trans.
Qed.

Lemma ticks_add m1 m2 w w1 :
  ticks m1 w = Ok tt w1 -> ticks (m1 + m2) w = ticks m2 w1.
Proof.
  revert w. induction m1 as [|m1 IH]; intros w H; simpl in *.
  - by injection H as ->.
  - apply bind_Ok_inv in H as ([] & w0 & Ht & Hn).
    rewrite (bind_Ok _ _ _ _ _ Ht). by apply IH.
Qed.

Lemma flow_pending w w' x : flow w w' -> x ∈ pending w' -> x ∈ pending w.
Proof.
  intros (Ht & Hq & Hr). unfold pending in *. rewrite !elem_of_app.
  intros [H|[H|H]].
  - left. by apply Ht.
  - destruct (Hq x H); tauto.
  - specialize (Hr x H). by rewrite !elem_of_app in Hr.
Qed.

Lemma pending_flow_le w w' :
  Inv w' -> flow w w' -> (length (pending w') <= length (pending w))%nat.
Proof.
  intros HInv' Hfl. apply submseteq_length, NoDup_submseteq.
  - apply (inv_nodup _ HInv').
  - intros x. by apply flow_pending.
Qed.

(** A job that has left the running jobs is one job less to wait for. *)
Lemma pending_flow_lt w w' r :
  Inv w -> Inv w' -> flow w w' ->
  r ∈ running_jobs w -> r ∉ running_jobs w' ->
  (length (pending w') < length (pending w))%nat.
Proof.
  intros HInv HInv' Hfl Hr Hr'.
  destruct (Inv_running_not_waiting w r HInv Hr) as [Hnt Hnq].
  assert (Hnp : r ∉ pending w').
  { unfold pending. rewrite !elem_of_app. destruct Hfl as (Ht & Hq & _).
    intros [H|[H|H]]; [by apply Hnt, Ht | | done].
    destruct (Hq r H); done. }
  assert (Hle : (length (r :: pending w') <= length (pending w))%nat).
  { apply submseteq_length, NoDup_submseteq.
    - apply NoDup_cons. split; [done|]. apply (inv_nodup _ HInv').
    - intros x [->|Hx]%elem_of_cons; [|by eapply flow_pending].
      unfold pending. rewrite !elem_of_app. tauto. }
  simpl in Hle. lia.
Qed.

Lemma all_vacant_from i mps :
  (forall m, m ∈ mps -> MidPlane.status m = VACANT) ->
  length (vacant_from i mps) = length mps.
Proof.
  revert i. induction mps as [|mp rest IH]; intros i H; simpl; [done|].
  unfold MidPlane.is_vacant. rewrite bool_decide_true by (apply H; by left).
  simpl. f_equal. apply IH. intros m Hm. apply H. by right.
Qed.

(** With no job running, every midplane is vacant. *)
Lemma idle_pool_vacant w :
  pool_ok w -> running_jobs w = [] ->
  length (vacant_indices (midplanes w)) = length (midplanes w).
Proof.
  intros Hp Hrun. apply all_vacant_from. intros m Hm.
  apply list_elem_of_lookup in Hm as [i Hi].
  destruct (Hp i m Hi) as (_ & _ & [(Hv & _)|(r & j & _ & _ & _ & Hr & _)]); [done|].
  rewrite Hrun in Hr. by apply elem_of_nil in Hr.
Qed.

(** While a job is running, some job ends after finitely many rounds. *)
Lemma busy_progress w :
  good w -> running_jobs w <> [] ->
  exists m w', ticks m w = Ok tt w' /\ good w' /\
               (length (pending w') < length (pending w))%nat.
Proof.
  intros Hg Hne. pose proof Hg as (HInv & _).
  destruct (running_jobs w) as [|r l2] eqn:Hrj; [done|].
  assert (Hr : r ∈ running_jobs w) by (rewrite Hrj; by left).
  destruct (inv_running _ HInv r Hr) as (j & Hj & _).
  destruct (running_job_ends (remaining (simulated_wallclock w) j) w [] r l2 j HInv Hrj Hj)
    as (m & w' & j' & Hm & HInv' & _ & _ & Hgone & _); [simpl; lia|].
  destruct (ticks_good m w Hg) as (w'' & Hm' & Hg' & Hfl).
  rewrite Hm in Hm'. apply Outcome_Ok_inj in Hm' as <-.
  exists m, w'. split_and!; try done. by apply (pending_flow_lt w w' r).
Qed.

(** A round of the idle machine: the head of the queue is admitted, or
    there is nothing queued and the round only moves the wallclock towards
    the next arrival. *)
Lemma idle_round w :
  good w -> running_jobs w = [] -> pending w <> [] ->
  exists w', tick w = Ok tt w' /\ good w' /\
    (length (pending w') <= length (pending w))%nat /\
    (running_jobs w' <> [] \/
     (length (pending w') < length (pending w))%nat \/
     (running_jobs w' = [] /\ queue w = [] /\ queue w' = [] /\
      exists r a, last (trace_jobs w) = Some r /\ last (trace_jobs w') = Some r /\
                  arrival w r = Some a /\ arrival w' r = Some a /\
                  simulated_wallclock w < a /\
                  simulated_wallclock w' = simulated_wallclock w + 1)).
Proof.
  intros Hg Hrun Hpend. pose proof Hg as (HInv & Hord & Htime & Hp & Hf).
  destruct (tick_Inv w HInv)
    as (pulled & w1 & w2 & w3 & Ha & Hd & Hs & Hsch & Hj & Hsw & Ht & Hc3
        & HInv1 & HInv2 & HInv3 & HInv').
  destruct (tick_good w Hg) as (w' & Ht' & Hg' & Hfl).
  destruct (tick_frame w HInv) as (wf & Htf & _ & Hreq & _ & Hcf).
  rewrite Ht in Ht', Htf.
  apply Outcome_Ok_inj in Ht' as <-. apply Outcome_Ok_inj in Htf as <-.
  eexists. split; [exact Ht|]. split; [done|].
  split; [by apply pending_flow_le|].
  pose proof Hd as (Htr1 & Hq1 & Hrun1 & Hmp1 & Hc1 & Hreq1 & Hdue & Hlast & Hout & Hin).
  pose proof Hsw as (Hq3 & Htr3 & _ & Hsub3 & _ & _).
  destruct (scheduled_frame _ _ Hsch) as (Htr2 & Hc2 & _).
  destruct (queue w1) as [|h q] eqn:Hqw1.
  - (* nothing is queued *)
    right. right. symmetry in Hq1. apply app_eq_nil in Hq1 as [Hq0 ->].
    assert (w2 = w1) as ->.
    { destruct Hsch as [->|(r & j & evs & Hh & _)]; [done|]. by rewrite Hqw1 in Hh. }
    rewrite Hrun1, Hrun in Hsub3. apply sublist_nil_r in Hsub3.
    rewrite reverse_nil, app_nil_r in Htr1.
    destruct (last (trace_jobs w)) as [r|] eqn:Hl.
    2:{ apply last_None in Hl. exfalso. apply Hpend. unfold pending.
        by rewrite Hl, Hq0, Hrun. }
    assert (Hrin : r ∈ trace_jobs w).
    { apply last_Some in Hl as [tj ->]. apply elem_of_app. right. by left. }
    destruct (inv_refs _ HInv r) as [j Hjr]; [apply elem_of_app; by left|].
    assert (Harr : arrival w r = Some (Job.submitted_time j)).
    { unfold arrival. by rewrite Hjr. }
    split_and!; [done | done | simpl; congruence |].
    exists r, (Job.submitted_time j). split_and!; try done.
    + simpl. by rewrite Htr3, <- Htr1.
    + by rewrite (arrival_same_requests _ _ _ Hreq).
    + specialize (Htime r _ Hrin Harr).
      assert (Job.submitted_time j <> simulated_wallclock w); [|lia].
      intros Heq. apply (Hlast r); [by rewrite <- Htr1 | by rewrite Harr, Heq].
  - (* the head of the queue is admitted *)
    destruct (inv_refs _ HInv1 h) as [j Hjh].
    { rewrite Hqw1. apply elem_of_app. right. by left. }
    pose proof (fits_same_requests _ _ Hreq1 Hf h j Hjh) as Hfit.
    pose proof (pool_ok_drained w pulled w1 HInv HInv1 Hp Hd) as Hp1.
    assert (Hrun1' : running_jobs w1 = []) by congruence.
    pose proof (idle_pool_vacant w1 Hp1 Hrun1') as Hvac.
    rewrite (inv_pool _ HInv1) in Hvac.
    assert (Heq : Z.of_nat (length (find_vacant (requested_midplanes j) 0%nat
                                      (midplanes w1) [])) = requested_midplanes j).
    { apply find_vacant_enough. rewrite Hvac. lia. }
    destruct (Mira_schedule_admits w1 h q j Hqw1 Hjh Heq) as [evs Hs'].
    rewrite Hs in Hs'. apply Outcome_Ok_inj in Hs' as ->.
    simpl in Hq3, Htr3. rewrite Hqw1 in Hq3. simpl in Hq3.
    destruct (running_jobs w3) as [|x l] eqn:Hrun3.
    + right. left. unfold pending. simpl. rewrite Hrun3, Hq3, Htr3, Htr1, Hrun.
      assert (Hlen : (length (queue w) + length pulled = S (length q))%nat).
      { rewrite <- length_app, <- Hq1. done. }
      rewrite !length_app, length_reverse. simpl. lia.
    + left. simpl. by rewrite Hrun3.
Qed.

Lemma idle_progress k : forall w,
  good w -> running_jobs w = [] -> pending w <> [] ->
  (queue w = [] -> forall r a, last (trace_jobs w) = Some r -> arrival w r = Some a ->
     a - simulated_wallclock w <= Z.of_nat k) ->
  exists m w', ticks m w = Ok tt w' /\ good w' /\
    (length (pending w') <= length (pending w))%nat /\
    (running_jobs w' <> [] \/ (length (pending w') < length (pending w))%nat).
Proof.
  induction k as [|k IH]; intros w Hg Hrun Hpend Hbound.
  all: destruct (idle_round w Hg Hrun Hpend) as (w1 & Ht & Hg1 & Hle & Hcases).
  all: destruct Hcases as [Hne|[Hlt|(Hrun1 & Hq0 & Hq1 & r & a & Hl & Hl1 & Ha & Ha1 & Hlate & Hc1)]].
  all: try (exists 1%nat, w1; rewrite (ticks_S _ _ _ Ht);
            split_and!; [done | done | done | by left]).
  all: try (exists 1%nat, w1; rewrite (ticks_S _ _ _ Ht);
            split_and!; [done | done | done | by right]).
  - specialize (Hbound Hq0 r a Hl Ha). lia.
  - destruct (IH w1 Hg1 Hrun1) as (m & w' & Hm & Hg' & Hle' & Hcases').
    + unfold pending. destruct (trace_jobs w1); [done|]. done.
    + intros _ r' a' Hl' Ha'. rewrite Hl1 in Hl'. injection Hl' as <-.
      rewrite Ha1 in Ha'. injection Ha' as <-.
      specialize (Hbound Hq0 r a Hl Ha). lia.
    + exists (S m), w'. rewrite (ticks_S _ _ _ Ht). split_and!; try done; [lia|].
      destruct Hcases' as [?|?]; [by left | right; lia].
Qed.

(** From any state with a job left, some job ends after finitely many
    rounds. *)
Lemma progress w :
  good w -> pending w <> [] ->
  exists m w', ticks m w = Ok tt w' /\ good w' /\
               (length (pending w') < length (pending w))%nat.
Proof.
  intros Hg Hpend. destruct (decide (running_jobs w = [])) as [Hrun|Hrun].
  2:{ by apply busy_progress. }
  destruct (idle_progress
    (Z.to_nat match last (trace_jobs w) with
              | Some r => match arrival w r with
                          | Some a => a - simulated_wallclock w
                          | None => 0
                          end
              | None => 0
              end) w Hg Hrun Hpend) as (m1 & w1 & Hm1 & Hg1 & Hle & [Hne|Hlt]).
  - intros _ r a Hl Ha. rewrite Hl, Ha. lia.
  - destruct (busy_progress w1 Hg1 Hne) as (m2 & w2 & Hm2 & Hg2 & Hlt).
    exists (m1 + m2)%nat, w2. rewrite (ticks_add _ _ _ _ Hm1). split_and!; try done. lia.
  - by exists m1, w1.
Qed.

Lemma simulation_after_ticks m : forall w w1,
  ticks m w = Ok tt w1 ->
  (exists n w', simulation n w1 = Ok true w') ->
  exists n w', simulation n w = Ok true w'.
Proof.
  induction m as [|m IH]; intros w w1 Hm Hend; simpl in Hm.
  - by injection Hm as ->.
  - apply bind_Ok_inv in Hm as ([] & w0 & Ht & Hn).
    destruct (loop_cond w) eqn:E.
    + destruct (IH _ _ Hn Hend) as (n & w' & Hs).
      exists (S n), w'. simpl. by rewrite E, (bind_Ok _ _ _ _ _ Ht).
    + exists 0%nat, w. simpl. by rewrite E.
Qed.

Lemma good_simulation_ends N : forall w,
  good w -> (length (pending w) <= N)%nat ->
  exists n w', simulation n w = Ok true w'.
Proof.
  induction N as [|N IH]; intros w Hg HN.
  all: destruct (decide (pending w = [])) as [He|Hne];
    [exists 0%nat, w; simpl; by rewrite (proj2 (loop_cond_false w) He)|].
  - destruct (pending w); [done | simpl in HN; lia].
  - destruct (progress w Hg Hne) as (m & w1 & Hm & Hg1 & Hlt).
    apply (simulation_after_ticks m w w1 Hm). apply IH; [done | lia].
Qed.

Lemma fits_initial jobs :
  (forall j, j ∈ jobs -> 0 <= Job.num_of_requested_nodes j < 49664) ->
  fits (initial jobs).
Proof.
  intros H r j Hj. simpl in Hj. specialize (H j (list_elem_of_lookup_2 _ _ _ Hj)).
  unfold requested_midplanes. split.
  - apply Z.div_pos; lia.
  - apply Z.lt_succ_r. apply Z.div_lt_upper_bound; lia.
Qed.

Lemma good_initial jobs :
  (forall i i' j j', (i < i')%nat -> jobs !! i = Some j -> jobs !! i' = Some j' ->
                     Job.submitted_time j' <= Job.submitted_time j) ->
  (forall j, j ∈ jobs -> 0 <= Job.submitted_time j) ->
  (forall j, j ∈ jobs -> 0 <= Job.num_of_requested_nodes j < 49664) ->
  good (initial jobs).
Proof.
  intros Hsorted Hpos Hfit. split_and!.
  - apply Inv_initial.
  - by apply feed_ordered_initial.
  - apply feed_in_time_initial. intros i j Hj. apply Hpos.
    by eapply list_elem_of_lookup_2.
  - apply pool_ok_initial.
  - by apply fits_initial.
Qed.

Lemma sorted_trace_ends jobs :
  (forall i i' j j', (i < i')%nat -> jobs !! i = Some j -> jobs !! i' = Some j' ->
                     Job.submitted_time j' <= Job.submitted_time j) ->
  (forall j, j ∈ jobs -> 0 <= Job.submitted_time j) ->
  (forall j, j ∈ jobs -> 0 <= Job.num_of_requested_nodes j < 49664) ->
  exists n w, simulation n (initial jobs) = Ok true w.
Proof.
  intros Hsorted Hpos Hfit.
  apply (good_simulation_ends (length (pending (initial jobs)))); [|done].
  by apply good_initial.
Qed.

(** X13.  The simulation ends exactly when every job fits.  For a trace as
    the parser leaves it (latest submission first, no submission before time
    0) the main loop ends after finitely many rounds if and only if every
    job asks for at least 0 and fewer than 49664 nodes (97 x 512). *)
Theorem simulation_ends_iff_every_job_fits jobs :
  (forall i i' j j', (i < i')%nat -> jobs !! i = Some j -> jobs !! i' = Some j' ->
                     Job.submitted_time j' <= Job.submitted_time j) ->
  (forall j, j ∈ jobs -> 0 <= Job.submitted_time j) ->
  (exists n w, simulation n (initial jobs) = Ok true w) <->
  (forall j, j ∈ jobs -> 0 <= Job.num_of_requested_nodes j < 49664).
Proof.
  intros Hsorted Hpos. split.
  - intros (n & w & Hs) j Hj.
    destruct (decide (0 <= Job.num_of_requested_nodes j < 49664)) as [|Hbad]; [done|].
    exfalso. apply list_elem_of_lookup in Hj as [b Hb].
    destruct (simulation_unfit n (initial jobs) b) as (w' & Hs' & _).
    + apply Inv_initial.
    + exists j. split; [done|]. unfold requested_midplanes.
      destruct (decide (Job.num_of_requested_nodes j < 0)).
      * left. apply Z.div_lt_upper_bound; lia.
      * right. apply Z.lt_le_trans with 97; [lia|]. apply Z.div_le_lower_bound; lia.
    + by eapply waiting_initial.
    + rewrite Hs in Hs'. discriminate.
  - by apply sorted_trace_ends.
Qed.

Lemma simulation_ends_iff_every_job_fits_witness :
  (exists n w, simulation n two_jobs = Ok true w) <->
  (forall j, j ∈ [Job.init "B" 0 1 512 "0"; Job.init "A" 0 2 512 "0"] ->
             0 <= Job.num_of_requested_nodes j < 49664).
Proof.
  apply (simulation_ends_iff_every_job_fits
           [Job.init "B" 0 1 512 "0"; Job.init "A" 0 2 512 "0"]).
  - intros [|[|i]] [|[|i']] j j' Hlt Hj Hj'; simplify_eq/=; lia.
  - intros j Hj. repeat (apply elem_of_cons in Hj as [->|Hj]); simpl; try lia.
    by apply elem_of_nil in Hj.
Defined.

(** The state in which the main loop ends is the state after some number of
    rounds, and nothing is left to do in it. *)
Lemma loop_end_ticks jobs n w :
  simulation n (initial jobs) = Ok true w ->
  exists m, ticks m (initial jobs) = Ok tt w /\
            trace_jobs w = [] /\ queue w = [] /\ running_jobs w = [].
Proof.
  intros Hs. destruct (simulation_ticks _ _ _ _ Hs) as (m & _ & Hm & Hcond).
  exists m. split; [done|]. apply loop_cond_false in Hcond. unfold pending in Hcond.
  apply app_eq_nil in Hcond as [? Hcond]. by apply app_eq_nil in Hcond as [? ?].
Qed.

Lemma loop_end_jobs jobs n w :
  (forall j, j ∈ jobs -> Job.status j = CREATED) ->
  simulation n (initial jobs) = Ok true w ->
  forall r j, heap w !! r = Some j ->
    Job.status j = ENDED /\ Job_timed (simulated_wallclock w) j.
Proof.
  intros Hc Hs. destruct (loop_end_ticks jobs n w Hs) as (m & Hm & Htr & Hq & Hrun).
  destruct (ticks_lifecycle m (initial jobs) (Inv_initial jobs) (lifecycle_initial jobs Hc))
    as (w1 & Hm1 & _ & Hl).
  rewrite Hm in Hm1. apply Outcome_Ok_inj in Hm1 as <-.
  intros r j Hj. destruct (Hl r j Hj) as (Hpl & Htm & _). split; [|done].
  unfold Job_placed in Hpl. rewrite Htr, Hq, Hrun in Hpl.
  destruct (Job.status j); try (by apply elem_of_nil in Hpl). done.
Qed.

Lemma loop_end_pool jobs n w :
  simulation n (initial jobs) = Ok true w ->
  forall i m, midplanes w !! i = Some m -> MidPlane_clean m.
Proof.
  intros Hs. destruct (loop_end_ticks jobs n w Hs) as (m & Hm & _ & _ & Hrun).
  destruct (ticks_pool_ok m (initial jobs) (Inv_initial jobs) (pool_ok_initial jobs))
    as (w2 & Hm2 & _ & Hp).
  rewrite Hm in Hm2. apply Outcome_Ok_inj in Hm2 as <-.
  intros i mp Hmp.
  destruct (Hp i mp Hmp) as (_ & _ & [?|(r & j & _ & _ & _ & Hr & _)]); [done|].
  rewrite Hrun in Hr. by apply elem_of_nil in Hr.
Qed.

(** X14.  When the main loop ends, all the work is done.  If every job of
    the trace starts out [CREATED] and the loop ends, then every job is
    [ENDED], having started no earlier than it was submitted and ended no
    earlier than start plus duration, and every midplane of the pool is
    pristine again: [VACANT], without a job, with no node assigned. *)
Theorem at_the_end_every_job_has_ended jobs n w :
  (forall j, j ∈ jobs -> Job.status j = CREATED) ->
  simulation n (initial jobs) = Ok true w ->
  length (heap w) = length jobs /\
  (forall r j, heap w !! r = Some j ->
     Job.status j = ENDED /\
     exists s e, Job.start_time j = Some s /\ Job.end_time j = Some e /\
                 Job.submitted_time j <= s /\ s <= e /\
                 s + Job.duration j <= e /\ e <= simulated_wallclock w) /\
  (forall i m, midplanes w !! i = Some m -> MidPlane_clean m).
Proof.
  intros Hc Hs. split_and!.
  - destruct (loop_end_ticks jobs n w Hs) as (m & Hm & _).
    destruct (ticks_frame m (initial jobs) (Inv_initial jobs)) as (w3 & Hm3 & _ & Hreq & _).
    rewrite Hm in Hm3. apply Outcome_Ok_inj in Hm3 as <-.
    by apply (same_requests_length (initial jobs)).
  - intros r j Hj. destruct (loop_end_jobs jobs n w Hc Hs r j Hj) as (He & Ht).
    split; [done|]. unfold Job_timed in Ht. by rewrite He in Ht.
  - by apply (loop_end_pool jobs n).
Qed.

Lemma at_the_end_every_job_has_ended_witness :
  let w := state_of (simulation 10 scenario_A) in
  length (heap w) = length [Job.init "A" 0 3 512 "0"] /\
  (forall r j, heap w !! r = Some j ->
     Job.status j = ENDED /\
     exists s e, Job.start_time j = Some s /\ Job.end_time j = Some e /\
                 Job.submitted_time j <= s /\ s <= e /\
                 s + Job.duration j <= e /\ e <= simulated_wallclock w) /\
  (forall i m, midplanes w !! i = Some m -> MidPlane_clean m).
Proof.
  apply (at_the_end_every_job_has_ended [Job.init "A" 0 3 512 "0"] 10).
  - intros j Hj. apply list_elem_of_singleton in Hj. by rewrite Hj.
  - vm_compute. reflexivity.
Defined.

(** ** [Trace.parse_trace_file] *)

Lemma sort_insert_perm x l : sort_insert x l ≡ₚ x :: l.
Proof.
  induction l as [|y l IH]; simpl; [done|].
  destruct (_ <=? _); [done|]. rewrite IH. apply Permutation_swap.
Qed.

Lemma sort_perm l : sort_reverse_by_submitted_time l ≡ₚ l.
Proof.
  induction l as [|x l IH]; simpl; [done|]. by rewrite sort_insert_perm, IH.
Qed.

Lemma sort_insert_sorted x l : latest_first l -> latest_first (sort_insert x l).
Proof.
  induction l as [|y l IH]; simpl.
  - intros _. split; [|done]. by intros y ?%elem_of_nil.
  - intros [Hy Hl]. destruct (_ <=? _) eqn:Hle.
    + apply Z.leb_le in Hle. split; [|by split].
      intros z [->|Hz]%elem_of_cons; [done|]. specialize (Hy z Hz). lia.
    + apply Z.leb_gt in Hle. split; [|by apply IH].
      intros z Hz. rewrite sort_insert_perm in Hz.
      apply elem_of_cons in Hz as [->|Hz]; [lia | by apply Hy].
Qed.

Lemma sort_sorted l : latest_first (sort_reverse_by_submitted_time l).
Proof. induction l as [|x l IH]; simpl; [done|]. by apply sort_insert_sorted. Qed.

Lemma latest_first_lookup l : latest_first l ->
  forall i i' j j', (i < i')%nat -> l !! i = Some j -> l !! i' = Some j' ->
                    Job.submitted_time j' <= Job.submitted_time j.
Proof.
  induction l as [|x l IH]; [by intros _ i i' j j' _ ?|].
  intros [Hx Hl] i i' j j' Hlt Hj Hj'.
  destruct i' as [|i']; [lia|]. destruct i as [|i]; simpl in *.
  - injection Hj as <-. apply Hx. by eapply list_elem_of_lookup_2.
  - apply (IH Hl i i'); [lia | done | done].
Qed.

(** The last job of a sorted trace is an earliest one. *)
Lemma latest_first_last l jl x :
  latest_first l -> last l = Some jl -> x ∈ l ->
  Job.submitted_time jl <= Job.submitted_time x.
Proof.
  intros Hl Hlast Hx. rewrite last_lookup in Hlast.
  apply list_elem_of_lookup in Hx as [i Hi].
  pose proof (lookup_lt_Some _ _ _ Hi) as Hlt.
  destruct (decide (i = pred (length l))) as [->|Hne].
  - rewrite Hi in Hlast. by injection Hlast as ->.
  - apply (latest_first_lookup l Hl i (pred (length l))); [lia | done | done].
Qed.

Lemma latest_first_shifted e l : latest_first l -> latest_first (Job_shifted e <$> l).
Proof.
  induction l as [|x l IH]; [done|]. intros [Hx Hl]. split; [|by apply IH].
  intros y (y0 & -> & Hy0)%list_elem_of_fmap. simpl. specialize (Hx y0 Hy0). lia.
Qed.

(** [parse_trace_file] succeeds when the sorted list has a last job, and
    then shifts every job by the submission time of that one. *)
Lemma parse_unfold rows jobs :
  Trace_parse_trace_file rows = inr jobs ->
  exists jl,
    last (sort_reverse_by_submitted_time (Job_of_row <$> rows)) = Some jl /\
    jobs = Job_shifted (Job.submitted_time jl)
             <$> sort_reverse_by_submitted_time (Job_of_row <$> rows).
Proof.
  unfold Trace_parse_trace_file.
  destruct (last _) as [jl|]; [|done]. intros [= <-]. by exists jl.
Qed.





(** X16.  [parse_trace_file] makes the trace the main loop relies on.  The
    jobs it leaves are the jobs of the rows, each with the duration
    [END - START], status [CREATED], no midplanes and no start or end time,
    and with the earliest submission time of the file subtracted from its
    submission time; they are ordered latest submission first, and the last
    of them is submitted at time 0. *)
Theorem parse_trace_file_sorts_and_shifts rows jobs :
  Trace_parse_trace_file rows = inr jobs ->
  exists earliest,
    (exists row, row ∈ rows /\ Row.QUEUED_TIMESTAMP row = earliest) /\
    (forall row, row ∈ rows -> earliest <= Row.QUEUED_TIMESTAMP row) /\
    jobs ≡ₚ (fun row => Job.init (Row.JOB_NAME row)
                                 (Row.QUEUED_TIMESTAMP row - earliest)
                                 (Row.END_TIMESTAMP row - Row.START_TIMESTAMP row)
                                 (Row.NODES_REQUESTED row)
                                 (Row.EXIT_STATUS row)) <$> rows /\
    (forall i i' j j', (i < i')%nat -> jobs !! i = Some j -> jobs !! i' = Some j' ->
                       Job.submitted_time j' <= Job.submitted_time j) /\
    (exists j, last jobs = Some j /\ Job.submitted_time j = 0).
Proof.
  intros (jl & Hl & ->)%parse_unfold.
  set (sorted := sort_reverse_by_submitted_time (Job_of_row <$> rows)) in *.
  pose proof (sort_perm (Job_of_row <$> rows)) as Hperm. fold sorted in Hperm.
  pose proof (sort_sorted (Job_of_row <$> rows)) as Hsorted. fold sorted in Hsorted.
  exists (Job.submitted_time jl). split_and!.
  - apply last_Some_elem_of in Hl. rewrite Hperm in Hl.
    apply list_elem_of_fmap in Hl as (row & -> & Hrow). by exists row.
  - intros row Hrow.
    apply (latest_first_last sorted jl (Job_of_row row) Hsorted Hl).
    rewrite Hperm. apply list_elem_of_fmap. by exists row.
  - rewrite Hperm, <- list_fmap_compose. done.
  - by apply latest_first_lookup, latest_first_shifted.
  - rewrite fmap_last, Hl. eexists. split; [done|]. simpl. lia.
Qed.

Lemma parse_trace_file_sorts_and_shifts_witness :
  exists earliest,
    (exists row, row ∈ two_rows /\ Row.QUEUED_TIMESTAMP row = earliest) /\
    (forall row, row ∈ two_rows -> earliest <= Row.QUEUED_TIMESTAMP row) /\
    [Job.init "B" 0 1 512 "0"; Job.init "A" 0 2 512 "0"]
      ≡ₚ (fun row => Job.init (Row.JOB_NAME row)
                              (Row.QUEUED_TIMESTAMP row - earliest)
                              (Row.END_TIMESTAMP row - Row.START_TIMESTAMP row)
                              (Row.NODES_REQUESTED row)
                              (Row.EXIT_STATUS row)) <$> two_rows /\
    (forall i i' j j', (i < i')%nat ->
       [Job.init "B" 0 1 512 "0"; Job.init "A" 0 2 512 "0"] !! i = Some j ->
       [Job.init "B" 0 1 512 "0"; Job.init "A" 0 2 512 "0"] !! i' = Some j' ->
       Job.submitted_time j' <= Job.submitted_time j) /\
    (exists j, last [Job.init "B" 0 1 512 "0"; Job.init "A" 0 2 512 "0"] = Some j /\
               Job.submitted_time j = 0).
Proof.
  apply (parse_trace_file_sorts_and_shifts two_rows
           [Job.init "B" 0 1 512 "0"; Job.init "A" 0 2 512 "0"]).
  reflexivity.
Defined.

Lemma sort_insert_stable t x l :
  filter (fun j => Job.submitted_time j = t) (sort_insert x l) =
  filter (fun j => Job.submitted_time j = t) (x :: l).
Proof.
  induction l as [|y l IH]; simpl; [done|].
  destruct (_ <=? _) eqn:Hle; [done|]. apply Z.leb_gt in Hle.
  rewrite (filter_cons _ y), IH, !filter_cons.
  destruct (decide (Job.submitted_time y = t)), (decide (Job.submitted_time x = t));
    try done. lia.
Qed.

Lemma sort_stable t l :
  filter (fun j => Job.submitted_time j = t) (sort_reverse_by_submitted_time l) =
  filter (fun j => Job.submitted_time j = t) l.
Proof.
  induction l as [|x l IH]; simpl; [done|].
  by rewrite sort_insert_stable, !filter_cons, IH.
Qed.

Lemma filter_shifted e t (l : list Job.t) :
  filter (fun j => Job.submitted_time j = t) (Job_shifted e <$> l) =
  Job_shifted e <$> filter (fun j => Job.submitted_time j = t + e) l.
Proof.
  induction l as [|x l IH]; [done|]. rewrite fmap_cons, !filter_cons, IH. simpl.
  destruct (decide (Job.submitted_time x - e = t)),
           (decide (Job.submitted_time x = t + e)); try done; lia.
Qed.

(** X17.  The sort of [parse_trace_file] is stable: the jobs with one and
    the same submission time stand in [trace.jobs] in the order of their
    rows in the file.  ([get_job] pops from the end, so of the jobs
    submitted at the same time the one listed last is queued first.) *)
Theorem parse_trace_file_keeps_the_file_order_of_ties rows jobs :
  Trace_parse_trace_file rows = inr jobs ->
  exists earliest,
    (exists row, row ∈ rows /\ Row.QUEUED_TIMESTAMP row = earliest) /\
    (forall row, row ∈ rows -> earliest <= Row.QUEUED_TIMESTAMP row) /\
    forall t,
      filter (fun j => Job.submitted_time j = t) jobs =
      filter (fun j => Job.submitted_time j = t)
        ((fun row => Job.init (Row.JOB_NAME row)
                              (Row.QUEUED_TIMESTAMP row - earliest)
                              (Row.END_TIMESTAMP row - Row.START_TIMESTAMP row)
                              (Row.NODES_REQUESTED row)
                              (Row.EXIT_STATUS row)) <$> rows).
Proof.
  intros (jl & Hl & ->)%parse_unfold.
  set (sorted := sort_reverse_by_submitted_time (Job_of_row <$> rows)) in *.
  pose proof (sort_perm (Job_of_row <$> rows)) as Hperm. fold sorted in Hperm.
  pose proof (sort_sorted (Job_of_row <$> rows)) as Hsorted. fold sorted in Hsorted.
  exists (Job.submitted_time jl). split_and!.
  - apply last_Some_elem_of in Hl. rewrite Hperm in Hl.
    apply list_elem_of_fmap in Hl as (row & -> & Hrow). by exists row.
  - intros row Hrow.
    apply (latest_first_last sorted jl (Job_of_row row) Hsorted Hl).
    rewrite Hperm. apply list_elem_of_fmap. by exists row.
  - intros t. unfold sorted. rewrite filter_shifted, sort_stable, <- filter_shifted.
    by rewrite <- list_fmap_compose.
Qed.

Lemma parse_trace_file_keeps_the_file_order_of_ties_witness :
  exists earliest,
    (exists row, row ∈ two_rows /\ Row.QUEUED_TIMESTAMP row = earliest) /\
    (forall row, row ∈ two_rows -> earliest <= Row.QUEUED_TIMESTAMP row) /\
    forall t,
      filter (fun j => Job.submitted_time j = t)
        [Job.init "B" 0 1 512 "0"; Job.init "A" 0 2 512 "0"] =
      filter (fun j => Job.submitted_time j = t)
        ((fun row => Job.init (Row.JOB_NAME row)
                              (Row.QUEUED_TIMESTAMP row - earliest)
                              (Row.END_TIMESTAMP row - Row.START_TIMESTAMP row)
                              (Row.NODES_REQUESTED row)
                              (Row.EXIT_STATUS row)) <$> two_rows).
Proof.
  apply (parse_trace_file_keeps_the_file_order_of_ties two_rows
           [Job.init "B" 0 1 512 "0"; Job.init "A" 0 2 512 "0"]).
  reflexivity.
Defined.

Lemma parsed_job rows jobs j :
  Trace_parse_trace_file rows = inr jobs -> j ∈ jobs ->
  exists row, row ∈ rows /\
    Job.num_of_requested_nodes j = Row.NODES_REQUESTED row /\
    0 <= Job.submitted_time j /\ Job.status j = CREATED.
Proof.
  intros (jl & Hl & ->)%parse_unfold (j0 & -> & Hj0)%list_elem_of_fmap.
  pose proof (latest_first_last _ jl j0 (sort_sorted _) Hl Hj0) as Hmin.
  rewrite sort_perm in Hj0. apply list_elem_of_fmap in Hj0 as (row & -> & Hrow).
  exists row. split_and!; try done. simpl in *. lia.
Qed.

Lemma parsed_sorted rows jobs :
  Trace_parse_trace_file rows = inr jobs ->
  forall i i' j j', (i < i')%nat -> jobs !! i = Some j -> jobs !! i' = Some j' ->
                    Job.submitted_time j' <= Job.submitted_time j.
Proof.
  intros (jl & Hl & ->)%parse_unfold.
  apply latest_first_lookup, latest_first_shifted, sort_sorted.
Qed.

Lemma parsed_length rows jobs :
  Trace_parse_trace_file rows = inr jobs -> length jobs = length rows.
Proof.
  intros (jl & Hl & ->)%parse_unfold.
  by rewrite length_fmap, sort_perm, length_fmap.
Qed.

(** X18.  Parsing and simulating compose.  For every trace file with at
    least one row in which every row asks for at least 0 and fewer than
    49664 nodes, the main loop on the parsed trace raises nothing and ends
    after finitely many rounds; when it ends every job of the file is
    [ENDED] and every midplane is pristine again. *)
Theorem parsed_trace_runs_to_the_end rows jobs :
  Trace_parse_trace_file rows = inr jobs ->
  (forall row, row ∈ rows -> 0 <= Row.NODES_REQUESTED row < 49664) ->
  exists n w, simulation n (initial jobs) = Ok true w /\
    length (heap w) = length rows /\
    (forall r j, heap w !! r = Some j -> Job.status j = ENDED) /\
    (forall i m, midplanes w !! i = Some m -> MidPlane_clean m).
Proof.
  intros Hparse Hnodes.
  destruct (sorted_trace_ends jobs) as (n & w & Hs).
  - by apply (parsed_sorted rows).
  - intros j Hj. by destruct (parsed_job rows jobs j Hparse Hj) as (row & _ & _ & ? & _).
  - intros j Hj. destruct (parsed_job rows jobs j Hparse Hj) as (row & Hrow & -> & _).
    by apply Hnodes.
  - exists n, w. split_and!; [done | | |].
    + destruct (loop_end_ticks jobs n w Hs) as (m & Hm & _).
      destruct (ticks_frame m (initial jobs) (Inv_initial jobs))
        as (w3 & Hm3 & _ & Hreq & _).
      rewrite Hm in Hm3. apply Outcome_Ok_inj in Hm3 as <-.
      rewrite (same_requests_length (initial jobs) w Hreq). simpl.
      by apply parsed_length.
    + intros r j Hj. destruct (loop_end_jobs jobs n w) with (r := r) (j := j) as [He _];
        [|done|done|done].
      intros j0 Hj0. by destruct (parsed_job rows jobs j0 Hparse Hj0) as (row & _ & _ & _ & ?).
    + by apply (loop_end_pool jobs n).
Qed.

Lemma parsed_trace_runs_to_the_end_witness :
  exists n w, simulation n two_jobs = Ok true w /\
    length (heap w) = length two_rows /\
    (forall r j, heap w !! r = Some j -> Job.status j = ENDED) /\
    (forall i m, midplanes w !! i = Some m -> MidPlane_clean m).
Proof.
  apply (parsed_trace_runs_to_the_end two_rows
           [Job.init "B" 0 1 512 "0"; Job.init "A" 0 2 512 "0"]).
  - reflexivity.
  - intros row Hrow. repeat (apply elem_of_cons in Hrow as [->|Hrow]); simpl; try lia.
    by apply elem_of_nil in Hrow.
Defined.

(** ** One admission per round *)

(** X19.  A round admits at most one job, the head of the queue, however
    many queued jobs the vacant midplanes could serve: after the round the
    queue is the old queue followed by the jobs that arrived, with or
    without its first job, in the same order; and the running jobs are
    running jobs of before, plus at most that one job. *)
Theorem one_admission_per_round w :
  Inv w ->
  exists pulled w',
    tick w = Ok tt w' /\
    (forall r, r ∈ pulled -> arrival w r = Some (simulated_wallclock w)) /\
    ((queue w' = queue w ++ pulled /\
      running_jobs w' `sublist_of` running_jobs w) \/
     (exists h, queue w ++ pulled = h :: queue w' /\
                running_jobs w' `sublist_of` running_jobs w ++ [h])).
Proof.
  intros HInv.
  destruct (tick_Inv w HInv)
    as (pulled & w1 & w2 & w3 & _ & Hd & _ & Hsch & _ & Hsw & Ht & _).
  destruct Hd as (_ & Hq1 & Hrun1 & _ & _ & _ & Hdue & _).
  destruct Hsw as (Hq3 & _ & _ & Hsub3 & _).
  exists pulled. eexists. split; [exact Ht|]. split; [done|]. simpl.
  destruct Hsch as [->|(h & j & evs & Hh & _ & _ & ->)].
  - left. split; [congruence | by rewrite <- Hrun1].
  - right. exists h. simpl in *. rewrite Hq3, <- Hq1, <- Hrun1.
    destruct (queue w1) as [|h' q]; simplify_eq/=. done.
Qed.

Lemma one_admission_per_round_witness :
  exists pulled w',
    tick two_jobs = Ok tt w' /\
    (forall r, r ∈ pulled -> arrival two_jobs r = Some (simulated_wallclock two_jobs)) /\
    ((queue w' = queue two_jobs ++ pulled /\
      running_jobs w' `sublist_of` running_jobs two_jobs) \/
     (exists h, queue two_jobs ++ pulled = h :: queue w' /\
                running_jobs w' `sublist_of` running_jobs two_jobs ++ [h])).
Proof. apply (one_admission_per_round two_jobs), Inv_initial. Defined.

(** ** Who is ticked in a sweep *)

(** X20.  What one call of [jobs_tick] does to a job of the running list:
    it ticks the job exactly once, and the job leaves the list exactly when
    that tick ends it; or it steps over the job, which then stays as it is
    and stays in the list.  A job is stepped over exactly when the job right
    ahead of it in the list ends in this very sweep: the job ahead is ticked,
    the tick brings it to [ENDED], and it has left the list when the sweep
    is over. *)
Theorem sweep_ticks_or_steps_over t w l1 r l2 :
  Inv w ->
  running_jobs w = l1 ++ r :: l2 ->
  exists w', Mira_jobs_tick t w = Ok tt w' /\
    ((exists j j' evs,
        heap w !! r = Some j /\ Job_ticked t j = Some (j', evs) /\
        heap w' !! r = Some j' /\
        (Job.status j' = ENDED <-> r ∉ running_jobs w')) \/
     (heap w' !! r = heap w !! r /\ r ∈ running_jobs w' /\
      exists l0 p j j' evs,
        l1 = l0 ++ [p] /\ heap w !! p = Some j /\
        Job_ticked t j = Some (j', evs) /\ Job.status j' = ENDED /\
        heap w' !! p = Some j' /\ (p ∉ running_jobs w'))) /\
    (forall l0 p, l1 = l0 ++ [p] -> p ∉ running_jobs w' ->
       heap w' !! r = heap w !! r /\ r ∈ running_jobs w').
Proof.
  intros HInv Hrj.
  destruct (Mira_jobs_tick_each t w HInv) as (w' & Hrun & _ & _ & Heach).
  exists w'. split; [done|].
  destruct (Heach l1 r l2 Hrj) as [[Ht|Hs] Hbehind].
  - split; [left | exact Hbehind].
    destruct Ht as (j & j' & evs & Hj & Htk & Hj' & Hiff).
    exists j, j', evs. by split_and!.
  - split; [right | exact Hbehind].
    destruct Hs as (Hsame & Hin & l0 & p & j & j' & evs & Hl & Hp).
    split_and!; [done | done |]. by exists l0, p, j, j', evs.
Qed.

(** The third round of two jobs submitted together: [A], ahead, ends at
    tick 2 and leaves the list; [B], right behind it, is stepped over. *)
Lemma sweep_ticks_or_steps_over_witness :
  let w := state_of (ticks 2 two_jobs) in
  running_jobs w = [1%nat; 0%nat] /\
  exists w', Mira_jobs_tick 2 w = Ok tt w' /\
    heap w' !! 0%nat = heap w !! 0%nat /\
    running_jobs w' = [0%nat] /\
    Job.status <$> heap w !! 1%nat = Some RUNNING /\
    Job.status <$> heap w' !! 1%nat = Some ENDED.
Proof.
  split; [by vm_compute|].
  destruct (sweep_ticks_or_steps_over 2 (state_of (ticks 2 two_jobs)) [1%nat] 0%nat [])
    as (w' & Hrun & _ & _).
  - apply well_formed_Inv. vm_compute. reflexivity.
  - vm_compute. reflexivity.
  - exists w'. split; [done|].
    assert (Hw' : w' = state_of (Mira_jobs_tick 2 (state_of (ticks 2 two_jobs))))
      by (by rewrite Hrun).
    rewrite Hw'. clear. vm_compute. split_and!; reflexivity.
Defined.

(** X21.  A sweep in which no running job is due to end ticks every running
    job exactly once, in the order of the list, and leaves the list as it
    is. *)
Theorem sweep_ticks_everyone_when_none_ends t w :
  Inv w ->
  (forall p j j' evs, p ∈ running_jobs w -> heap w !! p = Some j ->
     Job_ticked t j = Some (j', evs) -> Job.status j' <> ENDED) ->
  exists w', Mira_jobs_tick t w = Ok tt w' /\
    running_jobs w' = running_jobs w /\
    midplanes w' = midplanes w /\
    forall r, r ∈ running_jobs w ->
      exists j j' evs, heap w !! r = Some j /\ Job_ticked t j = Some (j', evs) /\
                       heap w' !! r = Some j'.
Proof.
  intros HInv Hnone.
  destruct (Mira_jobs_tick_sweep t
    (fun kept rest w' =>
       running_jobs w' = kept ++ rest /\ Inv w' /\
       running_jobs w = kept ++ rest /\ midplanes w' = midplanes w /\
       (forall y, y ∈ rest -> heap w' !! y = heap w !! y) /\
       (forall y, y ∈ kept ->
          exists j j' evs, heap w !! y = Some j /\ Job_ticked t j = Some (j', evs) /\
                           heap w' !! y = Some j')))
    with (w := w) as (kept' & w' & Hrun & Hrj' & _ & Hrj & Hmp & _ & Hticked).
  - by intros kept rest w' (? & _).
  - intros kept x rest w1 (Hrj1 & HInv1 & Hrj & Hmp1 & Hrest & Hkept).
    destruct (jobs_tick_body_Inv w1 x t kept rest HInv1 Hrj1) as (w2 & Hbody & HInv2 & Hvis).
    exists w2. split; [done|]. left.
    destruct Hvis as (j & j' & evs & Hj & Ht & Hj' & Hne & _ & _ & _ & Hcases).
    assert (Hj0 : heap w !! x = Some j) by (rewrite <- Hrest; [done | by left]).
    assert (Hx : x ∈ running_jobs w) by (rewrite Hrj; apply elem_of_middle).
    pose proof (Hnone x j j' evs Hx Hj0 Ht) as Hlive.
    destruct Hcases as [(_ & Hrj2 & Hmp2)|(? & _)]; [|done].
    pose proof (Inv_running_NoDup _ HInv1) as Hnd. rewrite Hrj1 in Hnd.
    destruct (NoDup_middle _ _ _ Hnd) as [Hxk Hxr].
    split_and!; try done.
    + by rewrite <- app_assoc.
    + by rewrite <- app_assoc.
    + congruence.
    + intros y Hy. rewrite Hne by (by intros ->). apply Hrest. by right.
    + intros y [Hy|Hy]%elem_of_app.
      * destruct (Hkept y Hy) as (jy & jy' & evy & ? & ? & ?).
        exists jy, jy', evy. split_and!; try done. rewrite Hne; [done|]. by intros ->.
      * apply list_elem_of_singleton in Hy as ->. by exists j, j', evs.
  - split_and!; try done. by intros y ?%elem_of_nil.
  - exists w'. rewrite app_nil_r in Hrj', Hrj. split_and!; try done; [congruence|].
    intros r Hr. apply Hticked. by rewrite <- Hrj.
Qed.

Lemma sweep_ticks_everyone_when_none_ends_witness :
  exists w', Mira_jobs_tick 1 (state_of (ticks 1 two_jobs)) = Ok tt w' /\
    running_jobs w' = running_jobs (state_of (ticks 1 two_jobs)) /\
    midplanes w' = midplanes (state_of (ticks 1 two_jobs)) /\
    forall r, r ∈ running_jobs (state_of (ticks 1 two_jobs)) ->
      exists j j' evs, heap (state_of (ticks 1 two_jobs)) !! r = Some j /\
                       Job_ticked 1 j = Some (j', evs) /\
                       heap w' !! r = Some j'.
Proof.
  apply (sweep_ticks_everyone_when_none_ends 1 (state_of (ticks 1 two_jobs))).
  - apply well_formed_Inv. vm_compute. reflexivity.
  - intros p j j' evs Hp Hj Ht.
    assert (Hrun : running_jobs (state_of (ticks 1 two_jobs)) = [1%nat])
      by (vm_compute; reflexivity).
    rewrite Hrun in Hp. apply list_elem_of_singleton in Hp as ->.
    assert (Hheap : heap (state_of (ticks 1 two_jobs)) !! 1%nat
                    = Some (Job.mk "A" 512 0 (Some 0) (Some 2) 2 "0" RUNNING [0%nat]))
      by (vm_compute; reflexivity).
    rewrite Hheap in Hj. injection Hj as <-. vm_compute in Ht. injection Ht as <- _.
    discriminate.
Defined.

(** ** Every running job ends *)

(** X22.  No running job is starved.  From any well-formed state, a job of
    the running list is [ENDED] and out of the list after finitely many
    rounds, whatever arrives and whatever is admitted meanwhile, and however
    often the sweep steps over it. *)
Theorem every_running_job_ends w r :
  Inv w ->
  r ∈ running_jobs w ->
  exists m w' j',
    ticks m w = Ok tt w' /\ heap w' !! r = Some j' /\
    Job.status j' = ENDED /\ (r ∉ running_jobs w') /\
    (r ∉ trace_jobs w') /\ (r ∉ queue w').
Proof.
  intros HInv Hr.
  destruct (list_elem_of_split _ _ Hr) as (l1 & l2 & Hrj).
  destruct (inv_running _ HInv r Hr) as (j & Hj & _).
  destruct (running_job_ends (length l1 + remaining (simulated_wallclock w) j)
              w l1 r l2 j HInv Hrj Hj (le_n _))
    as (m & w' & j' & Hm & HInv' & Hj' & He & Hgone & _).
  destruct (ticks_frame m w HInv) as (w'' & Hm' & _ & _ & Hfl & _).
  rewrite Hm in Hm'. apply Outcome_Ok_inj in Hm' as <-.
  destruct (Inv_running_not_waiting w r HInv Hr) as [Hnt Hnq].
  destruct Hfl as (Hft & Hfq & _).
  exists m, w', j'. split_and!; try done.
  - intros H. by apply Hnt, Hft.
  - intros H. by destruct (Hfq r H).
Qed.

Lemma every_running_job_ends_witness :
  exists m w' j',
    ticks m (state_of (ticks 2 two_jobs)) = Ok tt w' /\ heap w' !! 0%nat = Some j' /\
    Job.status j' = ENDED /\ (0%nat ∉ running_jobs w') /\
    (0%nat ∉ trace_jobs w') /\ (0%nat ∉ queue w').
Proof.
  apply (every_running_job_ends (state_of (ticks 2 two_jobs)) 0%nat).
  - apply well_formed_Inv. vm_compute. reflexivity.
  - vm_compute. apply list_elem_of_In. simpl. tauto.
Defined.
